(** * Workflow engine, task coordinator and knowledge store

    A shallow embedding of [coordination/workflow_engine.py],
    [coordination/task_coordinator.py], [coordination/agent_orchestrator.py],
    [memory/verification_memory.py] and [memory/shared_knowledge.py].

    Python dictionaries are finite maps ([gmap]), the set of completed step
    ids is a [gset], and the list of step objects of a workflow is a list that
    is updated by index: a round holds references to step objects, which the
    model renders as positions in that list.  Time stamps are left out. *)

From stdpp Require Import base gmap sets list strings.
From Stdlib Require Import ZArith QArith.
Local Open Scope string_scope.
Local Open Scope list_scope.
Local Open Scope nat_scope.
Set Warnings "-register-all,-clear-no-such-hyp".

(** ** Python values *)

(** The values that travel through payloads and results: the JSON-native part
    of Python's value space. *)
Inductive pyval : Type :=
  | PyNone
  | PyBool (b : bool)
  | PyInt (z : Z)
  | PyStr (s : string)
  | PyList (l : list pyval)
  | PyDict (kvs : list (string * pyval)).

(** Python's truth value of an object, as [if x:] tests it. *)
Definition truthy (v : pyval) : bool :=
  match v with
  | PyNone => false
  | PyBool b => b
  | PyInt z => negb (Z.eqb z 0)
  | PyStr s => negb (String.eqb s "")
  | PyList l => match l with [] => false | _ :: _ => true end
  | PyDict kvs => match kvs with [] => false | _ :: _ => true end
  end.

(** [d.get(k)] on a dictionary: an absent key reads as [None]. *)
Definition dict_get (d : gmap string pyval) (k : string) : pyval :=
  match d !! k with
  | Some v => v
  | None => PyNone
  end.

Definition is_none (v : pyval) : bool :=
  match v with PyNone => true | _ => false end.

(** ** Workflow engine *)

Module Engine.

Inductive TaskStatus : Type :=
  | PENDING | IN_PROGRESS | COMPLETED | FAILED | CANCELLED.

#[global] Instance TaskStatus_eq_dec : EqDecision TaskStatus.
Proof. solve_decision. Defined.

Record WorkflowStep : Type := mkStep {
  step_id : string;
  agent_name : string;
  task : gmap string pyval;
  dependencies : list string;
  status : TaskStatus;
  result : option pyval;
  error : option string
}.

(** A worker: [agent.process_task(task_data)] either returns a result or
    raises; [inr msg] is the raised exception with [str(e) = msg]. *)
Definition Agent : Type := gmap string pyval → pyval + string.

(** An entry of the [steps] argument of [create_workflow]; the [dependencies]
    key is optional. *)
Record StepConfig : Type := mkConfig {
  cfg_step_id : string;
  cfg_agent_name : string;
  cfg_task : gmap string pyval;
  cfg_dependencies : option (list string)
}.

(** [WorkflowStep.__init__] *)
Definition new_step (c : StepConfig) : WorkflowStep :=
  {| step_id := cfg_step_id c;
     agent_name := cfg_agent_name c;
     task := cfg_task c;
     dependencies := default [] (cfg_dependencies c);
     status := PENDING;
     result := None;
     error := None |}.

Definition set_failed (msg : string) (s : WorkflowStep) : WorkflowStep :=
  {| step_id := step_id s; agent_name := agent_name s; task := task s;
     dependencies := dependencies s;
     status := FAILED; result := result s; error := Some msg |}.

Definition set_in_progress (s : WorkflowStep) : WorkflowStep :=
  {| step_id := step_id s; agent_name := agent_name s; task := task s;
     dependencies := dependencies s;
     status := IN_PROGRESS; result := result s; error := error s |}.

Definition set_completed (r : pyval) (s : WorkflowStep) : WorkflowStep :=
  {| step_id := step_id s; agent_name := agent_name s; task := task s;
     dependencies := dependencies s;
     status := COMPLETED; result := Some r; error := error s |}.

(** The record kept in [active_workflows]; its ["steps"] entry aliases the
    step objects of [workflows] and is read there. *)
Record ActiveWorkflow : Type := mkActive {
  aw_status : string;
  aw_error : option string
}.

Record HistoryEntry : Type := mkHistory {
  he_workflow_id : string;
  he_status : string;
  he_results : option (gmap string pyval);
  he_error : option string
}.

Record WorkflowEngine : Type := mkEngine {
  workflows : gmap string (list WorkflowStep);
  active_workflows : gmap string ActiveWorkflow;
  workflow_history : list HistoryEntry
}.

Definition empty_engine : WorkflowEngine :=
  {| workflows := ∅; active_workflows := ∅; workflow_history := [] |}.

(** [create_workflow] *)
Definition create_workflow (e : WorkflowEngine) (workflow_id : string)
    (steps : list StepConfig) : WorkflowEngine * string :=
  ({| workflows := <[workflow_id := new_step <$> steps]> (workflows e);
      active_workflows := active_workflows e;
      workflow_history := workflow_history e |},
   workflow_id).

(** One invocation of a worker, as [_execute_step] performs it: the position
    of the step object, its id, and the payload handed to the worker. *)
Record Call : Type := mkCall {
  call_index : nat;
  call_step_id : string;
  call_payload : gmap string pyval
}.

(** The local state of [_execute_steps], together with the step objects it
    mutates and the worker invocations made so far. *)
Record LoopState : Type := mkLoop {
  ls_steps : list WorkflowStep;
  ls_results : gmap string pyval;
  ls_completed : gset string;
  ls_calls : list Call
}.

(** The condition of the ready set:
    [step.status == PENDING and all(dep in completed_steps ...)]. *)
Definition is_ready (completed : gset string) (s : WorkflowStep) : bool :=
  bool_decide (status s = PENDING)
  && forallb (λ dep, bool_decide (dep ∈ completed)) (dependencies s).

(** [ready_steps], as the positions of the step objects it collects. *)
Fixpoint ready_from (i : nat) (steps : list WorkflowStep)
    (completed : gset string) : list nat :=
  match steps with
  | [] => []
  | s :: rest =>
      if is_ready completed s
      then i :: ready_from (S i) rest completed
      else ready_from (S i) rest completed
  end.

Definition ready_steps (steps : list WorkflowStep) (completed : gset string)
    : list nat :=
  ready_from 0 steps completed.

(** [remaining_steps] of the stall check, non-empty or not. *)
Definition is_pending (s : WorkflowStep) : bool :=
  bool_decide (status s = PENDING).

Definition has_pending (steps : list WorkflowStep) : bool :=
  existsb is_pending steps.

(** [previous_results] of a ready step: the entry of [results] under the
    last dependency, [None] when there is none. *)
Definition previous_results (results : gmap string pyval) (s : WorkflowStep)
    : pyval :=
  match last (dependencies s) with
  | Some last_dependency =>
      match results !! last_dependency with
      | Some r => r
      | None => PyNone
      end
  | None => PyNone
  end.

(** [task_data] of [_execute_step]. *)
Definition task_data (s : WorkflowStep) (previous : pyval)
    : gmap string pyval :=
  if is_none (dict_get (task s) "data") && truthy previous
  then <["data" := previous]> (task s)
  else task s.

(** A coroutine created by the launch loop: the step, its worker and the
    previous results it was created with. *)
Record Launched : Type := mkLaunched {
  l_index : nat;
  l_agent : Agent;
  l_previous : pyval
}.

(** The launch loop over [ready_steps]: a step whose agent is in the table
    gets a coroutine, the others are marked failed on the spot. *)
Fixpoint launch (agents : gmap string Agent) (results : gmap string pyval)
    (ready : list nat) (steps : list WorkflowStep)
    : list WorkflowStep * list Launched :=
  match ready with
  | [] => (steps, [])
  | i :: ready' =>
      match steps !! i with
      | None => launch agents results ready' steps
      | Some s =>
          match agents !! agent_name s with
          | Some agent =>
              let '(steps', tasks) := launch agents results ready' steps in
              (steps', mkLaunched i agent (previous_results results s) :: tasks)
          | None =>
              launch agents results ready'
                (<[i := set_failed ("Agent " +:+ agent_name s +:+ " not found") s]> steps)
          end
      end
  end.

(** [asyncio.gather] over [tasks] with [return_exceptions=True]: every coroutine runs
    [_execute_step] on its own step object; the outcomes come back in the
    order of [tasks]. *)
Fixpoint gather (tasks : list Launched) (steps : list WorkflowStep)
    (calls : list Call)
    : list WorkflowStep * list (pyval + string) * list Call :=
  match tasks with
  | [] => (steps, [], calls)
  | t :: tasks' =>
      match steps !! l_index t with
      | None => gather tasks' steps calls
      | Some s =>
          let payload := task_data s (l_previous t) in
          let call := mkCall (l_index t) (step_id s) payload in
          let outcome := l_agent t payload in
          let s' :=
            match outcome with
            | inl _ => set_in_progress s
            | inr msg => set_failed msg (set_in_progress s)
            end in
          let '(steps', outcomes, calls') :=
            gather tasks' (<[l_index t := s']> steps) (calls ++ [call]) in
          (steps', outcome :: outcomes, calls')
      end
  end.

(** The loop over [enumerate(step_results)]: outcome number [i] is recorded
    on [ready_steps[i]]. *)
Fixpoint record_results (i : nat) (outcomes : list (pyval + string))
    (ready : list nat) (st : LoopState) : LoopState :=
  match outcomes with
  | [] => st
  | outcome :: outcomes' =>
      let st' :=
        match ready !! i with
        | None => st
        | Some pos =>
            match ls_steps st !! pos with
            | None => st
            | Some s =>
                match outcome with
                | inr msg =>
                    {| ls_steps := <[pos := set_failed msg s]> (ls_steps st);
                       ls_results := ls_results st;
                       ls_completed := ls_completed st;
                       ls_calls := ls_calls st |}
                | inl r =>
                    {| ls_steps := <[pos := set_completed r s]> (ls_steps st);
                       ls_results := <[step_id s := r]> (ls_results st);
                       ls_completed := {[step_id s]} ∪ ls_completed st;
                       ls_calls := ls_calls st |}
                end
            end
        end in
      record_results (S i) outcomes' ready st'
  end.

(** One pass through the body of the [while] loop with a non-empty ready
    set. *)
Definition run_round (agents : gmap string Agent) (ready : list nat)
    (st : LoopState) : LoopState :=
  let '(steps1, tasks) := launch agents (ls_results st) ready (ls_steps st) in
  let '(steps2, outcomes, calls) := gather tasks steps1 (ls_calls st) in
  record_results 0 outcomes ready
    {| ls_steps := steps2;
       ls_results := ls_results st;
       ls_completed := ls_completed st;
       ls_calls := calls |}.

Inductive LoopResult : Type :=
  | Returned (st : LoopState)
  | Raised (st : LoopState) (msg : string)
  | OutOfFuel.

Definition stall_message : string :=
  "Circular dependency or missing dependency in workflow".

(** The [while] loop of [_execute_steps]; [fuel] bounds the number of
    passes. *)
Fixpoint execute_steps_loop (fuel : nat) (agents : gmap string Agent)
    (st : LoopState) : LoopResult :=
  match fuel with
  | 0 => OutOfFuel
  | S fuel' =>
      if bool_decide (size (ls_completed st) < length (ls_steps st)) then
        match ready_steps (ls_steps st) (ls_completed st) with
        | [] =>
            if has_pending (ls_steps st)
            then Raised st stall_message
            else Returned st
        | i :: ready' =>
            execute_steps_loop fuel' agents (run_round agents (i :: ready') st)
        end
      else Returned st
  end.

Definition initial_loop (steps : list WorkflowStep) : LoopState :=
  {| ls_steps := steps; ls_results := ∅; ls_completed := ∅; ls_calls := [] |}.

(** [_execute_steps]: every pass with a non-empty ready set takes at least
    one step out of PENDING, so one pass more than there are steps is
    enough. *)
Definition _execute_steps (steps : list WorkflowStep)
    (agents : gmap string Agent) : LoopResult :=
  execute_steps_loop (S (length steps)) agents (initial_loop steps).

(** What [execute_workflow] returns. *)
Record WorkflowResult : Type := mkResult {
  wr_workflow_id : string;
  wr_status : string;
  wr_results : gmap string pyval
}.

Inductive Outcome : Type :=
  | Ok (r : WorkflowResult)
  | Exn (msg : string)
  | Diverged.

(** [execute_workflow]: the new engine state, what the call returns or
    raises, and the worker invocations it made. *)
Definition execute_workflow (e : WorkflowEngine) (workflow_id : string)
    (agents : gmap string Agent) : WorkflowEngine * Outcome * list Call :=
  match workflows e !! workflow_id with
  | None => (e, Exn ("Workflow " +:+ workflow_id +:+ " not found"), [])
  | Some workflow_steps =>
      match _execute_steps workflow_steps agents with
      | Returned st =>
          ({| workflows := <[workflow_id := ls_steps st]> (workflows e);
              active_workflows :=
                <[workflow_id := mkActive "completed" None]> (active_workflows e);
              workflow_history :=
                workflow_history e ++
                [mkHistory workflow_id "completed" (Some (ls_results st)) None] |},
           Ok (mkResult workflow_id "completed" (ls_results st)),
           ls_calls st)
      | Raised st msg =>
          ({| workflows := <[workflow_id := ls_steps st]> (workflows e);
              active_workflows :=
                <[workflow_id := mkActive "failed" (Some msg)]> (active_workflows e);
              workflow_history :=
                workflow_history e ++
                [mkHistory workflow_id "failed" None (Some msg)] |},
           Exn msg,
           ls_calls st)
      | OutOfFuel =>
          ({| workflows := workflows e;
              active_workflows :=
                <[workflow_id := mkActive "running" None]> (active_workflows e);
              workflow_history := workflow_history e |},
           Diverged, [])
      end
  end.

End Engine.

(** ** Task coordinator *)

Module Coordinator.
Import Engine.

(** A task dictionary of the queue.  The entries a caller supplies
    ([type], [query], [data], [processor_config], [analysis_type],
    [content_type]) are optional; [status], [result] and [error] are the
    entries the coordinator writes. *)
Record QueuedTask : Type := mkTask {
  task_id : string;
  task_type : option string;
  query : option pyval;
  data : option pyval;
  processor_config : option (gmap string pyval);
  analysis_type : option pyval;
  content_type : option pyval;
  t_status : string;
  t_result : option WorkflowResult;
  t_error : option string
}.

Definition with_status (st : string) (t : QueuedTask) : QueuedTask :=
  {| task_id := task_id t; task_type := task_type t; query := query t;
     data := data t; processor_config := processor_config t;
     analysis_type := analysis_type t; content_type := content_type t;
     t_status := st; t_result := t_result t; t_error := t_error t |}.

Definition with_result (r : WorkflowResult) (t : QueuedTask) : QueuedTask :=
  {| task_id := task_id t; task_type := task_type t; query := query t;
     data := data t; processor_config := processor_config t;
     analysis_type := analysis_type t; content_type := content_type t;
     t_status := "completed"; t_result := Some r; t_error := t_error t |}.

Definition with_error (msg : string) (t : QueuedTask) : QueuedTask :=
  {| task_id := task_id t; task_type := task_type t; query := query t;
     data := data t; processor_config := processor_config t;
     analysis_type := analysis_type t; content_type := content_type t;
     t_status := "failed"; t_result := t_result t; t_error := Some msg |}.

Record TaskCoordinator : Type := mkCoordinator {
  workflow_engine : WorkflowEngine;
  task_queue : list QueuedTask;
  active_tasks : gmap string QueuedTask;
  task_history : list QueuedTask
}.

Definition new_coordinator (e : WorkflowEngine) : TaskCoordinator :=
  {| workflow_engine := e; task_queue := []; active_tasks := ∅;
     task_history := [] |}.

Definition default_processors : gmap string pyval :=
  <["search" := PyStr "base"]> (<["analysis" := PyStr "core"]>
  (<["verification" := PyStr "pro"]> {["content" := PyStr "lite"]})).

(** [str(KeyError(k))] *)
Definition key_error (k : string) : string := "'" +:+ k +:+ "'".

(** [create_research_workflow]; [now] is the formatted time stamp.  The
    only processor the pipeline reads is the one for the search step. *)
Definition create_research_workflow (e : WorkflowEngine) (now : string)
    (research_query : pyval) (config : option (gmap string pyval))
    : WorkflowEngine * (string + string) :=
  let config :=
    match config with
    | Some c => if bool_decide (c = ∅) then default_processors else c
    | None => default_processors
    end in
  match config !! "search" with
  | None => (e, inr (key_error "search"))
  | Some processor =>
      let '(e', workflow_id) :=
        create_workflow e ("research_" +:+ now)
          [ mkConfig "search_step" "SearchAgent"
              (<["type" := PyStr "search"]> (<["query" := research_query]>
                 {["processor" := processor]}))
              (Some []);
            mkConfig "analysis_step" "AnalystAgent"
              (<["type" := PyStr "analyze"]> (<["data" := PyNone]>
                 {["analysis_type" := PyStr "research_analysis"]}))
              (Some ["search_step"]);
            mkConfig "verification_step" "CriticAgent"
              (<["type" := PyStr "validate"]> {["data" := PyNone]})
              (Some ["analysis_step"]);
            mkConfig "content_step" "WriterAgent"
              (<["type" := PyStr "generate"]> (<["data" := PyNone]>
                 {["content_type" := PyStr "research_report"]}))
              (Some ["verification_step"]) ] in
      (e', inl workflow_id)
  end.

(** [create_analysis_workflow] *)
Definition create_analysis_workflow (e : WorkflowEngine) (now : string)
    (payload analysis : pyval) : WorkflowEngine * string :=
  create_workflow e ("analysis_" +:+ now)
    [ mkConfig "analysis_step" "AnalystAgent"
        (<["type" := PyStr "analyze"]> (<["data" := payload]>
           {["analysis_type" := analysis]}))
        (Some []);
      mkConfig "verification_step" "CriticAgent"
        (<["type" := PyStr "validate"]> {["data" := PyNone]})
        (Some ["analysis_step"]) ].

(** [create_content_workflow] *)
Definition create_content_workflow (e : WorkflowEngine) (now : string)
    (payload content : pyval) : WorkflowEngine * string :=
  create_workflow e ("content_" +:+ now)
    [ mkConfig "content_step" "WriterAgent"
        (<["type" := PyStr "generate"]> (<["data" := payload]>
           {["content_type" := content]}))
        (Some []) ].

(** [execute_research_task], [execute_analysis_task] and
    [execute_content_task]: define the pipeline, then execute it. *)
Definition execute_research_task (e : WorkflowEngine) (now : string)
    (research_query : pyval) (agents : gmap string Agent)
    (config : option (gmap string pyval)) : WorkflowEngine * Outcome :=
  match create_research_workflow e now research_query config with
  | (e', inr msg) => (e', Exn msg)
  | (e', inl workflow_id) => (execute_workflow e' workflow_id agents).1
  end.

Definition execute_analysis_task (e : WorkflowEngine) (now : string)
    (payload : pyval) (agents : gmap string Agent) (analysis : pyval)
    : WorkflowEngine * Outcome :=
  let '(e', workflow_id) := create_analysis_workflow e now payload analysis in
  (execute_workflow e' workflow_id agents).1.

Definition execute_content_task (e : WorkflowEngine) (now : string)
    (payload : pyval) (agents : gmap string Agent) (content : pyval)
    : WorkflowEngine * Outcome :=
  let '(e', workflow_id) := create_content_workflow e now payload content in
  (execute_workflow e' workflow_id agents).1.

(** [add_task_to_queue]; [now] is the formatted time stamp. *)
Definition add_task_to_queue (c : TaskCoordinator) (now : string)
    (t : QueuedTask) : TaskCoordinator * string :=
  let id := "task_" +:+ now in
  let t' :=
    {| task_id := id; task_type := task_type t; query := query t;
       data := data t; processor_config := processor_config t;
       analysis_type := analysis_type t; content_type := content_type t;
       t_status := "queued"; t_result := t_result t; t_error := t_error t |} in
  ({| workflow_engine := workflow_engine c;
      task_queue := task_queue c ++ [t'];
      active_tasks := active_tasks c;
      task_history := task_history c |}, id).

(** The body of the [try] of [process_task_queue] after the task was marked
    as processing: dispatch on the type of the task. *)
Definition run_task (e : WorkflowEngine) (now : string)
    (agents : gmap string Agent) (t : QueuedTask) : WorkflowEngine * Outcome :=
  let kind := default "research" (task_type t) in
  if String.eqb kind "research" then
    match query t with
    | None => (e, Exn (key_error "query"))
    | Some q => execute_research_task e now q agents (processor_config t)
    end
  else if String.eqb kind "analysis" then
    match data t with
    | None => (e, Exn (key_error "data"))
    | Some d =>
        execute_analysis_task e now d agents
          (default (PyStr "general") (analysis_type t))
    end
  else if String.eqb kind "content" then
    match data t with
    | None => (e, Exn (key_error "data"))
    | Some d =>
        execute_content_task e now d agents
          (default (PyStr "report") (content_type t))
    end
  else (e, Exn ("Unknown task type: " +:+ kind)).

(** The coordinator once the head of the queue was popped, entered in
    [active_tasks] and marked as processing. *)
Definition begin_task (c : TaskCoordinator) (t : QueuedTask)
    (rest : list QueuedTask) : TaskCoordinator :=
  {| workflow_engine := workflow_engine c;
     task_queue := rest;
     active_tasks := <[task_id t := with_status "processing" t]> (active_tasks c);
     task_history := task_history c |}.

(** The coordinator once the [finally] clause ran: the terminal record is
    appended to the history and taken out of [active_tasks]. *)
Definition end_task (c : TaskCoordinator) (e : WorkflowEngine)
    (t : QueuedTask) : TaskCoordinator :=
  {| workflow_engine := e;
     task_queue := task_queue c;
     active_tasks := delete (task_id t) (active_tasks c);
     task_history := task_history c ++ [t] |}.

(** What a drain leaves: the coordinator, the coordinator as it was each
    time a task was marked as processing and each time a task reached the
    history, and whether the loop ran to the end of the queue. *)
Record Drained : Type := mkDrained {
  d_final : TaskCoordinator;
  d_trace : list TaskCoordinator;
  d_finished : bool
}.

(** The [while self.task_queue] loop; [clock n] is the time stamp read while
    the task that becomes entry [n] of the history is processed. *)
Fixpoint drain (clock : nat → string) (agents : gmap string Agent)
    (queue : list QueuedTask) (c : TaskCoordinator)
    (trace : list TaskCoordinator) : Drained :=
  match queue with
  | [] => mkDrained c trace true
  | t :: rest =>
      let c1 := begin_task c t rest in
      let started := with_status "processing" t in
      match run_task (workflow_engine c) (clock (length (task_history c)))
              agents started with
      | (e, Ok r) =>
          let c2 := end_task c1 e (with_result r started) in
          drain clock agents rest c2 (trace ++ [c1; c2])
      | (e, Exn msg) =>
          let c2 := end_task c1 e (with_error msg started) in
          drain clock agents rest c2 (trace ++ [c1; c2])
      | (e, Diverged) => mkDrained c1 (trace ++ [c1]) false
      end
  end.

(** [process_task_queue] *)
Definition process_task_queue (clock : nat → string)
    (agents : gmap string Agent) (c : TaskCoordinator) : Drained :=
  drain clock agents (task_queue c) c [].

End Coordinator.

(** ** Verification memory *)

Module Verification.

(** An entry of [fact_checks]: the claim and the result dictionary of the
    check. *)
Record FactCheck : Type := mkFactCheck {
  fc_claim : string;
  fc_result : gmap string pyval
}.

Record VerificationMemory : Type := mkMemory {
  fact_checks : gmap string FactCheck;
  validations : gmap string (gmap string pyval)
}.

Definition empty_memory : VerificationMemory :=
  {| fact_checks := ∅; validations := ∅ |}.

(** The part of [store_fact_check] and [store_validation] that the summary
    reads. *)
Definition store_fact_check (vm : VerificationMemory) (claim_id claim : string)
    (result : gmap string pyval) : VerificationMemory :=
  {| fact_checks := <[claim_id := mkFactCheck claim result]> (fact_checks vm);
     validations := validations vm |}.

Definition store_validation (vm : VerificationMemory) (data_id : string)
    (validation_result : gmap string pyval) : VerificationMemory :=
  {| fact_checks := fact_checks vm;
     validations := <[data_id := validation_result]> (validations vm) |}.

(** [fc["result"].get("status") == "verified"] *)
Definition is_verified (fc : FactCheck) : bool :=
  match fc_result fc !! "status" with
  | Some (PyStr s) => String.eqb s "verified"
  | _ => false
  end.

(** [v.get("is_valid", False)] as a condition *)
Definition is_valid (v : gmap string pyval) : bool :=
  match v !! "is_valid" with
  | Some x => truthy x
  | None => false
  end.

(** [sum(1 for x in d.values() if cond(x))] *)
Definition count_values {A} (cond : A → bool) (d : gmap string A) : nat :=
  length (List.filter cond (map_to_list d).*2).

(** Python's [a / b] on two counts: a [ZeroDivisionError] for a zero
    divisor, the quotient otherwise.  The quotient is kept as the exact
    fraction, which Python rounds to the nearest float. *)
Definition true_div (a b : nat) : Q + string :=
  match b with
  | 0 => inr "division by zero"
  | S _ => inl (Z.of_nat a # Pos.of_nat b)
  end.

Record Summary : Type := mkSummary {
  total_fact_checks : nat;
  verified_claims : nat;
  total_validations : nat;
  valid_data : nat;
  verification_rate : Q;
  validation_rate : Q
}.

(** [get_verification_summary]: the summary, or the exception a division
    raised. *)
Definition get_verification_summary (vm : VerificationMemory)
    : Summary + string :=
  let total_fact_checks := size (fact_checks vm) in
  let total_validations := size (validations vm) in
  let verified_claims := count_values is_verified (fact_checks vm) in
  let valid_data := count_values is_valid (validations vm) in
  match (if 0 <? total_fact_checks
         then true_div verified_claims total_fact_checks
         else inl 0%Q) with
  | inr exn => inr exn
  | inl verification_rate =>
      match (if 0 <? total_validations
             then true_div valid_data total_validations
             else inl 0%Q) with
      | inr exn => inr exn
      | inl validation_rate =>
          inl {| total_fact_checks := total_fact_checks;
                 verified_claims := verified_claims;
                 total_validations := total_validations;
                 valid_data := valid_data;
                 verification_rate := verification_rate;
                 validation_rate := validation_rate |}
      end
  end.

End Verification.

(** ** Shared knowledge repository *)

Module Knowledge.

(** The repository: the knowledge graph (node id to node dictionary), the
    relationships (node id to the list of its relationship dictionaries),
    the metadata, and for each memory tier the document its [to_dict]
    gives. *)
Record SharedKnowledgeRepository : Type := mkRepository {
  knowledge_graph : gmap string pyval;
  relationships : gmap string pyval;
  metadata : gmap string pyval;
  search_memory : pyval;
  analysis_memory : pyval;
  verification_memory : pyval;
  content_memory : pyval
}.

Definition empty_repository (search analysis verification content : pyval)
    : SharedKnowledgeRepository :=
  {| knowledge_graph := ∅; relationships := ∅; metadata := ∅;
     search_memory := search; analysis_memory := analysis;
     verification_memory := verification; content_memory := content |}.

(** [type(x).__name__] *)
Definition type_name (v : pyval) : string :=
  match v with
  | PyNone => "NoneType"
  | PyBool _ => "bool"
  | PyInt _ => "int"
  | PyStr _ => "str"
  | PyList _ => "list"
  | PyDict _ => "dict"
  end.

(** [add_knowledge_node]; [now] is the time stamp. *)
Definition add_knowledge_node (repo : SharedKnowledgeRepository)
    (node_id : string) (node_data : pyval) (source now : string)
    : SharedKnowledgeRepository :=
  {| knowledge_graph :=
       <[node_id := PyDict [("data", node_data); ("source", PyStr source);
                            ("timestamp", PyStr now); ("access_count", PyInt 0)]]>
         (knowledge_graph repo);
     relationships := relationships repo;
     metadata :=
       <["node_" +:+ node_id :=
           PyDict [("source", PyStr source); ("created_at", PyStr now);
                   ("data_type", PyStr (type_name node_data))]]>
         (metadata repo);
     search_memory := search_memory repo;
     analysis_memory := analysis_memory repo;
     verification_memory := verification_memory repo;
     content_memory := content_memory repo |}.

(** [add_relationship]; [now] is the time stamp.  Appending to an entry
    that is not a list raises. *)
Definition add_relationship (repo : SharedKnowledgeRepository)
    (from_node to_node relationship_type now : string)
    : SharedKnowledgeRepository + string :=
  let relationship :=
    PyDict [("target", PyStr to_node); ("type", PyStr relationship_type);
            ("timestamp", PyStr now)] in
  match default (PyList []) (relationships repo !! from_node) with
  | PyList existing =>
      inl {| knowledge_graph := knowledge_graph repo;
             relationships :=
               <[from_node := PyList (existing ++ [relationship])]>
                 (relationships repo);
             metadata := metadata repo;
             search_memory := search_memory repo;
             analysis_memory := analysis_memory repo;
             verification_memory := verification_memory repo;
             content_memory := content_memory repo |}
  | _ => inr "AttributeError"
  end.


Definition to_dict (members : list (string * pyval)) : gmap string pyval :=
  foldl (λ d kv, <[kv.1 := kv.2]> d) ∅ members.


(** [d.update(other)] for a JSON value [other].  The members of an object
    are written over [d].  An empty array and an empty string are iterables
    without elements, so nothing is written.  [None], a boolean and a number
    are not iterable, and a non-empty string fails at its first character,
    which is not a pair: both raise before anything is written.  A non-empty
    array is read as a sequence of key-value pairs; its keys need not be
    strings and it can raise half way, which dictionaries keyed by strings
    do not render: the answer for it is [None]. *)
Definition update (d : gmap string pyval) (other : pyval)
    : option (gmap string pyval + string) :=
  match other with
  | PyDict members => Some (inl (to_dict members ∪ d))
  | PyNone | PyBool _ | PyInt _ => Some (inr "TypeError")
  | PyStr s =>
      if String.eqb s "" then Some (inl d) else Some (inr "ValueError")
  | PyList [] => Some (inl d)
  | PyList (_ :: _) => None
  end.

(** [import_knowledge]: the repository after the call, and the exception it
    raised if any.  The graph is updated before the relationships are
    looked at.  The answer is [None] where [update] has none. *)
Definition import_knowledge (repo : SharedKnowledgeRepository)
    (snapshot : pyval) (format : string)
    : option (SharedKnowledgeRepository * option string) :=
  if String.eqb format "json" then
    match snapshot with
    | PyDict members =>
        let imported_data := to_dict members in
        match update (knowledge_graph repo)
                (default (PyDict []) (imported_data !! "knowledge_graph")) with
        | None => None
        | Some (inr exn) => Some (repo, Some exn)
        | Some (inl graph) =>
            let repo1 :=
              {| knowledge_graph := graph;
                 relationships := relationships repo;
                 metadata := metadata repo;
                 search_memory := search_memory repo;
                 analysis_memory := analysis_memory repo;
                 verification_memory := verification_memory repo;
                 content_memory := content_memory repo |} in
            match update (relationships repo)
                    (default (PyDict []) (imported_data !! "relationships")) with
            | None => None
            | Some (inr exn) => Some (repo1, Some exn)
            | Some (inl rels) =>
                Some ({| knowledge_graph := graph;
                         relationships := rels;
                         metadata := metadata repo;
                         search_memory := search_memory repo;
                         analysis_memory := analysis_memory repo;
                         verification_memory := verification_memory repo;
                         content_memory := content_memory repo |}, None)
            end
        end
    | _ => Some (repo, Some "AttributeError")
    end
  else Some (repo, Some ("Unsupported import format: " +:+ format)).

End Knowledge.

(** ** Concrete workflows *)

Module Scenarios.
Import Engine.

(** A worker that returns [r] whatever it is given, and one that raises. *)
Definition returns (r : pyval) : Agent := λ _, inl r.
Definition raises (msg : string) : Agent := λ _, inr msg.

Definition step (id agent : string) (deps : list string) : StepConfig :=
  mkConfig id agent ∅ (Some deps).

Definition define (steps : list StepConfig) : WorkflowEngine :=
  (create_workflow empty_engine "wf" steps).1.

Definition report : pyval := PyDict [("content", PyStr "report")].

(** One step whose worker raises. *)
Definition single_failing : WorkflowEngine := define [step "A" "worker" []].
Definition failing_table : gmap string Agent := {["worker" := raises "boom"]}.

(** Two steps without dependencies; the capability of the first is not in
    the table. *)
Definition missing_capability : WorkflowEngine :=
  define [step "A" "missing" []; step "B" "worker" []].
Definition worker_table : gmap string Agent := {["worker" := returns report]}.

(** A and B have no dependencies and C depends on A; the capability of A
    is not in the table. *)
Definition overwritten_failure : WorkflowEngine :=
  define [step "A" "missing" []; step "B" "worker" [];
          step "C" "worker" ["A"]].

(** B takes its data from A, and A returns an empty dictionary. *)
Definition empty_result : WorkflowEngine :=
  define [step "A" "first" []; step "B" "second" ["A"]].

(** A chain of two steps with workers that return. *)
Definition chain : WorkflowEngine :=
  define [step "A" "worker" []; step "B" "worker" ["A"]].

(** B depends on A, and the worker of A raises. *)
Definition failed_dependency : WorkflowEngine :=
  define [step "A" "worker" []; step "B" "worker" ["A"]].

(** The cycle A -> B, B -> C, C -> A. *)
Definition cycle : WorkflowEngine :=
  define [step "A" "worker" ["C"]; step "B" "worker" ["A"];
          step "C" "worker" ["B"]].

(** A coordinator with two submitted tasks: one of a type the coordinator
    does not know, then a research task; and a table with the four workers
    of the pipelines. *)
Definition pipeline_table : gmap string Agent :=
  <["SearchAgent" := returns report]> (<["AnalystAgent" := returns report]>
  (<["CriticAgent" := returns report]> {["WriterAgent" := returns report]})).

Definition unknown_task : Coordinator.QueuedTask :=
  Coordinator.mkTask "" (Some "survey") None None None None None "" None None.

Definition research_task : Coordinator.QueuedTask :=
  Coordinator.mkTask "" (Some "research") (Some (PyStr "X")) None None None
    None "" None None.

Definition two_queued : Coordinator.TaskCoordinator :=
  (Coordinator.add_task_to_queue
     (Coordinator.add_task_to_queue
        (Coordinator.new_coordinator empty_engine) "0001" unknown_task).1
     "0002" research_task).1.

(** A verification memory with two fact-checks, one of them verified. *)
Definition two_fact_checks : Verification.VerificationMemory :=
  Verification.store_fact_check
    (Verification.store_fact_check Verification.empty_memory
       "c1" "water is wet" {["status" := PyStr "verified"]})
    "c2" "the moon is cheese" {["status" := PyStr "refuted"]}.

End Scenarios.

(** ** Queries and cancellation of the engine *)

Module EngineQueries.
Import Engine.

(** [get_workflow_status] *)
Definition get_workflow_status (e : WorkflowEngine) (workflow_id : string)
    : option ActiveWorkflow :=
  active_workflows e !! workflow_id.

(** [get_workflow_history] *)
Definition get_workflow_history (e : WorkflowEngine) : list HistoryEntry :=
  workflow_history e.

(** [cancel_workflow]: the status of the active record is overwritten, the
    other entries of the record stay; nothing else is touched. *)
Definition cancel_workflow (e : WorkflowEngine) (workflow_id : string)
    : WorkflowEngine * bool :=
  match active_workflows e !! workflow_id with
  | Some record =>
      ({| workflows := workflows e;
          active_workflows :=
            <[workflow_id := mkActive "cancelled" (aw_error record)]>
              (active_workflows e);
          workflow_history := workflow_history e |}, true)
  | None => (e, false)
  end.

End EngineQueries.

(** ** Queries of the task coordinator *)

Module CoordinatorQueries.
Import Coordinator.


(** What [get_queue_status] returns. *)
Record QueueStatus : Type := mkQueueStatus {
  queue_length : nat;
  active_count : nat;
  completed_tasks : nat;
  queue_ids : list string;
  active_ids : list string
}.

(** [get_queue_status] *)
Definition get_queue_status (c : TaskCoordinator) : QueueStatus :=
  {| queue_length := length (task_queue c);
     active_count := size (active_tasks c);
     completed_tasks := length (task_history c);
     queue_ids := task_id <$> task_queue c;
     active_ids := (map_to_list (active_tasks c)).*1 |}.

(** [get_task_history] *)
Definition get_task_history (c : TaskCoordinator) : list QueuedTask :=
  task_history c.

End CoordinatorQueries.

(** ** The orchestrator *)

Module Orchestrator.
Import Engine Coordinator.

(** The system: the coordinator, whose engine is the engine of the system,
    the table of the workers, and the counter kept in [system_status]. *)
Record AgentOrchestrator : Type := mkOrchestrator {
  task_coordinator : TaskCoordinator;
  agents : gmap string Agent;
  total_tasks_completed : nat
}.

(** The table [__init__] builds of the four workers it creates. *)
Definition four_workers (search analyst critic writer : Agent)
    : gmap string Agent :=
  <["SearchAgent" := search]> (<["AnalystAgent" := analyst]>
  (<["CriticAgent" := critic]> {["WriterAgent" := writer]})).

(** [__init__] *)
Definition new_orchestrator (search analyst critic writer : Agent)
    : AgentOrchestrator :=
  {| task_coordinator := new_coordinator empty_engine;
     agents := four_workers search analyst critic writer;
     total_tasks_completed := 0 |}.

(** What [research], [analyze_data] and [generate_content] return: the
    [success] flag, the query, analysis type or content type the report
    repeats, and the [result] or the [error]. *)
Record Report : Type := mkReport {
  rp_success : bool;
  rp_subject : pyval;
  rp_result : option WorkflowResult;
  rp_error : option string
}.

(** The [try] and [except] of the three requests. *)
Definition report_of (subject : pyval) (out : Outcome) : option Report :=
  match out with
  | Ok r => Some (mkReport true subject (Some r) None)
  | Exn msg => Some (mkReport false subject None (Some msg))
  | Diverged => None
  end.

Definition with_engine (c : TaskCoordinator) (e : WorkflowEngine)
    : TaskCoordinator :=
  {| workflow_engine := e; task_queue := task_queue c;
     active_tasks := active_tasks c; task_history := task_history c |}.

(** [research]; [now] is the formatted time stamp.  The counter is
    incremented once the task has returned. *)
Definition research (o : AgentOrchestrator) (now : string) (query : pyval)
    (config : option (gmap string pyval))
    : AgentOrchestrator * option Report :=
  let '(e, out) :=
    execute_research_task (workflow_engine (task_coordinator o)) now query
      (agents o) config in
  ({| task_coordinator := with_engine (task_coordinator o) e;
      agents := agents o;
      total_tasks_completed :=
        match out with
        | Ok _ => S (total_tasks_completed o)
        | _ => total_tasks_completed o
        end |},
   report_of query out).

(** [analyze_data] *)
Definition analyze_data (o : AgentOrchestrator) (now : string)
    (payload analysis : pyval) : AgentOrchestrator * option Report :=
  let '(e, out) :=
    execute_analysis_task (workflow_engine (task_coordinator o)) now payload
      (agents o) analysis in
  ({| task_coordinator := with_engine (task_coordinator o) e;
      agents := agents o;
      total_tasks_completed := total_tasks_completed o |},
   report_of analysis out).

(** [generate_content] *)
Definition generate_content (o : AgentOrchestrator) (now : string)
    (payload content : pyval) : AgentOrchestrator * option Report :=
  let '(e, out) :=
    execute_content_task (workflow_engine (task_coordinator o)) now payload
      (agents o) content in
  ({| task_coordinator := with_engine (task_coordinator o) e;
      agents := agents o;
      total_tasks_completed := total_tasks_completed o |},
   report_of content out).

Definition with_coordinator (o : AgentOrchestrator) (c : TaskCoordinator)
    : AgentOrchestrator :=
  {| task_coordinator := c; agents := agents o;
     total_tasks_completed := total_tasks_completed o |}.

(** [add_research_task], [add_analysis_task] and [add_content_task]: the
    task dictionary each builds, queued. *)
Definition research_request (query : pyval)
    (config : option (gmap string pyval)) : QueuedTask :=
  mkTask "" (Some "research") (Some query) None config None None "" None None.

Definition analysis_request (payload analysis : pyval) : QueuedTask :=
  mkTask "" (Some "analysis") None (Some payload) None (Some analysis) None ""
    None None.

Definition content_request (payload content : pyval) : QueuedTask :=
  mkTask "" (Some "content") None (Some payload) None None (Some content) ""
    None None.

Definition add_research_task (o : AgentOrchestrator) (now : string)
    (query : pyval) (config : option (gmap string pyval))
    : AgentOrchestrator * string :=
  let '(c, id) :=
    add_task_to_queue (task_coordinator o) now (research_request query config) in
  (with_coordinator o c, id).

Definition add_analysis_task (o : AgentOrchestrator) (now : string)
    (payload analysis : pyval) : AgentOrchestrator * string :=
  let '(c, id) :=
    add_task_to_queue (task_coordinator o) now
      (analysis_request payload analysis) in
  (with_coordinator o c, id).

Definition add_content_task (o : AgentOrchestrator) (now : string)
    (payload content : pyval) : AgentOrchestrator * string :=
  let '(c, id) :=
    add_task_to_queue (task_coordinator o) now
      (content_request payload content) in
  (with_coordinator o c, id).

End Orchestrator.

(** ** Queries of the shared knowledge repository *)

Module KnowledgeQueries.
Import Knowledge.

(** [get_relationships] *)
Definition get_relationships (repo : SharedKnowledgeRepository)
    (node_id : string) : pyval :=
  default (PyList []) (relationships repo !! node_id).

(** [d[k] = v] on the members of a dictionary: the member of that name gets
    the value and keeps its place; a new member goes to the end. *)
Definition set_member (k : string) (v : pyval)
    (members : list (string * pyval)) : list (string * pyval) :=
  if bool_decide (k ∈ members.*1)
  then (λ kv, if String.eqb kv.1 k then (k, v) else kv) <$> members
  else members ++ [(k, v)].

(** [x + 1] for the [+=] of the access counter. *)
Definition increment (v : pyval) : pyval + string :=
  match v with
  | PyInt n => inl (PyInt (n + 1))
  | PyBool b => inl (PyInt (if b then 2 else 1))
  | _ => inr "TypeError"
  end.

(** [get_knowledge_node]: the repository after the call, and the node it
    returns, [None] for an id that is not in the graph, or the exception
    raised.  The node returned is the node as the call leaves it. *)
Definition get_knowledge_node (repo : SharedKnowledgeRepository)
    (node_id : string)
    : SharedKnowledgeRepository * (option pyval + string) :=
  match knowledge_graph repo !! node_id with
  | None => (repo, inl None)
  | Some (PyDict members) =>
      match to_dict members !! "access_count" with
      | None => (repo, inr "'access_count'")
      | Some count =>
          match increment count with
          | inr exn => (repo, inr exn)
          | inl count' =>
              let node := PyDict (set_member "access_count" count' members) in
              ({| knowledge_graph := <[node_id := node]> (knowledge_graph repo);
                  relationships := relationships repo;
                  metadata := metadata repo;
                  search_memory := search_memory repo;
                  analysis_memory := analysis_memory repo;
                  verification_memory := verification_memory repo;
                  content_memory := content_memory repo |},
               inl (Some node))
          end
      end
  | Some _ => (repo, inr "TypeError")
  end.

End KnowledgeQueries.

(** * Properties of the workflow engine *)

Module EngineFacts.
Import Engine.

(** The fields of a step object that no code path of the engine assigns. *)
Definition same_static (s s' : WorkflowStep) : Prop :=
  step_id s' = step_id s ∧ agent_name s' = agent_name s
  ∧ task s' = task s ∧ dependencies s' = dependencies s.

Lemma task_data_static s s' previous :
  task s' = task s → task_data s' previous = task_data s previous.
Proof. intros H. unfold task_data. by rewrite H. Qed.

(** ** The ready set *)

Lemma is_ready_spec completed s :
  is_ready completed s = true ↔
  status s = PENDING ∧ ∀ dep, dep ∈ dependencies s → dep ∈ completed.
Proof.
  unfold is_ready. rewrite andb_true_iff, bool_decide_eq_true.
  rewrite forallb_forall. split; intros [Hs Hd]; split; auto.
  - intros dep Hin. apply list_elem_of_In in Hin.
    specialize (Hd _ Hin). by apply bool_decide_eq_true in Hd.
  - intros dep Hin. apply bool_decide_eq_true, Hd. by apply list_elem_of_In.
Qed.

Lemma elem_of_ready_from k steps completed pos :
  pos ∈ ready_from k steps completed ↔
  k ≤ pos ∧ ∃ s, steps !! (pos - k) = Some s ∧ is_ready completed s = true.
Proof.
  revert k. induction steps as [|s rest IH]; intros k; simpl.
  - split; [by intros ?%elem_of_nil | by intros (_ & ? & ? & _)].
  - destruct (is_ready completed s) eqn:Hr.
    + rewrite elem_of_cons, IH. split.
      * intros [-> | (Hle & s' & Hl & Hr')].
        -- split; [lia|]. exists s. by rewrite Nat.sub_diag.
        -- split; [lia|]. exists s'. split; [|done].
           replace (pos - k) with (S (pos - S k)) by lia. done.
      * intros (Hle & s' & Hl & Hr').
        destruct (decide (pos = k)) as [->|Hne]; [by left|right].
        split; [lia|]. exists s'. split; [|done].
        replace (pos - k) with (S (pos - S k)) in Hl by lia. done.
    + rewrite IH. split.
      * intros (Hle & s' & Hl & Hr'). split; [lia|]. exists s'. split; [|done].
        replace (pos - k) with (S (pos - S k)) by lia. done.
      * intros (Hle & s' & Hl & Hr').
        destruct (decide (pos = k)) as [->|Hne].
        { rewrite Nat.sub_diag in Hl. simpl in Hl. congruence. }
        split; [lia|]. exists s'. split; [|done].
        replace (pos - k) with (S (pos - S k)) in Hl by lia. done.
Qed.

Lemma elem_of_ready_steps steps completed pos :
  pos ∈ ready_steps steps completed ↔
  ∃ s, steps !! pos = Some s ∧ is_ready completed s = true.
Proof.
  unfold ready_steps. rewrite elem_of_ready_from, Nat.sub_0_r.
  split; [by intros [_ ?] | intros ?; split; [lia | done]].
Qed.

Lemma NoDup_ready_from k steps completed :
  NoDup (ready_from k steps completed).
Proof.
  revert k. induction steps as [|s rest IH]; intros k; simpl.
  - constructor.
  - destruct (is_ready completed s); [|apply IH].
    constructor; [|apply IH].
    rewrite elem_of_ready_from. lia.
Qed.

Lemma NoDup_ready_steps steps completed :
  NoDup (ready_steps steps completed).
Proof. apply NoDup_ready_from. Qed.

Lemma has_pending_spec steps :
  has_pending steps = true ↔ ∃ s, s ∈ steps ∧ status s = PENDING.
Proof.
  unfold has_pending. rewrite existsb_exists. split.
  - intros (s & Hin & Hp). exists s. split; [by apply list_elem_of_In|].
    by apply bool_decide_eq_true in Hp.
  - intros (s & Hin & Hp). exists s. split; [by apply list_elem_of_In|].
    by apply bool_decide_eq_true.
Qed.

(** ** The launch loop *)

Definition not_found (s : WorkflowStep) : string :=
  "Agent " +:+ agent_name s +:+ " not found".

Lemma launch_steps agents results ready steps steps' tasks :
  launch agents results ready steps = (steps', tasks) →
  length steps' = length steps
  ∧ ∀ pos s, steps !! pos = Some s →
      ∃ s', steps' !! pos = Some s'
        ∧ (s' = s ∨ (pos ∈ ready ∧ agents !! agent_name s = None
                     ∧ s' = set_failed (not_found s) s))
        ∧ (pos ∈ ready → agents !! agent_name s = None →
           s' = set_failed (not_found s) s).
Proof.
  revert steps steps' tasks.
  induction ready as [|i ready IH]; intros steps steps' tasks Hl; simpl in Hl.
  { injection Hl as <- <-. split; [done|]. intros pos s Hs. exists s.
    split; [done|]. split; [by left|]. by intros ?%elem_of_nil. }
  destruct (steps !! i) as [si|] eqn:Hi.
  - destruct (agents !! agent_name si) as [agent|] eqn:Hag.
    + destruct (launch agents results ready steps) as [steps1 tasks1] eqn:Hrec.
      injection Hl as <- <-.
      destruct (IH _ _ _ Hrec) as [Hlen Hpt]. split; [done|].
      intros pos s Hs. destruct (Hpt pos s Hs) as (s' & Hs' & Hor & Hin).
      exists s'. split; [done|]. split.
      * destruct Hor as [->|(? & ? & ->)]; [by left|right].
        split_and!; [by right | done | done].
      * intros [->|Hin']%elem_of_cons Hnone; [congruence | auto].
    + destruct (IH _ _ _ Hl) as [Hlen Hpt]. rewrite length_insert in Hlen.
      split; [done|]. intros pos s Hs.
      destruct (decide (pos = i)) as [->|Hne].
      * assert (s = si) as -> by congruence.
        destruct (Hpt i (set_failed (not_found si) si)) as (s' & Hs' & Hor & _).
        { apply list_lookup_insert_eq. by eapply lookup_lt_Some. }
        exists s'. split; [done|].
        assert (s' = set_failed (not_found si) si) as ->.
        { destruct Hor as [->|(_ & _ & ->)]; done. }
        split; [right; split_and!; [by left | done | done] | done].
      * destruct (Hpt pos s) as (s' & Hs' & Hor & Hin).
        { by rewrite list_lookup_insert_ne. }
        exists s'. split; [done|]. split.
        -- destruct Hor as [->|(? & ? & ->)]; [by left|right].
           split_and!; [by right | done | done].
        -- intros [->|Hin']%elem_of_cons Hnone; [done | auto].
  - destruct (IH _ _ _ Hl) as [Hlen Hpt]. split; [done|].
    intros pos s Hs. destruct (Hpt pos s Hs) as (s' & Hs' & Hor & Hin).
    exists s'. split; [done|]. split.
    + destruct Hor as [->|(? & ? & ->)]; [by left|right].
      split_and!; [by right | done | done].
    + intros [->|Hin']%elem_of_cons Hnone; [congruence | auto].
Qed.

Lemma launch_tasks agents results ready steps steps' tasks :
  launch agents results ready steps = (steps', tasks) →
  (l_index <$> tasks) `sublist_of` ready
  ∧ (∀ t, t ∈ tasks →
       ∃ s, steps !! l_index t = Some s ∧ steps' !! l_index t = Some s
         ∧ agents !! agent_name s = Some (l_agent t)
         ∧ l_previous t = previous_results results s)
  ∧ (∀ pos s, pos ∈ ready → steps !! pos = Some s →
       is_Some (agents !! agent_name s) → pos ∈ l_index <$> tasks).
Proof.
  revert steps steps' tasks.
  induction ready as [|i ready IH]; intros steps steps' tasks Hl; simpl in Hl.
  { injection Hl as <- <-. split_and!; [done | |].
    - by intros t ?%elem_of_nil.
    - by intros pos s ?%elem_of_nil. }
  destruct (steps !! i) as [si|] eqn:Hi.
  - destruct (agents !! agent_name si) as [agent|] eqn:Hag.
    + destruct (launch agents results ready steps) as [steps1 tasks1] eqn:Hrec.
      injection Hl as <- <-.
      destruct (IH _ _ _ Hrec) as (Hsub & Ht & Hcov).
      destruct (launch_steps _ _ _ _ _ _ Hrec) as [_ Hpt].
      split_and!.
      * simpl. by apply sublist_skip.
      * intros t [->|Hin]%elem_of_cons; [|auto]. simpl.
        exists si. split_and!; [done | | done | done].
        destruct (Hpt i si Hi) as (s' & Hs' & [->|(_ & ? & _)] & _);
          [done | congruence].
      * intros pos s [->|Hin]%elem_of_cons Hs Hsome.
        -- simpl. by left.
        -- simpl. right. eauto.
    + destruct (IH _ _ _ Hl) as (Hsub & Ht & Hcov). split_and!.
      * by apply sublist_cons.
      * intros t Hin. destruct (Ht t Hin) as (s & Hs & Hs' & Ha & Hp).
        destruct (decide (l_index t = i)) as [Heq|Hne].
        { rewrite Heq, list_lookup_insert_eq in Hs
            by (by eapply lookup_lt_Some).
          injection Hs as <-. simpl in Ha. congruence. }
        rewrite list_lookup_insert_ne in Hs by done. eauto.
      * intros pos s [->|Hin]%elem_of_cons Hs Hsome.
        { rewrite Hi in Hs. injection Hs as <-. rewrite Hag in Hsome.
          by destruct Hsome. }
        destruct (decide (pos = i)) as [->|Hne].
        { rewrite Hi in Hs. injection Hs as <-. rewrite Hag in Hsome.
          by destruct Hsome. }
        eapply Hcov; [done | | done]. by rewrite list_lookup_insert_ne.
  - destruct (IH _ _ _ Hl) as (Hsub & Ht & Hcov). split_and!.
    + by apply sublist_cons.
    + done.
    + intros pos s [->|Hin]%elem_of_cons Hs Hsome; [congruence | eauto].
Qed.

(** ** The gathered coroutines *)

Lemma same_static_refl s : same_static s s.
Proof. by repeat split. Qed.

Lemma same_static_trans s1 s2 s3 :
  same_static s1 s2 → same_static s2 s3 → same_static s1 s3.
Proof. intros (?&?&?&?) (?&?&?&?). repeat split; congruence. Qed.

(** The step object a coroutine leaves behind. *)
Definition after_step (outcome : pyval + string) (s : WorkflowStep)
    : WorkflowStep :=
  match outcome with
  | inl _ => set_in_progress s
  | inr msg => set_failed msg (set_in_progress s)
  end.

Lemma after_step_static outcome s : same_static s (after_step outcome s).
Proof. by destruct outcome; repeat split. Qed.

Lemma after_step_status outcome s :
  status (after_step outcome s) = IN_PROGRESS
  ∨ status (after_step outcome s) = FAILED.
Proof. destruct outcome; [by left | by right]. Qed.

Lemma gather_steps tasks steps calls steps' outcomes calls' :
  gather tasks steps calls = (steps', outcomes, calls') →
  length steps' = length steps
  ∧ ∀ pos s, steps !! pos = Some s →
      ∃ s', steps' !! pos = Some s' ∧ same_static s s'
        ∧ (pos ∉ l_index <$> tasks → s' = s)
        ∧ (pos ∈ l_index <$> tasks →
           status s' = IN_PROGRESS ∨ status s' = FAILED).
Proof.
  revert steps calls steps' outcomes calls'.
  induction tasks as [|t tasks IH]; intros steps calls steps' outcomes calls' Hg;
    simpl in Hg.
  { injection Hg as <- <- <-. split; [done|]. intros pos s Hs. exists s.
    split_and!; [done | apply same_static_refl | done |].
    by intros ?%elem_of_nil. }
  destruct (steps !! l_index t) as [st|] eqn:Ht.
  - fold (after_step (l_agent t (task_data st (l_previous t))) st) in Hg.
    set (s1 := after_step _ st) in Hg.
    destruct (gather tasks (<[l_index t := s1]> steps) _)
      as [[steps2 outcomes2] calls2] eqn:Hrec.
    injection Hg as <- <- <-.
    destruct (IH _ _ _ _ _ Hrec) as [Hlen Hpt]. rewrite length_insert in Hlen.
    split; [done|]. intros pos s Hs.
    destruct (decide (pos = l_index t)) as [->|Hne].
    + assert (s = st) as -> by congruence.
      destruct (Hpt (l_index t) s1) as (s' & Hs' & Hst & Hout & Hin).
      { apply list_lookup_insert_eq. by eapply lookup_lt_Some. }
      exists s'. split_and!; [done | | |].
      * eapply same_static_trans; [apply after_step_static | done].
      * intros Hnot. exfalso. apply Hnot. simpl. by left.
      * intros _. destruct (decide (l_index t ∈ l_index <$> tasks)) as [Hd|Hd].
        -- auto.
        -- rewrite (Hout Hd). apply after_step_status.
    + destruct (Hpt pos s) as (s' & Hs' & Hst & Hout & Hin).
      { by rewrite list_lookup_insert_ne. }
      exists s'. split_and!; [done | done | |].
      * intros Hnot. apply Hout. intros Hd. apply Hnot. simpl. by right.
      * simpl. intros [?|Hd]%elem_of_cons; [done | auto].
  - destruct (IH _ _ _ _ _ Hg) as [Hlen Hpt]. split; [done|].
    intros pos s Hs. destruct (Hpt pos s Hs) as (s' & Hs' & Hst & Hout & Hin).
    exists s'. split_and!; [done | done | |].
    + intros Hnot. apply Hout. intros Hd. apply Hnot. simpl. by right.
    + simpl. intros [->|Hd]%elem_of_cons; [congruence | auto].
Qed.

(** The outcomes come back one per coroutine, in order, each being what the
    worker made of the payload of its step. *)
Lemma gather_outcomes tasks steps calls steps' outcomes calls' :
  gather tasks steps calls = (steps', outcomes, calls') →
  (∀ t, t ∈ tasks → is_Some (steps !! l_index t)) →
  Forall2 (λ t outcome, ∃ s, steps !! l_index t = Some s
             ∧ outcome = l_agent t (task_data s (l_previous t)))
    tasks outcomes.
Proof.
  revert steps calls steps' outcomes calls'.
  induction tasks as [|t tasks IH]; intros steps calls steps' outcomes calls' Hg Hv;
    simpl in Hg.
  { injection Hg as <- <- <-. constructor. }
  destruct (steps !! l_index t) as [st|] eqn:Ht.
  - fold (after_step (l_agent t (task_data st (l_previous t))) st) in Hg.
    set (s1 := after_step _ st) in Hg.
    destruct (gather tasks (<[l_index t := s1]> steps) _)
      as [[steps2 outcomes2] calls2] eqn:Hrec.
    injection Hg as <- <- <-. constructor; [by exists st|].
    eapply Forall2_impl.
    + eapply IH; [done|]. intros t' Hin.
      apply list_lookup_insert_is_Some. apply Hv. by right.
    + intros t' o (s & Hs & ->).
      destruct (decide (l_index t = l_index t')) as [Heq|Hne].
      * rewrite <- Heq, list_lookup_insert_eq in Hs
          by (by eapply lookup_lt_Some).
        injection Hs as <-. exists st. split; [congruence|].
        f_equal. apply task_data_static. apply after_step_static.
      * rewrite list_lookup_insert_ne in Hs by done. by exists s.
  - destruct (Hv t) as [? ?]; [by left | congruence].
Qed.

(** The worker invocations of a round: one per coroutine, on the step the
    coroutine was created for, with the payload [task_data] builds. *)
Lemma gather_calls tasks steps calls steps' outcomes calls' :
  gather tasks steps calls = (steps', outcomes, calls') →
  ∃ new, calls' = calls ++ new
    ∧ (call_index <$> new) `sublist_of` (l_index <$> tasks)
    ∧ ∀ c, c ∈ new →
        ∃ t s, t ∈ tasks ∧ steps !! l_index t = Some s
          ∧ c = mkCall (l_index t) (step_id s) (task_data s (l_previous t)).
Proof.
  revert steps calls steps' outcomes calls'.
  induction tasks as [|t tasks IH]; intros steps calls steps' outcomes calls' Hg;
    simpl in Hg.
  { injection Hg as <- <- <-. exists []. rewrite app_nil_r.
    split_and!; [done | done | by intros c ?%elem_of_nil]. }
  destruct (steps !! l_index t) as [st|] eqn:Ht.
  - fold (after_step (l_agent t (task_data st (l_previous t))) st) in Hg.
    set (s1 := after_step _ st) in Hg.
    destruct (gather tasks (<[l_index t := s1]> steps) _)
      as [[steps2 outcomes2] calls2] eqn:Hrec.
    injection Hg as <- <- <-.
    destruct (IH _ _ _ _ _ Hrec) as (new & -> & Hsub & Hc).
    exists (mkCall (l_index t) (step_id st) (task_data st (l_previous t)) :: new).
    split_and!.
    + by rewrite <- app_assoc.
    + simpl. by apply sublist_skip.
    + intros c [->|Hin]%elem_of_cons.
      { exists t, st. split_and!; [by left | done | done]. }
      destruct (Hc c Hin) as (t' & s & Hin' & Hs & ->).
      destruct (decide (l_index t = l_index t')) as [Heq|Hne].
      * rewrite <- Heq, list_lookup_insert_eq in Hs
          by (by eapply lookup_lt_Some).
        injection Hs as <-. exists t', st. split_and!; [by right | congruence |].
        destruct (after_step_static (l_agent t (task_data st (l_previous t))) st)
          as (Hid & _ & Htask & _).
        fold s1 in Hid, Htask. rewrite Hid. f_equal.
        by apply task_data_static.
      * rewrite list_lookup_insert_ne in Hs by done.
        exists t', s. split_and!; [by right | done | done].
  - destruct (IH _ _ _ _ _ Hg) as (new & -> & Hsub & Hc). exists new.
    split_and!; [done | by apply sublist_cons |].
    intros c Hin. destruct (Hc c Hin) as (t' & s & Hin' & Hs & ->).
    exists t', s. split_and!; [by right | done | done].
Qed.

(** ** Recording the outcomes *)

(** The step object after the outcome loop wrote to it. *)
Definition record_step (outcome : pyval + string) (s : WorkflowStep)
    : WorkflowStep :=
  match outcome with
  | inl r => set_completed r s
  | inr msg => set_failed msg s
  end.

(** One pass of the outcome loop, on the step object it indexes. *)
Definition record_one (st : LoopState) (p : nat * (pyval + string))
    : LoopState :=
  match ls_steps st !! p.1 with
  | None => st
  | Some s =>
      match p.2 with
      | inr msg =>
          {| ls_steps := <[p.1 := set_failed msg s]> (ls_steps st);
             ls_results := ls_results st;
             ls_completed := ls_completed st;
             ls_calls := ls_calls st |}
      | inl r =>
          {| ls_steps := <[p.1 := set_completed r s]> (ls_steps st);
             ls_results := <[step_id s := r]> (ls_results st);
             ls_completed := {[step_id s]} ∪ ls_completed st;
             ls_calls := ls_calls st |}
      end
  end.

(** Indexing [ready_steps] with the counter of [enumerate] pairs the outcomes
    with the ready steps from the front. *)
Lemma record_results_zip i outcomes ready st :
  record_results i outcomes ready st
  = foldl record_one st (zip (drop i ready) outcomes).
Proof.
  revert i st. induction outcomes as [|o outcomes IH]; intros i st; simpl.
  { by destruct (drop i ready). }
  destruct (ready !! i) as [pos|] eqn:Hi.
  - rewrite (drop_S _ _ _ Hi). simpl. by rewrite IH.
  - rewrite IH. apply lookup_ge_None in Hi.
    rewrite !drop_ge by lia. done.
Qed.

Lemma record_one_steps st p pos s :
  ls_steps st !! pos = Some s →
  ∃ s', ls_steps (record_one st p) !! pos = Some s'
    ∧ (pos ≠ p.1 → s' = s) ∧ (pos = p.1 → s' = record_step p.2 s).
Proof.
  intros Hs. unfold record_one.
  destruct (decide (pos = p.1)) as [->|Hne].
  - rewrite Hs. exists (record_step p.2 s). split_and!; [|done|done].
    destruct p.2; simpl; apply list_lookup_insert_eq; by eapply lookup_lt_Some.
  - exists s. split_and!; [|done|done].
    destruct (ls_steps st !! p.1); [|done].
    destruct p.2; simpl; by rewrite list_lookup_insert_ne.
Qed.

Lemma record_one_length st p :
  length (ls_steps (record_one st p)) = length (ls_steps st).
Proof.
  unfold record_one. destruct (ls_steps st !! p.1); [|done].
  destruct p.2; simpl; by rewrite length_insert.
Qed.

Lemma record_one_calls st p : ls_calls (record_one st p) = ls_calls st.
Proof.
  unfold record_one. destruct (ls_steps st !! p.1); [|done]. by destruct p.2.
Qed.

Lemma record_one_completed st p :
  ls_completed st ⊆ ls_completed (record_one st p).
Proof.
  unfold record_one. destruct (ls_steps st !! p.1); [|done].
  destruct p.2; simpl; set_solver.
Qed.

Lemma record_one_dom st p :
  dom (ls_results st) = ls_completed st →
  dom (ls_results (record_one st p)) = ls_completed (record_one st p).
Proof.
  intros Hd. unfold record_one. destruct (ls_steps st !! p.1); [|done].
  destruct p.2; simpl; [|done]. by rewrite dom_insert_L, Hd.
Qed.

Lemma record_step_static outcome s : same_static s (record_step outcome s).
Proof. by destruct outcome; repeat split. Qed.

Lemma record_step_status outcome s :
  status (record_step outcome s) = FAILED
  ∨ status (record_step outcome s) = COMPLETED.
Proof. destruct outcome; [by right | by left]. Qed.

Lemma record_fold_length ps st :
  length (ls_steps (foldl record_one st ps)) = length (ls_steps st).
Proof.
  revert st. induction ps as [|p ps IH]; intros st; simpl; [done|].
  by rewrite IH, record_one_length.
Qed.

Lemma record_fold_calls ps st :
  ls_calls (foldl record_one st ps) = ls_calls st.
Proof.
  revert st. induction ps as [|p ps IH]; intros st; simpl; [done|].
  by rewrite IH, record_one_calls.
Qed.

Lemma record_fold_completed ps st :
  ls_completed st ⊆ ls_completed (foldl record_one st ps).
Proof.
  revert st. induction ps as [|p ps IH]; intros st; simpl; [done|].
  etrans; [apply record_one_completed | apply IH].
Qed.

Lemma record_fold_dom ps st :
  dom (ls_results st) = ls_completed st →
  dom (ls_results (foldl record_one st ps))
  = ls_completed (foldl record_one st ps).
Proof.
  revert st. induction ps as [|p ps IH]; intros st Hd; simpl; [done|].
  by apply IH, record_one_dom.
Qed.

Lemma record_fold_steps ps st pos s :
  ls_steps st !! pos = Some s →
  ∃ s', ls_steps (foldl record_one st ps) !! pos = Some s'
    ∧ same_static s s'
    ∧ (pos ∉ ps.*1 → s' = s)
    ∧ (pos ∈ ps.*1 → status s' = FAILED ∨ status s' = COMPLETED).
Proof.
  revert st s. induction ps as [|p ps IH]; intros st s Hs; simpl.
  { exists s. split_and!; [done | apply same_static_refl | done |].
    by intros ?%elem_of_nil. }
  destruct (record_one_steps st p pos s Hs) as (s1 & Hs1 & Hne & Heq).
  destruct (IH _ _ Hs1) as (s' & Hs' & Hst & Hout & Hin).
  assert (same_static s s1) as Hst1.
  { destruct (decide (pos = p.1)) as [e|n].
    - rewrite (Heq e). apply record_step_static.
    - rewrite (Hne n). apply same_static_refl. }
  exists s'. split_and!; [done | by eapply same_static_trans | |].
  - intros Hnot. rewrite Hout by set_solver. apply Hne. set_solver.
  - intros Hin'. destruct (decide (pos ∈ ps.*1)) as [Hd|Hd]; [auto|].
    rewrite (Hout Hd). apply elem_of_cons in Hin' as [e|?]; [|done].
    rewrite (Heq e). apply record_step_status.
Qed.

(** With the ready positions pairwise distinct, every pair of the loop leaves
    its own mark. *)
Lemma record_fold_pair ps st pos outcome s :
  NoDup ps.*1 → (pos, outcome) ∈ ps → ls_steps st !! pos = Some s →
  ls_steps (foldl record_one st ps) !! pos = Some (record_step outcome s)
  ∧ ∀ r, outcome = inl r →
      step_id s ∈ ls_completed (foldl record_one st ps).
Proof.
  revert st s. induction ps as [|p ps IH]; intros st s Hnd Hin Hs; simpl.
  { by apply elem_of_nil in Hin. }
  simpl in Hnd. apply NoDup_cons in Hnd as [Hnotin Hnd].
  destruct (record_one_steps st p pos s Hs) as (s1 & Hs1 & Hne & Heq).
  apply elem_of_cons in Hin as [<-|Hin].
  - simpl in *. rewrite (Heq eq_refl) in Hs1.
    destruct (record_fold_steps ps _ _ _ Hs1) as (s' & Hs' & _ & Hout & _).
    rewrite (Hout Hnotin) in Hs'. split; [done|].
    intros r ->. apply (record_fold_completed ps).
    unfold record_one. simpl. rewrite Hs. simpl. set_solver.
  - assert (pos ≠ p.1) as Hp.
    { intros ->. apply Hnotin. apply list_elem_of_fmap.
      by exists (p.1, outcome). }
    rewrite (Hne Hp) in Hs1. by apply IH.
Qed.

(** An entry of [results] is written only together with a step object of
    that id being marked COMPLETED and given that result. *)
Lemma record_fold_new ps st x r :
  NoDup ps.*1 →
  ls_results (foldl record_one st ps) !! x = Some r →
  ls_results st !! x = Some r
  ∨ ∃ pos s', pos ∈ ps.*1
      ∧ ls_steps (foldl record_one st ps) !! pos = Some s'
      ∧ step_id s' = x ∧ status s' = COMPLETED ∧ result s' = Some r.
Proof.
  revert st. induction ps as [|p ps IH]; intros st Hnd Hx; simpl in *.
  { by left. }
  apply NoDup_cons in Hnd as [Hnotin Hnd].
  destruct (IH _ Hnd Hx) as [Hx1|(pos & s' & Hin & Hs' & Hid & Hst & Hres)].
  - unfold record_one in Hx1 |- *.
    destruct (ls_steps st !! p.1) as [s|] eqn:Hs; [|by left].
    destruct p.2 as [r0|msg] eqn:Hp2; simpl in Hx1; [|by left].
    destruct (decide (step_id s = x)) as [<-|Hne];
      [|rewrite lookup_insert_ne in Hx1 by done; by left].
    rewrite lookup_insert_eq in Hx1. injection Hx1 as ->.
    right. exists p.1, (set_completed r s).
    split_and!; [set_solver | | done | done | done].
    set (st1 := {| ls_steps := <[p.1:=set_completed r s]> (ls_steps st);
                   ls_results := _; ls_completed := _; ls_calls := _ |}).
    destruct (record_fold_steps ps st1 p.1 (set_completed r s))
      as (s' & Hs' & _ & Hout & _).
    { simpl. apply list_lookup_insert_eq. by eapply lookup_lt_Some. }
    by rewrite (Hout Hnotin) in Hs'.
  - right. exists pos, s'. split_and!; [set_solver | done..].
Qed.

(** ** One round *)

Lemma fst_zip_sublist {A B} (l : list A) (k : list B) :
  (zip l k).*1 `sublist_of` l.
Proof.
  revert k. induction l as [|x l IH]; intros [|y k]; simpl;
    [done | done | apply sublist_nil_l |].
  apply sublist_skip, IH.
Qed.

(** The phases of [run_round], named. *)
Lemma run_round_unfold agents ready st :
  ∃ steps1 tasks steps2 outcomes calls,
    launch agents (ls_results st) ready (ls_steps st) = (steps1, tasks)
    ∧ gather tasks steps1 (ls_calls st) = (steps2, outcomes, calls)
    ∧ run_round agents ready st
      = foldl record_one
          {| ls_steps := steps2; ls_results := ls_results st;
             ls_completed := ls_completed st; ls_calls := calls |}
          (zip ready outcomes).
Proof.
  unfold run_round.
  destruct (launch agents (ls_results st) ready (ls_steps st))
    as [steps1 tasks] eqn:Hl.
  destruct (gather tasks steps1 (ls_calls st)) as [[steps2 outcomes] calls] eqn:Hg.
  exists steps1, tasks, steps2, outcomes, calls.
  split_and!; [done | done |]. by rewrite record_results_zip.
Qed.

Lemma run_round_length agents ready st :
  length (ls_steps (run_round agents ready st)) = length (ls_steps st).
Proof.
  destruct (run_round_unfold agents ready st)
    as (steps1 & tasks & steps2 & outcomes & calls & Hl & Hg & ->).
  rewrite record_fold_length. simpl.
  destruct (gather_steps _ _ _ _ _ _ Hg) as [-> _].
  by destruct (launch_steps _ _ _ _ _ _ Hl) as [-> _].
Qed.

Lemma run_round_completed agents ready st :
  ls_completed st ⊆ ls_completed (run_round agents ready st).
Proof.
  destruct (run_round_unfold agents ready st)
    as (steps1 & tasks & steps2 & outcomes & calls & Hl & Hg & ->).
  apply (record_fold_completed (zip ready outcomes)
           {| ls_steps := steps2; ls_results := ls_results st;
              ls_completed := ls_completed st; ls_calls := calls |}).
Qed.

Lemma run_round_dom agents ready st :
  dom (ls_results st) = ls_completed st →
  dom (ls_results (run_round agents ready st))
  = ls_completed (run_round agents ready st).
Proof.
  intros Hd.
  destruct (run_round_unfold agents ready st)
    as (steps1 & tasks & steps2 & outcomes & calls & Hl & Hg & ->).
  by apply record_fold_dom.
Qed.

(** What a round does to each step object: nothing outside the ready set,
    and no ready step is PENDING afterwards. *)
Lemma run_round_steps agents ready st pos s :
  ls_steps st !! pos = Some s →
  ∃ s', ls_steps (run_round agents ready st) !! pos = Some s'
    ∧ same_static s s'
    ∧ (pos ∉ ready → s' = s)
    ∧ (pos ∈ ready → status s' ≠ PENDING).
Proof.
  intros Hs.
  destruct (run_round_unfold agents ready st)
    as (steps1 & tasks & steps2 & outcomes & calls & Hl & Hg & ->).
  destruct (launch_steps _ _ _ _ _ _ Hl) as [_ Hl1].
  destruct (launch_tasks _ _ _ _ _ _ Hl) as (Hsub & Ht & Hcov).
  destruct (gather_steps _ _ _ _ _ _ Hg) as [_ Hg1].
  destruct (Hl1 pos s Hs) as (s1 & Hs1 & Hor1 & Hf1).
  destruct (Hg1 pos s1 Hs1) as (s2 & Hs2 & Hst2 & Hout2 & Hin2).
  set (st2 := {| ls_steps := steps2; ls_results := ls_results st;
                 ls_completed := ls_completed st; ls_calls := calls |}).
  destruct (record_fold_steps (zip ready outcomes) st2 pos s2 Hs2)
    as (s3 & Hs3 & Hst3 & Hout3 & Hin3).
  assert (same_static s s1) as Hst1.
  { destruct Hor1 as [->|(_ & _ & ->)];
      [apply same_static_refl | by repeat split]. }
  exists s3. split_and!; [done | | |].
  - eapply same_static_trans; [|done]. by eapply same_static_trans.
  - intros Hnot. rewrite Hout3, Hout2.
    + destruct Hor1 as [->|(? & _)]; done.
    + intros Hin. apply Hnot. by eapply elem_of_sublist.
    + intros Hin. apply Hnot.
      eapply elem_of_sublist; [done | apply fst_zip_sublist].
  - intros Hin Hp.
    destruct (decide (pos ∈ (zip ready outcomes).*1)) as [Hz|Hz].
    { destruct (Hin3 Hz); congruence. }
    rewrite (Hout3 Hz) in Hp.
    destruct (decide (pos ∈ l_index <$> tasks)) as [Hd|Hd].
    { destruct (Hin2 Hd); congruence. }
    rewrite (Hout2 Hd) in Hp.
    destruct (agents !! agent_name s) as [agent|] eqn:Hag.
    + apply Hd. eapply Hcov; [done | done | by rewrite Hag].
    + rewrite (Hf1 Hin eq_refl) in Hp. done.
Qed.

Lemma run_round_new agents ready st x r :
  NoDup ready →
  ls_results (run_round agents ready st) !! x = Some r →
  ls_results st !! x = Some r
  ∨ ∃ pos s', pos ∈ ready
      ∧ ls_steps (run_round agents ready st) !! pos = Some s'
      ∧ step_id s' = x ∧ status s' = COMPLETED ∧ result s' = Some r.
Proof.
  intros Hnd.
  destruct (run_round_unfold agents ready st)
    as (steps1 & tasks & steps2 & outcomes & calls & Hl & Hg & ->).
  intros Hx. apply record_fold_new in Hx.
  - destruct Hx as [?|(pos & s' & Hin & ?)]; [by left|right].
    exists pos, s'. split; [|done].
    eapply elem_of_sublist; [done | apply fst_zip_sublist].
  - eapply sublist_NoDup; [done | apply fst_zip_sublist].
Qed.

(** The worker invocations of a round. *)
Lemma run_round_calls agents ready st :
  ∃ new, ls_calls (run_round agents ready st) = ls_calls st ++ new
    ∧ (call_index <$> new) `sublist_of` ready
    ∧ ∀ c, c ∈ new →
        ∃ s agent, ls_steps st !! call_index c = Some s
          ∧ agents !! agent_name s = Some agent
          ∧ call_step_id c = step_id s
          ∧ call_payload c
            = task_data s (previous_results (ls_results st) s).
Proof.
  destruct (run_round_unfold agents ready st)
    as (steps1 & tasks & steps2 & outcomes & calls & Hl & Hg & ->).
  rewrite record_fold_calls. simpl.
  destruct (launch_tasks _ _ _ _ _ _ Hl) as (Hsub & Ht & Hcov).
  destruct (gather_calls _ _ _ _ _ _ Hg) as (new & -> & Hsubc & Hc).
  exists new. split_and!; [done | by etrans |].
  intros c Hin. destruct (Hc c Hin) as (t & s1 & Hint & Hs1 & ->).
  destruct (Ht t Hint) as (s & Hs & Hs' & Hag & Hprev).
  assert (s1 = s) as -> by congruence.
  exists s, (l_agent t). simpl. by rewrite Hprev.
Qed.

(** ** The loop *)

Definition pending_count (steps : list WorkflowStep) : nat :=
  length (filter (λ s, status s = PENDING) steps).

(** What holds of the local state whenever the loop condition is tested:
    an entry of [results] is the result of a step object of that id marked
    COMPLETED, and the keys of [results] are the ids in [completed_steps]. *)
Definition loop_inv (st : LoopState) : Prop :=
  (∀ x r, ls_results st !! x = Some r →
     ∃ pos s, ls_steps st !! pos = Some s ∧ step_id s = x
       ∧ status s = COMPLETED ∧ result s = Some r)
  ∧ dom (ls_results st) = ls_completed st.

(** The states in which the loop condition is tested during a run. *)
Inductive reaches (agents : gmap string Agent) : LoopState → LoopState → Prop :=
  | reaches_here st : reaches agents st st
  | reaches_round st st' i ready :
      size (ls_completed st) < length (ls_steps st) →
      ready_steps (ls_steps st) (ls_completed st) = i :: ready →
      reaches agents (run_round agents (i :: ready) st) st' →
      reaches agents st st'.

Lemma pending_count_le l l' :
  length l' = length l →
  (∀ pos s', l' !! pos = Some s' → status s' = PENDING →
     ∃ s, l !! pos = Some s ∧ status s = PENDING) →
  pending_count l' ≤ pending_count l.
Proof.
  unfold pending_count. revert l'.
  induction l as [|s l IH]; intros [|s' l'] Hlen Hpt; simpl in *; try done.
  rewrite !filter_cons.
  assert (length (filter (λ s, status s = PENDING) l')
          ≤ length (filter (λ s, status s = PENDING) l)) as Hrec.
  { apply IH; [lia|]. intros pos x Hx. apply (Hpt (S pos) x Hx). }
  destruct (decide (status s' = PENDING)) as [Hp'|Hp']; simpl.
  - destruct (Hpt 0 s' eq_refl Hp') as (x & [= <-] & Hp).
    rewrite decide_True by done. simpl. lia.
  - destruct (decide (status s = PENDING)); simpl; lia.
Qed.

Lemma pending_count_lt l l' pos s s' :
  length l' = length l →
  (∀ pos s', l' !! pos = Some s' → status s' = PENDING →
     ∃ s, l !! pos = Some s ∧ status s = PENDING) →
  l !! pos = Some s → l' !! pos = Some s' →
  status s = PENDING → status s' ≠ PENDING →
  pending_count l' < pending_count l.
Proof.
  unfold pending_count. revert l' pos.
  induction l as [|s0 l IH]; intros [|s0' l'] pos Hlen Hpt Hs Hs' Hp Hnp;
    simpl in *; try done.
  rewrite !filter_cons. destruct pos as [|pos]; simpl in *.
  - injection Hs as ->. injection Hs' as ->.
    destruct (decide (status s' = PENDING)); [done|].
    destruct (decide (status s = PENDING)); [|done]. simpl.
    assert (pending_count l' ≤ pending_count l) as Hle;
      [|unfold pending_count in Hle; lia].
    apply pending_count_le; [lia|]. intros q x Hx. apply (Hpt (S q) x Hx).
  - assert (length (filter (λ s, status s = PENDING) l')
            < length (filter (λ s, status s = PENDING) l)) as Hrec.
    { eapply (IH l' pos); try done; [lia|].
      intros q x Hx. apply (Hpt (S q) x Hx). }
    destruct (decide (status s0' = PENDING)) as [Hp'|Hp']; simpl.
    + destruct (Hpt 0 s0' eq_refl Hp') as (x & [= <-] & Hp0).
      rewrite decide_True by done. simpl. lia.
    + destruct (decide (status s0 = PENDING)); simpl; lia.
Qed.

Lemma ready_is_pending steps completed pos s :
  pos ∈ ready_steps steps completed → steps !! pos = Some s →
  status s = PENDING.
Proof.
  intros (s' & Hs' & Hr)%elem_of_ready_steps Hs.
  assert (s' = s) as -> by congruence. by apply is_ready_spec in Hr as [? _].
Qed.

(** A step object that is still PENDING after a round was PENDING before
    it and was not written. *)
Lemma run_round_pending agents st pos s' :
  let ready := ready_steps (ls_steps st) (ls_completed st) in
  ls_steps (run_round agents ready st) !! pos = Some s' →
  status s' = PENDING →
  ls_steps st !! pos = Some s' ∧ pos ∉ ready.
Proof.
  intros ready Hs' Hp.
  assert (is_Some (ls_steps st !! pos)) as [s Hs].
  { apply lookup_lt_is_Some. apply lookup_lt_Some in Hs'.
    by rewrite run_round_length in Hs'. }
  destruct (run_round_steps agents ready st pos s Hs)
    as (s1 & Hs1 & _ & Hout & Hin).
  assert (s1 = s') as -> by congruence.
  destruct (decide (pos ∈ ready)) as [Hd|Hd]; [by destruct (Hin Hd)|].
  by rewrite (Hout Hd).
Qed.

(** Every round takes at least one step out of PENDING. *)
Lemma run_round_progress agents st i ready :
  ready_steps (ls_steps st) (ls_completed st) = i :: ready →
  pending_count (ls_steps (run_round agents (i :: ready) st))
  < pending_count (ls_steps st).
Proof.
  intros Hr.
  assert (i ∈ ready_steps (ls_steps st) (ls_completed st)) as Hin.
  { rewrite Hr. by left. }
  pose proof Hin as (s & Hs & Hrd)%elem_of_ready_steps.
  destruct (run_round_steps agents (i :: ready) st i s Hs)
    as (s' & Hs' & _ & _ & Hnp).
  eapply (pending_count_lt _ _ i s s'); try done.
  - apply run_round_length.
  - intros pos x Hx Hp. exists x. split; [|done].
    rewrite <- Hr in Hx. by apply run_round_pending in Hx as [? _].
  - by eapply ready_is_pending.
  - apply Hnp. by left.
Qed.

Lemma run_round_inv agents st :
  let ready := ready_steps (ls_steps st) (ls_completed st) in
  loop_inv st → loop_inv (run_round agents ready st).
Proof.
  intros ready [Hc Hd]. split; [|by apply run_round_dom].
  intros x r Hx. apply run_round_new in Hx; [|apply NoDup_ready_steps].
  destruct Hx as [Hx|(pos & s' & _ & ? & ? & ? & ?)]; [|by exists pos, s'].
  destruct (Hc x r Hx) as (pos & s & Hs & Hid & Hst & Hres).
  destruct (run_round_steps agents ready st pos s Hs) as (s' & Hs' & _ & Hout & _).
  exists pos, s. rewrite <- (Hout) at 1; [done|].
  intros Hin. pose proof (ready_is_pending _ _ _ _ Hin Hs). congruence.
Qed.

Lemma initial_loop_inv steps : loop_inv (initial_loop steps).
Proof.
  split; simpl; [|by rewrite dom_empty_L].
  intros x r Hx. by rewrite lookup_empty in Hx.
Qed.

Lemma loop_inv_completed st x :
  loop_inv st → x ∈ ls_completed st →
  ∃ pos s r, ls_steps st !! pos = Some s ∧ step_id s = x
    ∧ status s = COMPLETED ∧ result s = Some r
    ∧ ls_results st !! x = Some r.
Proof.
  intros [Hc Hd] Hx. rewrite <- Hd in Hx. apply elem_of_dom in Hx as [r Hr].
  destruct (Hc x r Hr) as (pos & s & ? & ? & ? & ?). by exists pos, s, r.
Qed.

(** Invariants of the loop hold in every state a run reaches. *)
Lemma reaches_invariant agents (P : LoopState → Prop) st st' :
  (∀ st i ready,
     P st → size (ls_completed st) < length (ls_steps st) →
     ready_steps (ls_steps st) (ls_completed st) = i :: ready →
     P (run_round agents (i :: ready) st)) →
  reaches agents st st' → P st → P st'.
Proof.
  intros Hstep. induction 1 as [|st st' i ready Hlt Hr _ IH]; [done|].
  intros HP. apply IH. by apply Hstep.
Qed.

Lemma reaches_inv agents st st' :
  reaches agents st st' → loop_inv st → loop_inv st'.
Proof.
  apply reaches_invariant. intros st0 i ready Hinv _ Hr.
  rewrite <- Hr. by apply run_round_inv.
Qed.

Lemma reaches_trans agents st1 st2 st3 :
  reaches agents st1 st2 → reaches agents st2 st3 → reaches agents st1 st3.
Proof.
  induction 1 as [|st st' i ready Hlt Hr _ IH]; [done|].
  intros H3. eapply reaches_round; eauto.
Qed.

(** The loop from a state reached in a run continues as the run does. *)
Lemma reaches_loop agents st st' :
  reaches agents st st' →
  ∃ k, pending_count (ls_steps st') + k ≤ pending_count (ls_steps st)
    ∧ ∀ fuel, execute_steps_loop (k + fuel) agents st
              = execute_steps_loop fuel agents st'.
Proof.
  induction 1 as [|st st' i ready Hlt Hr _ IH].
  { exists 0. split; [lia | done]. }
  destruct IH as (k & Hk & Hrun). exists (S k). split.
  - pose proof (run_round_progress agents st i ready Hr). lia.
  - intros fuel. simpl. rewrite bool_decide_eq_true_2 by done.
    rewrite Hr. apply Hrun.
Qed.

Lemma pending_count_length steps : pending_count steps ≤ length steps.
Proof. apply length_filter. Qed.

Lemma size_list_to_set_le (l : list string) :
  size (list_to_set l : gset string) ≤ length l.
Proof.
  induction l as [|x l IH].
  - by rewrite list_to_set_nil, size_empty.
  - rewrite list_to_set_cons, size_union_alt, size_singleton. simpl.
    apply le_n_S. etrans; [|exact IH]. apply subseteq_size. set_solver.
Qed.

(** While a step is PENDING the loop condition holds. *)
Lemma pending_guard st :
  loop_inv st → has_pending (ls_steps st) = true →
  size (ls_completed st) < length (ls_steps st).
Proof.
  intros Hinv (sp & Hin & Hp)%has_pending_spec.
  set (done_steps := filter (λ s, status s = COMPLETED) (ls_steps st)).
  assert (ls_completed st ⊆ list_to_set (step_id <$> done_steps)) as Hsub.
  { intros x Hx.
    destruct (loop_inv_completed st x Hinv Hx) as (pos & s & r & Hs & Hid & Hst & _).
    apply elem_of_list_to_set, list_elem_of_fmap. exists s. split; [done|].
    apply list_elem_of_filter. split; [done|]. by eapply list_elem_of_lookup_2. }
  apply subseteq_size in Hsub.
  pose proof (size_list_to_set_le (step_id <$> done_steps)) as Hle.
  rewrite length_fmap in Hle.
  assert (length done_steps < length (ls_steps st)); [|lia].
  eapply length_filter_lt; [done|]. congruence.
Qed.

Lemma no_pending_ready steps completed :
  has_pending steps = false → ready_steps steps completed = [].
Proof.
  intros Hnp. destruct (ready_steps steps completed) as [|i ready] eqn:Hr; [done|].
  assert (i ∈ ready_steps steps completed) as Hin by (rewrite Hr; by left).
  apply elem_of_ready_steps in Hin as (s & Hs & [Hp _]%is_ready_spec).
  assert (has_pending steps = true); [|congruence].
  apply has_pending_spec. exists s. split; [|done].
  by eapply list_elem_of_lookup_2.
Qed.

(** With enough fuel the loop ends in a state the run reaches: it raises
    when that state has an empty ready set and a PENDING step, and returns
    when no step is PENDING. *)
Lemma loop_outcome agents fuel st :
  pending_count (ls_steps st) < fuel → loop_inv st →
  ∃ st', reaches agents st st' ∧ loop_inv st'
    ∧ ready_steps (ls_steps st') (ls_completed st') = []
    ∧ ((has_pending (ls_steps st') = true
        ∧ execute_steps_loop fuel agents st = Raised st' stall_message)
       ∨ (has_pending (ls_steps st') = false
          ∧ execute_steps_loop fuel agents st = Returned st')).
Proof.
  revert st. induction fuel as [|fuel IH]; intros st Hlt Hinv; [lia|]. simpl.
  destruct (ready_steps (ls_steps st) (ls_completed st)) as [|i ready] eqn:Hr.
  - exists st. split_and!; [constructor | done | done |].
    destruct (has_pending (ls_steps st)) eqn:Hp.
    + left. split; [done|].
      by rewrite bool_decide_eq_true_2 by by apply pending_guard.
    + right. split; [done|]. by case_bool_decide.
  - assert (has_pending (ls_steps st) = true) as Hp.
    { destruct (has_pending (ls_steps st)) eqn:Hp; [done|].
      by rewrite (no_pending_ready _ _ Hp) in Hr. }
    rewrite bool_decide_eq_true_2 by by apply pending_guard.
    destruct (IH (run_round agents (i :: ready) st)) as (st' & Hre & Hrest).
    + pose proof (run_round_progress agents st i ready Hr). lia.
    + rewrite <- Hr. by apply run_round_inv.
    + exists st'. split; [|done].
      eapply reaches_round; [by apply pending_guard | done | done].
Qed.

(** [_execute_steps] continues from any state its run reaches. *)
Lemma run_from_reached agents steps st :
  reaches agents (initial_loop steps) st →
  ∃ fuel, pending_count (ls_steps st) < fuel
    ∧ _execute_steps steps agents = execute_steps_loop fuel agents st.
Proof.
  intros (k & Hk & Hrun)%reaches_loop. simpl in Hk.
  pose proof (pending_count_length steps).
  exists (S (length steps) - k). split; [lia|].
  unfold _execute_steps. rewrite <- Hrun. f_equal. lia.
Qed.

(** The end of the run, seen from a state it reaches. *)
Lemma execute_steps_outcome agents steps st :
  reaches agents (initial_loop steps) st →
  ∃ st', reaches agents st st' ∧ loop_inv st'
    ∧ ready_steps (ls_steps st') (ls_completed st') = []
    ∧ ((has_pending (ls_steps st') = true
        ∧ _execute_steps steps agents = Raised st' stall_message)
       ∨ (has_pending (ls_steps st') = false
          ∧ _execute_steps steps agents = Returned st')).
Proof.
  intros Hre. destruct (run_from_reached _ _ _ Hre) as (fuel & Hf & ->).
  apply loop_outcome; [done|].
  eapply reaches_inv; [done | apply initial_loop_inv].
Qed.

(** Across rounds the static fields of a step object stay, and a step
    object that is not PENDING is not written again. *)
Lemma reaches_steps agents st st' :
  reaches agents st st' →
  length (ls_steps st') = length (ls_steps st)
  ∧ ∀ pos s, ls_steps st !! pos = Some s →
      ∃ s', ls_steps st' !! pos = Some s' ∧ same_static s s'
        ∧ (status s ≠ PENDING → s' = s).
Proof.
  induction 1 as [st|st st' i ready Hlt Hr _ [IHlen IH]].
  { split; [done|]. intros pos s Hs. exists s.
    split_and!; [done | apply same_static_refl | done]. }
  split; [by rewrite IHlen, run_round_length|].
  intros pos s Hs.
  destruct (run_round_steps agents (i :: ready) st pos s Hs)
    as (s1 & Hs1 & Hst1 & Hout & Hin).
  destruct (IH pos s1 Hs1) as (s' & Hs' & Hst' & Hfz).
  exists s'. split_and!; [done | by eapply same_static_trans |].
  intros Hnp. assert (s1 = s) as ->.
  { apply Hout. rewrite <- Hr. intros Hd.
    by pose proof (ready_is_pending _ _ _ _ Hd Hs). }
  by apply Hfz.
Qed.

Lemma reaches_ids agents st st' :
  reaches agents st st' →
  step_id <$> ls_steps st' = step_id <$> ls_steps st.
Proof.
  intros [Hlen Hpt]%reaches_steps. apply list_eq. intros pos.
  rewrite !list_lookup_fmap.
  destruct (ls_steps st !! pos) as [s|] eqn:Hs.
  - destruct (Hpt pos s Hs) as (s' & -> & (Hid & _) & _). simpl. by rewrite Hid.
  - apply lookup_ge_None in Hs. rewrite <- Hlen in Hs.
    apply lookup_ge_None in Hs. by rewrite Hs.
Qed.

(** ** Executing a workflow *)

(** The engine after an execution that returned, and after one that
    raised. *)
Definition engine_completed (e : WorkflowEngine) (workflow_id : string)
    (st : LoopState) : WorkflowEngine :=
  {| workflows := <[workflow_id := ls_steps st]> (workflows e);
     active_workflows :=
       <[workflow_id := mkActive "completed" None]> (active_workflows e);
     workflow_history :=
       workflow_history e ++
       [mkHistory workflow_id "completed" (Some (ls_results st)) None] |}.

Definition engine_failed (e : WorkflowEngine) (workflow_id : string)
    (st : LoopState) (msg : string) : WorkflowEngine :=
  {| workflows := <[workflow_id := ls_steps st]> (workflows e);
     active_workflows :=
       <[workflow_id := mkActive "failed" (Some msg)]> (active_workflows e);
     workflow_history :=
       workflow_history e ++ [mkHistory workflow_id "failed" None (Some msg)] |}.

Lemma execute_workflow_returned e workflow_id agents steps st :
  workflows e !! workflow_id = Some steps →
  _execute_steps steps agents = Returned st →
  execute_workflow e workflow_id agents
  = (engine_completed e workflow_id st,
     Ok (mkResult workflow_id "completed" (ls_results st)), ls_calls st).
Proof. intros Hw Hr. unfold execute_workflow. by rewrite Hw, Hr. Qed.

Lemma execute_workflow_raised e workflow_id agents steps st msg :
  workflows e !! workflow_id = Some steps →
  _execute_steps steps agents = Raised st msg →
  execute_workflow e workflow_id agents
  = (engine_failed e workflow_id st msg, Exn msg, ls_calls st).
Proof. intros Hw Hr. unfold execute_workflow. by rewrite Hw, Hr. Qed.

(** An execution of a defined workflow ends in a state its run reaches,
    failed when a step is left PENDING and completed otherwise. *)
Lemma execute_workflow_outcome e workflow_id agents steps st :
  workflows e !! workflow_id = Some steps →
  reaches agents (initial_loop steps) st →
  ∃ st', reaches agents st st' ∧ loop_inv st'
    ∧ ready_steps (ls_steps st') (ls_completed st') = []
    ∧ ((has_pending (ls_steps st') = true
        ∧ execute_workflow e workflow_id agents
          = (engine_failed e workflow_id st' stall_message,
             Exn stall_message, ls_calls st'))
       ∨ (has_pending (ls_steps st') = false
          ∧ execute_workflow e workflow_id agents
            = (engine_completed e workflow_id st',
               Ok (mkResult workflow_id "completed" (ls_results st')),
               ls_calls st'))).
Proof.
  intros Hw Hre.
  destruct (execute_steps_outcome agents steps st Hre)
    as (st' & Hre' & Hinv & Hready & [[Hp Hrun]|[Hp Hrun]]);
    exists st'; split_and!; try done.
  - left. split; [done|]. by eapply execute_workflow_raised.
  - right. split; [done|]. by eapply execute_workflow_returned.
Qed.

(** No execution runs out of passes. *)
Lemma execute_workflow_ends e workflow_id agents :
  (execute_workflow e workflow_id agents).1.2 ≠ Diverged.
Proof.
  destruct (workflows e !! workflow_id) as [steps|] eqn:Hw.
  - destruct (execute_workflow_outcome e workflow_id agents steps _ Hw
                (reaches_here _ _))
      as (st' & _ & _ & _ & [[_ ->]|[_ ->]]); done.
  - unfold execute_workflow. by rewrite Hw.
Qed.

(** A PENDING step with a dependency on a FAILED step is not written by
    any later round. *)
Lemma blocked_stays agents st st' pos s q sd :
  reaches agents st st' → loop_inv st →
  NoDup (step_id <$> ls_steps st) →
  ls_steps st !! pos = Some s → status s = PENDING →
  ls_steps st !! q = Some sd → status sd = FAILED →
  step_id sd ∈ dependencies s →
  ls_steps st' !! pos = Some s.
Proof.
  induction 1 as [st|st st' i ready Hlt Hr Hre IH];
    intros Hinv Hnd Hs Hp Hsd Hf Hdep; [done|].
  assert (pos ∉ i :: ready) as Hnotin.
  { rewrite <- Hr. intros (s0 & Hs0 & [_ Hall]%is_ready_spec)%elem_of_ready_steps.
    assert (s0 = s) as -> by congruence.
    destruct (loop_inv_completed st _ Hinv (Hall _ Hdep))
      as (q' & s1 & r & Hs1 & Hid & Hst & _).
    assert (q' = q) as ->.
    { eapply NoDup_lookup; [exact Hnd | |];
        rewrite list_lookup_fmap; [by rewrite Hs1 | by rewrite Hsd; simpl; rewrite Hid]. }
    congruence. }
  assert (q ∉ i :: ready) as Hqnotin.
  { rewrite <- Hr. intros Hd.
    pose proof (ready_is_pending _ _ _ _ Hd Hsd). congruence. }
  destruct (run_round_steps agents (i :: ready) st pos s Hs)
    as (s' & Hs' & _ & Hout & _).
  destruct (run_round_steps agents (i :: ready) st q sd Hsd)
    as (sd' & Hsd' & _ & Hqout & _).
  rewrite (Hout Hnotin) in Hs'. rewrite (Hqout Hqnotin) in Hsd'.
  eapply IH; try done.
  - rewrite <- Hr. by apply run_round_inv.
  - erewrite reaches_ids; [exact Hnd|].
    eapply reaches_round; [done | done | constructor].
Qed.

(** Whenever an execution comes to an empty ready set while a step
    is still PENDING (a dependency cycle, a dependency naming no step, or a
    dependency that FAILED), [execute_workflow] raises the stall error, the
    workflow is recorded as failed, and the loop does not run on: no
    execution runs out of passes.  With distinct step ids, a PENDING step
    that depends on a FAILED step is PENDING in every later state of the
    execution and still PENDING when the workflow has failed. *)
Theorem stall_fails_workflow e workflow_id agents steps :
  workflows e !! workflow_id = Some steps →
  (execute_workflow e workflow_id agents).1.2 ≠ Diverged
  ∧ ∀ st, reaches agents (initial_loop steps) st →
      (ready_steps (ls_steps st) (ls_completed st) = [] →
       has_pending (ls_steps st) = true →
       ∃ e', execute_workflow e workflow_id agents
             = (e', Exn stall_message, ls_calls st)
         ∧ workflows e' !! workflow_id = Some (ls_steps st)
         ∧ active_workflows e' !! workflow_id
           = Some (mkActive "failed" (Some stall_message))
         ∧ last (workflow_history e')
           = Some (mkHistory workflow_id "failed" None (Some stall_message)))
      ∧ (NoDup (step_id <$> steps) →
         ∀ pos s sd,
           ls_steps st !! pos = Some s → status s = PENDING →
           sd ∈ ls_steps st → status sd = FAILED →
           step_id sd ∈ dependencies s →
           (∀ st', reaches agents st st' → ls_steps st' !! pos = Some s)
           ∧ ∃ e' final calls,
               execute_workflow e workflow_id agents
               = (e', Exn stall_message, calls)
               ∧ workflows e' !! workflow_id = Some final
               ∧ final !! pos = Some s
               ∧ active_workflows e' !! workflow_id
                 = Some (mkActive "failed" (Some stall_message))).
Proof.
  intros Hw. split; [apply execute_workflow_ends|].
  intros st Hre.
  assert (loop_inv st) as Hinv
    by (eapply reaches_inv; [done | apply initial_loop_inv]).
  split.
  - intros Hready Hp.
    destruct (run_from_reached _ _ _ Hre) as (fuel & Hf & Hrun).
    destruct fuel as [|fuel]; [lia|]. simpl in Hrun.
    rewrite bool_decide_eq_true_2, Hready, Hp in Hrun by by apply pending_guard.
    rewrite (execute_workflow_raised _ _ _ _ _ _ Hw Hrun).
    eexists. split; [done|]. simpl.
    rewrite !lookup_insert_eq, last_snoc. done.
  - intros Hnd pos s sd Hs Hp [q Hsd]%list_elem_of_lookup Hf Hdep.
    assert (NoDup (step_id <$> ls_steps st)) as Hnd'
      by (by rewrite (reaches_ids _ _ _ Hre)).
    assert (∀ st', reaches agents st st' → ls_steps st' !! pos = Some s) as Hstay.
    { intros st' Hre'. by eapply blocked_stays. }
    split; [done|].
    destruct (execute_workflow_outcome e workflow_id agents steps st Hw Hre)
      as (st' & Hre' & _ & _ & [[_ ->]|[Hnp _]]).
    + exists (engine_failed e workflow_id st' stall_message), (ls_steps st'),
        (ls_calls st').
      split_and!; [done | | by apply Hstay |]; simpl; by rewrite lookup_insert_eq.
    + assert (has_pending (ls_steps st') = true); [|congruence].
      apply has_pending_spec. exists s. split; [|done].
      eapply list_elem_of_lookup_2. by apply Hstay.
Qed.

(** C6. Executing an id that names no workflow raises the not-found error
    and leaves the engine as it was, with no worker invoked; defining a
    workflow always returns its id, and the definition stored under the id
    is the new one whatever was stored there before, with every other
    definition, the active records and the history untouched. *)
Theorem unknown_workflow_and_overwrite e workflow_id :
  (∀ agents, workflows e !! workflow_id = None →
     execute_workflow e workflow_id agents
     = (e, Exn ("Workflow " +:+ workflow_id +:+ " not found"), []))
  ∧ ∀ configs,
      (create_workflow e workflow_id configs).2 = workflow_id
      ∧ workflows (create_workflow e workflow_id configs).1 !! workflow_id
        = Some (new_step <$> configs)
      ∧ (∀ other, other ≠ workflow_id →
           workflows (create_workflow e workflow_id configs).1 !! other
           = workflows e !! other)
      ∧ active_workflows (create_workflow e workflow_id configs).1
        = active_workflows e
      ∧ workflow_history (create_workflow e workflow_id configs).1
        = workflow_history e.
Proof.
  split.
  - intros agents Hw. unfold execute_workflow. by rewrite Hw.
  - intros configs. simpl. split_and!; try done.
    + by rewrite lookup_insert_eq.
    + intros other Hne. by rewrite lookup_insert_ne.
Qed.

(** ** Worker invocations *)

Lemma reaches_pending agents st st' pos s' :
  reaches agents st st' →
  ls_steps st' !! pos = Some s' → status s' = PENDING →
  ls_steps st !! pos = Some s'.
Proof.
  induction 1 as [st|st st' i ready Hlt Hr _ IH]; [done|].
  intros Hs' Hp. specialize (IH Hs' Hp). rewrite <- Hr in IH.
  by apply run_round_pending in IH as [? _].
Qed.

(** The invocations a run adds are on pairwise distinct step objects, each
    PENDING before and not PENDING after. *)
Lemma reaches_calls agents st st' :
  reaches agents st st' →
  ∃ new, ls_calls st' = ls_calls st ++ new
    ∧ NoDup (call_index <$> new)
    ∧ ∀ c, c ∈ new →
        (∃ s, ls_steps st !! call_index c = Some s ∧ status s = PENDING)
        ∧ (∃ s', ls_steps st' !! call_index c = Some s' ∧ status s' ≠ PENDING).
Proof.
  induction 1 as [st|st st' i ready Hlt Hr Hre IH].
  { exists []. rewrite app_nil_r. split_and!; [done | constructor |].
    by intros c ?%elem_of_nil. }
  destruct IH as (new2 & Hc2 & Hnd2 & Hnew2).
  destruct (run_round_calls agents (i :: ready) st) as (new1 & Hc1 & Hsub1 & Hnew1).
  assert (∀ c, c ∈ new1 →
            ∃ s s1, ls_steps st !! call_index c = Some s ∧ status s = PENDING
              ∧ ls_steps (run_round agents (i :: ready) st) !! call_index c
                = Some s1 ∧ status s1 ≠ PENDING) as Hfacts1.
  { intros c Hin. destruct (Hnew1 c Hin) as (s & agent & Hs & _).
    assert (call_index c ∈ i :: ready) as Hrd.
    { eapply elem_of_sublist; [|done]. by apply list_elem_of_fmap_2. }
    destruct (run_round_steps agents (i :: ready) st _ s Hs)
      as (s1 & Hs1 & _ & _ & Hnp).
    exists s, s1. split_and!; [done | | done | by apply Hnp].
    eapply ready_is_pending; [|done]. by rewrite Hr. }
  exists (new1 ++ new2). split_and!.
  - by rewrite Hc2, Hc1, <- app_assoc.
  - rewrite fmap_app. apply NoDup_app. split_and!; [|intros x Hx1 Hx2|done].
    + eapply sublist_NoDup; [|done]. rewrite <- Hr. apply NoDup_ready_steps.
    + apply list_elem_of_fmap in Hx1 as (c1 & -> & Hin1).
      apply list_elem_of_fmap in Hx2 as (c2 & Heq & Hin2).
      destruct (Hfacts1 c1 Hin1) as (_ & s1 & _ & _ & Hs1 & Hnp1).
      destruct (Hnew2 c2 Hin2) as [(s2 & Hs2 & Hp2) _].
      rewrite <- Heq in Hs2. congruence.
  - intros c [Hin|Hin]%elem_of_app.
    + destruct (Hfacts1 c Hin) as (s & s1 & Hs & Hp & Hs1 & Hnp1).
      split; [by exists s|]. exists s1. split; [|done].
      destruct (reaches_steps _ _ _ Hre) as [_ Hpt].
      destruct (Hpt _ _ Hs1) as (s' & Hs' & _ & Hfz).
      by rewrite (Hfz Hnp1) in Hs'.
    + destruct (Hnew2 c Hin) as [(s & Hs & Hp) Hafter]. split; [|done].
      exists s. split; [|done]. rewrite <- Hr in Hs.
      by apply run_round_pending in Hs as [? _].
Qed.

(** What one execution does to the step objects of its workflow, and which
    workers it invokes. *)
Lemma execute_workflow_calls e workflow_id agents e' out calls :
  execute_workflow e workflow_id agents = (e', out, calls) →
  (workflows e !! workflow_id = None ∧ e' = e ∧ calls = [])
  ∨ ∃ steps steps',
      workflows e !! workflow_id = Some steps
      ∧ workflows e' !! workflow_id = Some steps'
      ∧ (∀ pos s', steps' !! pos = Some s' → status s' = PENDING →
           steps !! pos = Some s')
      ∧ NoDup (call_index <$> calls)
      ∧ ∀ c, c ∈ calls →
          (∃ s, steps !! call_index c = Some s ∧ status s = PENDING)
          ∧ (∃ s', steps' !! call_index c = Some s' ∧ status s' ≠ PENDING).
Proof.
  intros Hex. destruct (workflows e !! workflow_id) as [steps|] eqn:Hw.
  - right.
    destruct (execute_workflow_outcome e workflow_id agents steps _ Hw
                (reaches_here _ _))
      as (st' & Hre & _ & _ & Hcase).
    destruct (reaches_calls _ _ _ Hre) as (new & Hc & Hnd & Hnew).
    simpl in Hc. exists steps, (ls_steps st').
    assert (calls = new ∧ workflows e' !! workflow_id = Some (ls_steps st'))
      as [-> Hw'].
    { destruct Hcase as [[_ Heq]|[_ Heq]]; rewrite Heq in Hex;
        injection Hex as <- <- <-; simpl; by rewrite lookup_insert_eq. }
    split_and!; try done.
    intros pos s' Hs' Hp. by apply (reaches_pending _ _ _ _ _ Hre Hs' Hp).
  - left. unfold execute_workflow in Hex. rewrite Hw in Hex.
    by injection Hex as <- <- <-.
Qed.

(** A series of executions of one workflow id, each with its own capability
    table, and all the worker invocations it makes. *)
Fixpoint execute_many (e : WorkflowEngine) (workflow_id : string)
    (tables : list (gmap string Agent)) : WorkflowEngine * list Call :=
  match tables with
  | [] => (e, [])
  | agents :: tables' =>
      let '(e1, _, calls) := execute_workflow e workflow_id agents in
      let '(e2, calls') := execute_many e1 workflow_id tables' in
      (e2, calls ++ calls')
  end.

Lemma execute_many_calls tables e workflow_id :
  NoDup (call_index <$> (execute_many e workflow_id tables).2)
  ∧ ∀ c, c ∈ (execute_many e workflow_id tables).2 →
      ∃ steps s, workflows e !! workflow_id = Some steps
        ∧ steps !! call_index c = Some s ∧ status s = PENDING.
Proof.
  revert e. induction tables as [|agents tables IH]; intros e; simpl.
  { split; [constructor | by intros c ?%elem_of_nil]. }
  destruct (execute_workflow e workflow_id agents) as [[e1 out] calls] eqn:Hex.
  specialize (IH e1).
  destruct (execute_many e1 workflow_id tables) as [e2 calls'] eqn:Hmany.
  simpl in *. destruct IH as [Hnd' Hpend'].
  destruct (execute_workflow_calls _ _ _ _ _ _ Hex)
    as [(Hw & -> & ->)|(steps & steps' & Hw & Hw' & Hback & Hnd & Hfacts)].
  { by split. }
  split.
  - rewrite fmap_app. apply NoDup_app. split_and!; [done | | done].
    intros x (c1 & -> & Hin1)%list_elem_of_fmap (c2 & Heq & Hin2)%list_elem_of_fmap.
    destruct (Hfacts c1 Hin1) as [_ (s1 & Hs1 & Hnp)].
    destruct (Hpend' c2 Hin2) as (steps2 & s2 & Hw2 & Hs2 & Hp2).
    rewrite <- Heq in Hs2. congruence.
  - intros c [Hin|Hin]%elem_of_app.
    + destruct (Hfacts c Hin) as [(s & Hs & Hp) _]. by exists steps, s.
    + destruct (Hpend' c Hin) as (steps2 & s2 & Hw2 & Hs2 & Hp2).
      assert (steps2 = steps') as -> by congruence.
      exists steps, s2. split_and!; [done | by apply Hback | done].
Qed.

(** C10. After an execution that returned, executing the same id again
    invokes no worker and returns status completed with an empty results
    map, the step objects staying as they were; and over any series of
    executions of a workflow id, with whatever capability tables, no step
    object has its worker invoked twice. *)
Theorem reexecution_runs_nothing e workflow_id agents e1 r1 calls1 :
  execute_workflow e workflow_id agents = (e1, Ok r1, calls1) →
  (∀ agents', ∃ e2,
     execute_workflow e1 workflow_id agents'
     = (e2, Ok (mkResult workflow_id "completed" ∅), [])
     ∧ workflows e2 !! workflow_id = workflows e1 !! workflow_id)
  ∧ ∀ e0 tables, NoDup (call_index <$> (execute_many e0 workflow_id tables).2).
Proof.
  intros Hex. split; [|intros e0 tables; apply execute_many_calls].
  intros agents'.
  destruct (workflows e !! workflow_id) as [steps|] eqn:Hw;
    [|unfold execute_workflow in Hex; by rewrite Hw in Hex].
  destruct (execute_workflow_outcome e workflow_id agents steps _ Hw
              (reaches_here _ _))
    as (st' & _ & _ & _ & [[_ Heq]|[Hnp Heq]]);
    rewrite Heq in Hex; [done|]. injection Hex as <- <- <-.
  assert (_execute_steps (ls_steps st') agents'
          = Returned (initial_loop (ls_steps st'))) as Hrun.
  { unfold _execute_steps. simpl. case_bool_decide; [|done].
    by rewrite (no_pending_ready _ _ Hnp), Hnp. }
  assert (workflows (engine_completed e workflow_id st') !! workflow_id
          = Some (ls_steps st')) as Hw1
    by (simpl; by rewrite lookup_insert_eq).
  rewrite (execute_workflow_returned _ _ _ _ _ Hw1 Hrun).
  eexists. split; [done|]. simpl. by rewrite !lookup_insert_eq.
Qed.

(** ** The data hand-off *)









(** ** Acyclic workflows *)

(** The dependency graph of a workflow: every step id with the ids it
    declares as dependencies. *)
Definition graph (steps : list WorkflowStep) : list (string * list string) :=
  (λ s, (step_id s, dependencies s)) <$> steps.

Definition depends (g : list (string * list string)) (a b : string) : Prop :=
  ∃ deps, (a, deps) ∈ g ∧ b ∈ deps.

(** No step reaches itself along dependencies. *)
Definition acyclic (g : list (string * list string)) : Prop :=
  ∀ x, ¬ tc (depends g) x x.

(** Every declared dependency names a step of the workflow. *)
Definition no_missing (g : list (string * list string)) : Prop :=
  ∀ a deps b, (a, deps) ∈ g → b ∈ deps → b ∈ g.*1.

(** Every step names a worker of the table, and the workers do not raise. *)
Definition workers_succeed (agents : gmap string Agent)
    (steps : list WorkflowStep) : Prop :=
  ∀ s, s ∈ steps →
    ∃ agent, agents !! agent_name s = Some agent
      ∧ ∀ payload, ∃ r, agent payload = inl r.

Lemma reaches_graph agents st st' :
  reaches agents st st' → graph (ls_steps st') = graph (ls_steps st).
Proof.
  intros [Hlen Hpt]%reaches_steps. apply list_eq. intros pos.
  unfold graph. rewrite !list_lookup_fmap.
  destruct (ls_steps st !! pos) as [s|] eqn:Hs.
  - destruct (Hpt pos s Hs) as (s' & -> & (Hid & _ & _ & Hdeps) & _).
    simpl. by rewrite Hid, Hdeps.
  - apply lookup_ge_None in Hs. rewrite <- Hlen in Hs.
    apply lookup_ge_None in Hs. by rewrite Hs.
Qed.

(** In a non-empty finite collection, a relation without cycles leaves some
    element with no successor in the collection. *)
Lemma acyclic_minimal {A} (R : A → A → Prop) (l : list A) :
  l ≠ [] → (∀ x, ¬ tc R x x) →
  ¬ ¬ ∃ x, x ∈ l ∧ ∀ y, y ∈ l → ¬ tc R x y.
Proof.
  intros Hne Hirr. induction l as [|a l IH]; [done|]. clear Hne.
  destruct l as [|b l].
  { intros Hneg. apply Hneg. exists a. split; [by left|].
    intros y ->%list_elem_of_singleton. apply Hirr. }
  intros Hneg. apply IH; [done|]. intros (x & Hx & Hmin).
  apply Hneg. exists x. split; [by right|].
  intros y [->|Hy]%elem_of_cons Hxy; [|by eapply Hmin].
  apply Hneg. exists a. split; [by left|].
  intros y [->|Hy]%elem_of_cons Hay; [by eapply Hirr|].
  eapply (Hmin y Hy). by etrans.
Qed.

Lemma not_ready_missing completed s :
  status s = PENDING → is_ready completed s = false →
  ∃ dep, dep ∈ dependencies s ∧ dep ∉ completed.
Proof.
  intros Hp Hr. unfold is_ready in Hr.
  rewrite bool_decide_eq_true_2 in Hr by done. simpl in Hr.
  induction (dependencies s) as [|d deps IH]; [done|]. simpl in Hr.
  apply andb_false_iff in Hr as [Hd|Hr].
  - exists d. split; [by left|]. by apply bool_decide_eq_false in Hd.
  - destruct (IH Hr) as (dep & ? & ?). exists dep. split; [by right|done].
Qed.

(** What holds between rounds when no step fails: a step object is PENDING,
    or COMPLETED with its id in [completed_steps]. *)
Definition all_well (st : LoopState) : Prop :=
  ∀ s, s ∈ ls_steps st →
    status s = PENDING
    ∨ (status s = COMPLETED ∧ step_id s ∈ ls_completed st).

(** Without a cycle and without a missing dependency, some PENDING step has
    all its dependencies completed. *)
Lemma ready_exists st :
  all_well st →
  acyclic (graph (ls_steps st)) → no_missing (graph (ls_steps st)) →
  has_pending (ls_steps st) = true →
  ready_steps (ls_steps st) (ls_completed st) ≠ [].
Proof.
  intros Hwell Hacyc Hclosed (sp & Hsp & Hp)%has_pending_spec Hready.
  set (waiting := step_id <$> filter (λ s, status s = PENDING) (ls_steps st)).
  apply (acyclic_minimal (depends (graph (ls_steps st))) waiting).
  { assert (step_id sp ∈ waiting) as Hin; [|by intros Heq; rewrite Heq in Hin;
                                             apply elem_of_nil in Hin].
    apply list_elem_of_fmap_2, list_elem_of_filter. done. }
  { done. }
  intros (x & (s & -> & [Hps Hs]%list_elem_of_filter)%list_elem_of_fmap & Hmin).
  pose proof Hs as [pos Hpos]%list_elem_of_lookup.
  assert (is_ready (ls_completed st) s = false) as Hnr.
  { destruct (is_ready (ls_completed st) s) eqn:Hr; [|done].
    assert (pos ∈ ready_steps (ls_steps st) (ls_completed st)) as Hin
      by (apply elem_of_ready_steps; eauto).
    rewrite Hready in Hin. by apply elem_of_nil in Hin. }
  destruct (not_ready_missing _ _ Hps Hnr) as (dep & Hdep & Hmiss).
  assert ((step_id s, dependencies s) ∈ graph (ls_steps st)) as Hnode.
  { apply list_elem_of_fmap. by exists s. }
  pose proof (Hclosed _ _ _ Hnode Hdep) as Hex.
  apply list_elem_of_fmap in Hex as ([a deps] & -> & Hg). simpl in *.
  apply list_elem_of_fmap in Hg as (sd & [= -> ->] & Hsd).
  destruct (Hwell sd Hsd) as [Hpd|[_ Hin]]; [|done].
  apply (Hmin (step_id sd)).
  - apply list_elem_of_fmap_2, list_elem_of_filter. done.
  - apply tc_once. by exists (dependencies s).
Qed.

Lemma launch_all agents results ready steps :
  (∀ pos, pos ∈ ready →
     ∃ s agent, steps !! pos = Some s ∧ agents !! agent_name s = Some agent) →
  ∃ tasks, launch agents results ready steps = (steps, tasks)
    ∧ l_index <$> tasks = ready.
Proof.
  induction ready as [|i ready IH]; intros Hall; simpl.
  { by exists []. }
  destruct (Hall i) as (s & agent & -> & ->); [by left|].
  destruct IH as (tasks & -> & Hidx).
  { intros pos Hin. apply Hall. by right. }
  exists (mkLaunched i agent (previous_results results s) :: tasks).
  split; [done|]. rewrite fmap_cons. simpl. by f_equal.
Qed.

(** A round in which every ready step has a worker that returns marks every
    ready step COMPLETED and adds its id to [completed_steps]. *)
Lemma run_round_good agents st pos :
  let ready := ready_steps (ls_steps st) (ls_completed st) in
  workers_succeed agents (ls_steps st) →
  pos ∈ ready →
  ∃ s', ls_steps (run_round agents ready st) !! pos = Some s'
    ∧ status s' = COMPLETED
    ∧ step_id s' ∈ ls_completed (run_round agents ready st).
Proof.
  intros ready Hgood Hin.
  destruct (run_round_unfold agents ready st)
    as (steps1 & tasks & steps2 & outcomes & calls & Hl & Hg & ->).
  destruct (launch_all agents (ls_results st) ready (ls_steps st))
    as (tasks' & Hl' & Hidx).
  { intros q (s & Hs & _)%elem_of_ready_steps.
    destruct (Hgood s) as (agent & Hag & _); [by eapply list_elem_of_lookup_2|].
    by exists s, agent. }
  rewrite Hl in Hl'. injection Hl' as -> <-.
  destruct (launch_tasks _ _ _ _ _ _ Hl) as (_ & Ht & _).
  assert (Forall2 (λ t outcome, ∃ s, ls_steps st !! l_index t = Some s
                     ∧ outcome = l_agent t (task_data s (l_previous t)))
            tasks outcomes) as Hout.
  { eapply gather_outcomes; [done|]. intros t Hint.
    destruct (Ht t Hint) as (s & Hs & _). by rewrite Hs. }
  pose proof Hin as [k Hk]%list_elem_of_lookup.
  rewrite <- Hidx in Hk. apply list_lookup_fmap_Some in Hk as (t & Hpos & Htk).
  symmetry in Hpos.
  destruct (Forall2_lookup_l _ _ _ _ _ Hout Htk) as (o & Hok & s & Hs & Ho).
  destruct (Ht t) as (s1 & Hs1 & _ & Hag & _);
    [by eapply list_elem_of_lookup_2|].
  assert (s1 = s) as -> by congruence.
  destruct (Hgood s) as (agent & Hag' & Hret);
    [by eapply list_elem_of_lookup_2|].
  assert (Some agent = Some (l_agent t)) as [= ->]
    by (etrans; [symmetry; exact Hag' | exact Hag]).
  destruct (Hret (task_data s (l_previous t))) as [r Hr].
  rewrite Hr in Ho. subst o.
  assert ((pos, inl r) ∈ zip ready outcomes) as Hpair.
  { eapply list_elem_of_lookup_2 with (i := k).
    apply lookup_zip_with_Some. exists pos, (inl r).
    split_and!; [done | | done].
    rewrite <- Hidx, list_lookup_fmap, Htk. simpl. by rewrite Hpos. }
  destruct (gather_steps _ _ _ _ _ _ Hg) as [_ Hg1].
  rewrite Hpos in Hs.
  destruct (Hg1 pos s Hs) as (s2 & Hs2 & Hst2 & _).
  set (st2 := {| ls_steps := steps2; ls_results := ls_results st;
                 ls_completed := ls_completed st; ls_calls := calls |}).
  destruct (record_fold_pair (zip ready outcomes) st2 pos (inl r) s2)
    as [Hfinal Hdone]; [| done | done |].
  { eapply sublist_NoDup; [apply NoDup_ready_steps | apply fst_zip_sublist]. }
  exists (set_completed r s2). split_and!; [done | done |].
  by apply (Hdone r).
Qed.

Lemma reaches_workers agents st st' :
  reaches agents st st' →
  workers_succeed agents (ls_steps st) → workers_succeed agents (ls_steps st').
Proof.
  intros [Hlen Hpt]%reaches_steps Hgood s' [pos Hs']%list_elem_of_lookup.
  assert (is_Some (ls_steps st !! pos)) as [s Hs].
  { apply lookup_lt_is_Some. rewrite <- Hlen. by eapply lookup_lt_Some. }
  destruct (Hpt pos s Hs) as (s1 & Hs1 & (_ & Hname & _) & _).
  assert (s1 = s') as -> by congruence. rewrite Hname.
  apply Hgood. by eapply list_elem_of_lookup_2.
Qed.

Lemma run_round_well agents st :
  let ready := ready_steps (ls_steps st) (ls_completed st) in
  all_well st → workers_succeed agents (ls_steps st) →
  all_well (run_round agents ready st).
Proof.
  intros ready Hwell Hgood s' [pos Hs']%list_elem_of_lookup.
  assert (is_Some (ls_steps st !! pos)) as [s Hs].
  { apply lookup_lt_is_Some. rewrite <- (run_round_length agents ready).
    by eapply lookup_lt_Some. }
  destruct (decide (pos ∈ ready)) as [Hin|Hnotin].
  - destruct (run_round_good agents st pos Hgood Hin) as (s1 & Hs1 & ? & ?).
    assert (s1 = s') as -> by (fold ready in Hs1; congruence). by right.
  - destruct (run_round_steps agents ready st pos s Hs) as (s1 & Hs1 & _ & Hout & _).
    assert (s1 = s') as -> by congruence. rewrite (Hout Hnotin).
    destruct (Hwell s) as [?|[? ?]]; [by eapply list_elem_of_lookup_2 | by left |].
    right. split; [done|]. by apply run_round_completed.
Qed.

(** C1, amended. A workflow whose steps are all PENDING, as a freshly
    defined one has them, with pairwise distinct step ids, a dependency graph
    without cycles and without a dependency naming no step, every capability
    in the table and no worker raising, executes to status completed: every
    step object ends COMPLETED, and [results] has exactly one entry per
    step, under the step ids. *)
Theorem dag_completes e workflow_id agents steps :
  workflows e !! workflow_id = Some steps →
  Forall (λ s, status s = PENDING) steps →
  NoDup (step_id <$> steps) →
  acyclic (graph steps) → no_missing (graph steps) →
  workers_succeed agents steps →
  ∃ e' results calls final,
    execute_workflow e workflow_id agents
    = (e', Ok (mkResult workflow_id "completed" results), calls)
    ∧ dom results = list_to_set (step_id <$> steps)
    ∧ size results = length steps
    ∧ workflows e' !! workflow_id = Some final
    ∧ Forall (λ s, status s = COMPLETED) final
    ∧ active_workflows e' !! workflow_id = Some (mkActive "completed" None).
Proof.
  intros Hw Hfresh Hnd Hacyc Hclosed Hgood.
  destruct (execute_workflow_outcome e workflow_id agents steps _ Hw
              (reaches_here _ _))
    as (st' & Hre & Hinv & Hready & Hcase).
  assert (all_well st') as Hwell.
  { apply (reaches_invariant agents
             (λ st, reaches agents (initial_loop steps) st ∧ all_well st)
             (initial_loop steps) st'); [|done|].
    - intros st0 i ready [Hre0 Hwell0] Hlt Hr. split.
      + eapply reaches_trans; [done|].
        eapply reaches_round; [done | done | constructor].
      + rewrite <- Hr. apply run_round_well; [done|].
        by apply (reaches_workers agents (initial_loop steps)).
    - split; [constructor|]. intros s Hs. left.
      by apply (proj1 (Forall_forall _ _) Hfresh). }
  destruct Hcase as [[Hp _]|[Hnp ->]].
  { pose proof (reaches_graph _ _ _ Hre) as Hgraph. simpl in Hgraph.
    exfalso. eapply ready_exists; try done; by rewrite Hgraph. }
  assert (∀ s, s ∈ ls_steps st' →
            status s = COMPLETED ∧ step_id s ∈ ls_completed st') as Hall.
  { intros s Hs. destruct (Hwell s Hs) as [Hp|?]; [|done].
    assert (has_pending (ls_steps st') = true); [|congruence].
    apply has_pending_spec. by exists s. }
  assert (dom (ls_results st') = list_to_set (step_id <$> steps)) as Hdom.
  { rewrite (proj2 Hinv). apply set_eq. intros x.
    pose proof (reaches_ids _ _ _ Hre) as Hids. simpl in Hids.
    rewrite elem_of_list_to_set, <- Hids. split.
    - intros Hx.
      destruct (loop_inv_completed st' x Hinv Hx) as (pos & s & _ & Hs & <- & _).
      apply list_elem_of_fmap_2. by eapply list_elem_of_lookup_2.
    - intros (s & -> & Hs)%list_elem_of_fmap. by apply Hall. }
  exists (engine_completed e workflow_id st'), (ls_results st'),
    (ls_calls st'), (ls_steps st').
  split_and!; [done | done | | | |].
  - rewrite <- size_dom, Hdom, size_list_to_set, length_fmap; done.
  - simpl. by rewrite lookup_insert_eq.
  - apply Forall_forall. intros s Hs. by apply Hall.
  - simpl. by rewrite lookup_insert_eq.
Qed.

(** ** A single step whose worker raises *)

Lemma execute_steps_loop_S fuel agents st :
  execute_steps_loop (S fuel) agents st
  = if bool_decide (size (ls_completed st) < length (ls_steps st)) then
      match ready_steps (ls_steps st) (ls_completed st) with
      | [] =>
          if has_pending (ls_steps st)
          then Raised st stall_message
          else Returned st
      | i :: ready' =>
          execute_steps_loop fuel agents (run_round agents (i :: ready') st)
      end
    else Returned st.
Proof. done. Qed.

(** C2. What the code does with a workflow of one step, without
    dependencies, whose worker raises: the step object is marked FAILED with
    the text of the exception as its error, no step is PENDING any more, the
    loop leaves through [break], and [execute_workflow] returns status
    completed with an empty results map and records the workflow as
    completed. *)
Theorem single_failing_step_reported_completed e workflow_id agents config
    (agent : Agent) msg :
  workflows e !! workflow_id = Some [new_step config] →
  default [] (cfg_dependencies config) = [] →
  agents !! cfg_agent_name config = Some agent →
  agent (cfg_task config) = inr msg →
  ∃ e', execute_workflow e workflow_id agents
        = (e', Ok (mkResult workflow_id "completed" ∅),
           [mkCall 0 (cfg_step_id config) (cfg_task config)])
    ∧ workflows e' !! workflow_id
      = Some [set_failed msg (set_in_progress (new_step config))]
    ∧ active_workflows e' !! workflow_id = Some (mkActive "completed" None)
    ∧ last (workflow_history e')
      = Some (mkHistory workflow_id "completed" (Some ∅) None).
Proof.
  intros Hw Hdeps Hag Hraise.
  assert (task_data (new_step config) PyNone = cfg_task config) as Hdata.
  { unfold task_data. simpl. by rewrite andb_false_r. }
  assert (_execute_steps [new_step config] agents
          = Returned
              {| ls_steps := [set_failed msg (set_in_progress (new_step config))];
                 ls_results := ∅; ls_completed := ∅;
                 ls_calls := [mkCall 0 (cfg_step_id config) (cfg_task config)] |})
    as Hrun.
  { assert (ready_steps [new_step config] ∅ = [0]) as Hready.
    { unfold ready_steps, ready_from, is_ready. simpl. by rewrite Hdeps. }
    assert (run_round agents [0] (initial_loop [new_step config])
            = {| ls_steps := [set_failed msg (set_in_progress (new_step config))];
                 ls_results := ∅; ls_completed := ∅;
                 ls_calls := [mkCall 0 (cfg_step_id config) (cfg_task config)] |})
      as Hround.
    { unfold run_round, initial_loop. simpl. rewrite Hag.
      unfold previous_results. simpl. rewrite Hdeps. simpl.
      rewrite Hdata, Hraise. done. }
    unfold _execute_steps. simpl length.
    rewrite execute_steps_loop_S. simpl ls_steps. simpl ls_completed.
    rewrite bool_decide_eq_true_2 by (rewrite size_empty; simpl; lia).
    rewrite Hready, Hround, execute_steps_loop_S. simpl ls_steps.
    simpl ls_completed.
    rewrite bool_decide_eq_true_2 by (rewrite size_empty; simpl; lia).
    done. }
  rewrite (execute_workflow_returned _ _ _ _ _ Hw Hrun).
  eexists. split; [done|]. simpl.
  by rewrite !lookup_insert_eq, last_snoc.
Qed.

(** ** The scenarios, executed *)

Section Executed.
Import Scenarios.

(** C5. Two steps without dependencies are ready in the same round; the
    capability of A is not in the table, the worker of B returns.  A is
    marked FAILED when the round is launched, but the outcome loop pairs the
    only outcome, that of B, with the first ready step: A ends COMPLETED
    carrying the result of B under the key A, B stays IN_PROGRESS without an
    entry in [results], and the workflow is reported completed. *)
Theorem missing_capability_misrecords_sibling :
  (execute_workflow missing_capability "wf" worker_table).1.2
  = Ok (mkResult "wf" "completed" {["A" := report]})
  ∧ workflows (execute_workflow missing_capability "wf" worker_table).1.1 !! "wf"
    = Some [ {| step_id := "A"; agent_name := "missing"; task := ∅;
                dependencies := []; status := COMPLETED;
                result := Some report;
                error := Some "Agent missing not found" |};
             {| step_id := "B"; agent_name := "worker"; task := ∅;
                dependencies := []; status := IN_PROGRESS;
                result := None; error := None |} ]
  ∧ (execute_workflow missing_capability "wf" worker_table).2
    = [mkCall 1 "B" ∅].
Proof. split_and!; by vm_compute. Qed.

(** C3. A and B are ready in the first round and C depends on A; the
    capability of A is not in the table, the worker of B and C returns.
    The launch loop marks A FAILED, but the outcome loop records the
    outcome of B on the first ready step, which is A: A is COMPLETED when
    the loop condition is tested again and its id is in [completed_steps].
    So C, whose dependency failed, leaves PENDING: its worker is invoked
    with the result recorded under A as its data, and C ends COMPLETED.  B
    stays IN_PROGRESS, no stall is raised, and the workflow is reported
    completed. *)
Theorem failed_dependency_overwritten :
  workflows overwritten_failure !! "wf"
  = Some [new_step (step "A" "missing" []); new_step (step "B" "worker" []);
          new_step (step "C" "worker" ["A"])]
  ∧ ready_steps
      [new_step (step "A" "missing" []); new_step (step "B" "worker" []);
       new_step (step "C" "worker" ["A"])] ∅
    = [0; 1]
  ∧ (launch worker_table ∅ [0; 1]
       [new_step (step "A" "missing" []); new_step (step "B" "worker" []);
        new_step (step "C" "worker" ["A"])]).1 !! 0
    = Some {| step_id := "A"; agent_name := "missing"; task := ∅;
              dependencies := []; status := FAILED; result := None;
              error := Some "Agent missing not found" |}
  ∧ (execute_workflow overwritten_failure "wf" worker_table).1.2
    = Ok (mkResult "wf" "completed" (<["C" := report]> {["A" := report]}))
  ∧ workflows (execute_workflow overwritten_failure "wf" worker_table).1.1
      !! "wf"
    = Some [ {| step_id := "A"; agent_name := "missing"; task := ∅;
                dependencies := []; status := COMPLETED;
                result := Some report;
                error := Some "Agent missing not found" |};
             {| step_id := "B"; agent_name := "worker"; task := ∅;
                dependencies := []; status := IN_PROGRESS;
                result := None; error := None |};
             {| step_id := "C"; agent_name := "worker"; task := ∅;
                dependencies := ["A"]; status := COMPLETED;
                result := Some report; error := None |} ]
  ∧ (execute_workflow overwritten_failure "wf" worker_table).2
    = [mkCall 1 "B" ∅; mkCall 2 "C" {["data" := report]}].
Proof. split_and!; by vm_compute. Qed.

(** C1 as the specification states it, for one engine state, workflow id
    and capability table: an acyclic workflow without missing dependencies
    executes to status completed with one entry of [results] per step. *)
Definition dag_claim (e : WorkflowEngine) (workflow_id : string)
    (agents : gmap string Agent) : Prop :=
  ∀ steps,
    workflows e !! workflow_id = Some steps →
    acyclic (graph steps) → no_missing (graph steps) →
    ∃ e' results calls,
      execute_workflow e workflow_id agents
      = (e', Ok (mkResult workflow_id "completed" results), calls)
      ∧ dom results = list_to_set (step_id <$> steps)
      ∧ size results = length steps.

(** A graph whose dependencies go down along a rank has no cycle. *)
Lemma ranked_acyclic (g : list (string * list string)) (rank : string → nat) :
  (∀ a deps b, (a, deps) ∈ g → b ∈ deps → rank b < rank a) → acyclic g.
Proof.
  intros Hrank.
  assert (∀ x y, tc (depends g) x y → rank y < rank x) as Hdown.
  { induction 1 as [x y (deps & ? & ?)|x y z (deps & ? & ?) _ IH].
    - by eapply Hrank.
    - etrans; [exact IH | by eapply Hrank]. }
  intros x Hx. apply Hdown in Hx. lia.
Qed.

Lemma single_failing_acyclic :
  acyclic (graph (new_step <$> [step "A" "worker" []])).
Proof.
  apply (ranked_acyclic _ (λ _, 0)).
  intros a deps b [= -> ->]%list_elem_of_singleton Hb.
  by apply elem_of_nil in Hb.
Qed.

Lemma single_failing_no_missing :
  no_missing (graph (new_step <$> [step "A" "worker" []])).
Proof.
  intros a deps b [= -> ->]%list_elem_of_singleton Hb.
  by apply elem_of_nil in Hb.
Qed.

(** C1 fails as stated: one step without dependencies whose worker raises
    is an acyclic workflow without missing dependencies, and its execution
    returns an empty results map. *)
Lemma dag_claim_fails : ¬ dag_claim single_failing "wf" failing_table.
Proof.
  intros Hclaim.
  destruct (Hclaim (new_step <$> [step "A" "worker" []]) eq_refl
              single_failing_acyclic single_failing_no_missing)
    as (e' & results & calls & Hex & _ & Hsize).
  vm_compute in Hex. injection Hex as <- <- <-. by vm_compute in Hsize.
Qed.



Definition chain_steps : list WorkflowStep :=
  new_step <$> [step "A" "worker" []; step "B" "worker" ["A"]].

Lemma chain_ids : NoDup (step_id <$> chain_steps).
Proof.
  apply (NoDup_cons_2 "A" ["B"]); [|apply NoDup_singleton].
  by intros [=]%list_elem_of_singleton.
Qed.

Lemma chain_acyclic : acyclic (graph chain_steps).
Proof.
  apply (ranked_acyclic _ (λ x, if String.eqb x "A" then 0 else 1)).
  intros a deps b Hin Hb.
  apply elem_of_cons in Hin as [[= -> ->]|Hin].
  { by apply elem_of_nil in Hb. }
  apply list_elem_of_singleton in Hin as [= -> ->].
  apply list_elem_of_singleton in Hb as ->. simpl. lia.
Qed.

Lemma chain_no_missing : no_missing (graph chain_steps).
Proof.
  intros a deps b Hin Hb.
  apply elem_of_cons in Hin as [[= -> ->]|Hin].
  { by apply elem_of_nil in Hb. }
  apply list_elem_of_singleton in Hin as [= -> ->].
  apply list_elem_of_singleton in Hb as ->. by left.
Qed.

Lemma chain_workers : workers_succeed worker_table chain_steps.
Proof.
  intros s Hs. exists (returns report). split.
  - apply elem_of_cons in Hs as [->|Hs]; [done|].
    by apply list_elem_of_singleton in Hs as ->.
  - intros payload. by exists report.
Qed.

Lemma dag_completes_witness :
  ∃ e' results calls final,
    execute_workflow chain "wf" worker_table
    = (e', Ok (mkResult "wf" "completed" results), calls)
    ∧ dom results = list_to_set (step_id <$> chain_steps)
    ∧ size results = length chain_steps
    ∧ workflows e' !! "wf" = Some final
    ∧ Forall (λ s, status s = COMPLETED) final
    ∧ active_workflows e' !! "wf" = Some (mkActive "completed" None).
Proof.
  apply (dag_completes chain "wf" worker_table chain_steps).
  - reflexivity.
  - repeat constructor.
  - exact chain_ids.
  - apply chain_acyclic.
  - apply chain_no_missing.
  - apply chain_workers.
Defined.

(** The state of the loop after the round in which the worker of A raised. *)
Definition after_failure : LoopState :=
  run_round failing_table [0]
    (initial_loop (new_step <$> [step "A" "worker" []; step "B" "worker" ["A"]])).

Lemma after_failure_reached :
  reaches failing_table
    (initial_loop (new_step <$> [step "A" "worker" []; step "B" "worker" ["A"]]))
    after_failure.
Proof.
  eapply reaches_round with (i := 0) (ready := []).
  - vm_compute. lia.
  - reflexivity.
  - apply reaches_here.
Qed.

Lemma stall_fails_workflow_witness :
  (∃ e', execute_workflow cycle "wf" worker_table = (e', Exn stall_message, [])
     ∧ active_workflows e' !! "wf"
       = Some (mkActive "failed" (Some stall_message)))
  ∧ ∃ e' final calls,
      execute_workflow failed_dependency "wf" failing_table
      = (e', Exn stall_message, calls)
      ∧ workflows e' !! "wf" = Some final
      ∧ final !! 1 = Some (new_step (step "B" "worker" ["A"]))
      ∧ active_workflows e' !! "wf"
        = Some (mkActive "failed" (Some stall_message)).
Proof.
  split.
  - destruct (stall_fails_workflow cycle "wf" worker_table
                (new_step <$> [step "A" "worker" ["C"]; step "B" "worker" ["A"];
                               step "C" "worker" ["B"]]) eq_refl)
      as [_ Hstall].
    destruct (Hstall _ (reaches_here _ _)) as [Hempty _].
    destruct (Hempty eq_refl eq_refl) as (e' & Hex & _ & Hactive & _).
    exists e'. split; [exact Hex | exact Hactive].
  - destruct (stall_fails_workflow failed_dependency "wf" failing_table
                (new_step <$> [step "A" "worker" []; step "B" "worker" ["A"]])
                eq_refl)
      as [_ Hstall].
    destruct (Hstall after_failure after_failure_reached) as [_ Hblocked].
    destruct (Hblocked chain_ids 1
                (new_step (step "B" "worker" ["A"]))
                (set_failed "boom" (set_in_progress (new_step (step "A" "worker" []))))
                eq_refl eq_refl (list_elem_of_here _ _) eq_refl
                (list_elem_of_here _ _))
      as [_ Hfinal].
    exact Hfinal.
Defined.

Lemma unknown_workflow_and_overwrite_witness :
  workflows empty_engine !! "nope" = None
  ∧ execute_workflow empty_engine "nope" worker_table
    = (empty_engine, Exn "Workflow nope not found", []).
Proof.
  split; [reflexivity|].
  apply (proj1 (unknown_workflow_and_overwrite empty_engine "nope")).
  reflexivity.
Defined.

Lemma reexecution_runs_nothing_witness :
  ∃ e2,
    execute_workflow (execute_workflow chain "wf" worker_table).1.1 "wf"
      failing_table
    = (e2, Ok (mkResult "wf" "completed" ∅), [])
    ∧ workflows e2 !! "wf"
      = workflows (execute_workflow chain "wf" worker_table).1.1 !! "wf".
Proof.
  apply (proj1 (reexecution_runs_nothing chain "wf" worker_table
                  (execute_workflow chain "wf" worker_table).1.1
                  (mkResult "wf" "completed" (<["B" := report]> {["A" := report]}))
                  (execute_workflow chain "wf" worker_table).2
                  eq_refl)).
Defined.


Lemma single_failing_step_witness :
  ∃ e', execute_workflow single_failing "wf" failing_table
        = (e', Ok (mkResult "wf" "completed" ∅), [mkCall 0 "A" ∅])
    ∧ workflows e' !! "wf"
      = Some [set_failed "boom"
                (set_in_progress (new_step (step "A" "worker" [])))]
    ∧ active_workflows e' !! "wf" = Some (mkActive "completed" None)
    ∧ last (workflow_history e')
      = Some (mkHistory "wf" "completed" (Some ∅) None).
Proof.
  apply (single_failing_step_reported_completed single_failing "wf"
           failing_table (step "A" "worker" []) (raises "boom") "boom");
    reflexivity.
Defined.

End Executed.

End EngineFacts.

(** * Properties of the task coordinator *)

Module CoordinatorFacts.
Import Engine Coordinator.

(** The terminal record of a task, unless its processing never ended. *)
Definition terminal_record (out : Outcome) (started : QueuedTask)
    : option QueuedTask :=
  match out with
  | Ok r => Some (with_result r started)
  | Exn msg => Some (with_error msg started)
  | Diverged => None
  end.

Lemma run_task_ends e now agents t : (run_task e now agents t).2 ≠ Diverged.
Proof.
  unfold run_task.
  destruct (String.eqb (default "research" (task_type t)) "research").
  { destruct (query t) as [q|]; [|done]. unfold execute_research_task.
    destruct (create_research_workflow e now q (processor_config t))
      as [e' [workflow_id|msg]]; [|done].
    apply EngineFacts.execute_workflow_ends. }
  destruct (String.eqb (default "research" (task_type t)) "analysis").
  { destruct (data t) as [d|]; [|done]. unfold execute_analysis_task.
    destruct (create_analysis_workflow e now d _) as [e' workflow_id].
    apply EngineFacts.execute_workflow_ends. }
  destruct (String.eqb (default "research" (task_type t)) "content").
  { destruct (data t) as [d|]; [|done]. unfold execute_content_task.
    destruct (create_content_workflow e now d _) as [e' workflow_id].
    apply EngineFacts.execute_workflow_ends. }
  done.
Qed.

Section Drain.
Variable clock : nat → string.
Variable agents : gmap string Agent.

(** [t'] is the record the drain leaves of the queued task [t]: what
    processing [t], marked as processing, returned or raised, written onto
    it. *)
Definition processed (t t' : QueuedTask) : Prop :=
  ∃ e now,
    terminal_record (run_task e now agents (with_status "processing" t)).2
      (with_status "processing" t)
    = Some t'.


Lemma drain_cons t rest c trace :
  drain clock agents (t :: rest) c trace
  = let c1 := begin_task c t rest in
    let started := with_status "processing" t in
    let ran := run_task (workflow_engine c) (clock (length (task_history c)))
                 agents started in
    match terminal_record ran.2 started with
    | Some t' =>
        drain clock agents rest (end_task c1 ran.1 t')
          (trace ++ [c1; end_task c1 ran.1 t'])
    | None => mkDrained c1 (trace ++ [c1]) false
    end.
Proof.
  simpl.
  destruct (run_task (workflow_engine c) (clock (length (task_history c)))
              agents (with_status "processing" t)) as [e [r|msg|]]; done.
Qed.

(** The drain of a queue, from a coordinator with no active task. *)
Lemma drain_spec queue c trace :
  active_tasks c = ∅ → task_queue c = queue →
  let d := drain clock agents queue c trace in
  d_finished d = true
  ∧ task_queue (d_final d) = []
  ∧ active_tasks (d_final d) = ∅
  ∧ ∃ finished snaps,
      task_history (d_final d) = task_history c ++ finished
      ∧ Forall2 processed queue finished
      ∧ d_trace d = trace ++ snaps
      ∧ length snaps = 2 * length queue
      ∧ Forall (λ snap, size (active_tasks snap) ≤ 1) snaps
      ∧ ∀ k t, queue !! k = Some t →
          ∃ c1 c2 t',
            snaps !! (2 * k) = Some c1 ∧ snaps !! (2 * k + 1) = Some c2
            ∧ active_tasks c1 = {[task_id t := with_status "processing" t]}
            ∧ task_queue c1 = drop (S k) queue
            ∧ task_history c1 = task_history c ++ take k finished
            ∧ active_tasks c2 = ∅
            ∧ task_queue c2 = drop (S k) queue
            ∧ task_history c2 = task_history c ++ take k finished ++ [t']
            ∧ finished !! k = Some t'.
Proof.
  revert c trace. induction queue as [|t rest IH]; intros c trace Hact Hq d.
  { subst d. simpl. split_and!; try done. exists [], [].
    rewrite !app_nil_r. split_and!; done. }
  subst d. rewrite drain_cons. cbv zeta.
  set (started := with_status "processing" t).
  set (ran := run_task (workflow_engine c) (clock (length (task_history c)))
                agents started).
  set (c1 := begin_task c t rest).
  destruct (terminal_record ran.2 started) as [t'|] eqn:Hrec.
  2:{ pose proof (run_task_ends (workflow_engine c)
                    (clock (length (task_history c))) agents started) as Hends.
      fold ran in Hends. by destruct ran.2. }
  set (c2 := end_task c1 ran.1 t').
  assert (task_id t' = task_id t) as Hid.
  { destruct ran.2; simpl in Hrec; [| |done]; by injection Hrec as <-. }
  assert (active_tasks c2 = ∅) as Hact2.
  { unfold c2, end_task, c1, begin_task. simpl.
    by rewrite Hid, Hact, delete_insert_eq, delete_empty. }
  destruct (IH c2 (trace ++ [c1; c2]) Hact2 eq_refl)
    as (Hfin & Hqueue & Hactive & finished & snaps & Hhist & Hproc & Htrace
        & Hlen & Hsize & Hsnaps).
  split_and!; try done.
  exists (t' :: finished), (c1 :: c2 :: snaps). split_and!.
  - rewrite Hhist. simpl. by rewrite <- app_assoc.
  - constructor; [|done]. by exists (workflow_engine c),
      (clock (length (task_history c))).
  - rewrite Htrace. by rewrite <- app_assoc.
  - simpl. lia.
  - constructor; [|constructor; [|done]].
    + simpl. rewrite Hact, insert_empty, map_size_singleton. lia.
    + rewrite Hact2, map_size_empty. lia.
  - intros [|k] u Hu.
    + injection Hu as <-. exists c1, c2, t'. simpl.
      rewrite Hact, insert_empty, drop_0, app_nil_r. split_and!; try done.
      by rewrite Hid, delete_singleton_eq.
    + simpl in Hu. destruct (Hsnaps k u Hu)
        as (d1 & d2 & u' & Hd1 & Hd2 & ? & ? & Hh1 & ? & ? & Hh2 & ?).
      exists d1, d2, u'.
      replace (2 * S k) with (S (S (2 * k))) by lia.
      replace (S (S (2 * k)) + 1) with (S (S (2 * k + 1))) by lia.
      simpl take. split_and!; try done.
      * rewrite Hh1. simpl. by rewrite <- app_assoc.
      * rewrite Hh2. simpl. by rewrite <- !app_assoc.
Qed.


End Drain.


End CoordinatorFacts.

(** * Properties of the verification memory *)

Module VerificationFacts.
Import Verification.

Lemma count_values_le {A} (cond : A → bool) (d : gmap string A) :
  count_values cond d ≤ size d.
Proof.
  unfold count_values.
  etrans; [apply List.filter_length_le|].
  by rewrite length_fmap, length_map_to_list.
Qed.

Lemma true_div_positive a b :
  0 < b →
  ∃ q, true_div a b = inl q
    ∧ (q == inject_Z (Z.of_nat a) / inject_Z (Z.of_nat b))%Q.
Proof.
  intros Hb. destruct b as [|b]; [lia|]. eexists. split; [done|].
  rewrite Qmake_Qdiv. f_equiv. f_equiv.
  change (Z.of_nat (S b)) with (Z.pos (Pos.of_succ_nat b)).
  by rewrite Pos.of_nat_succ.
Qed.

(** C8. For every state of the verification memory the summary is
    returned, never an exception: the count of verified claims is the number
    of fact-checks whose result has status verified, at most the number of
    fact-checks; with no fact-check the rate is 0, and otherwise it is the
    count of verified claims divided by the number of fact-checks. *)
Theorem verification_rate_guarded vm :
  ∃ s, get_verification_summary vm = inl s
    ∧ total_fact_checks s = size (fact_checks vm)
    ∧ verified_claims s = count_values is_verified (fact_checks vm)
    ∧ verified_claims s ≤ total_fact_checks s
    ∧ (total_fact_checks s = 0 → verification_rate s = 0%Q)
    ∧ (0 < total_fact_checks s →
       (verification_rate s
        == inject_Z (Z.of_nat (verified_claims s))
           / inject_Z (Z.of_nat (total_fact_checks s)))%Q).
Proof.
  unfold get_verification_summary.
  set (total := size (fact_checks vm)).
  set (verified := count_values is_verified (fact_checks vm)).
  set (vtotal := size (validations vm)).
  set (valid := count_values is_valid (validations vm)).
  assert (∃ q, (if 0 <? vtotal then true_div valid vtotal else inl 0%Q)
               = inl q) as [vq ->].
  { destruct (0 <? vtotal) eqn:Hv; [|by eexists].
    apply Nat.ltb_lt in Hv.
    destruct (true_div_positive valid vtotal Hv) as (q & -> & _). by eexists. }
  destruct (0 <? total) eqn:Ht.
  - apply Nat.ltb_lt in Ht.
    destruct (true_div_positive verified total Ht) as (q & -> & Hq).
    eexists. split; [done|]. simpl.
    split_and!; [done | done | apply count_values_le | lia | done].
  - apply Nat.ltb_ge in Ht. eexists. split; [done|]. simpl.
    split_and!; [done | done | apply count_values_le | done | lia].
Qed.

Lemma verification_rate_guarded_witness :
  (∃ s, get_verification_summary empty_memory = inl s
     ∧ verification_rate s = 0%Q)
  ∧ ∃ s, get_verification_summary Scenarios.two_fact_checks = inl s
      ∧ (verification_rate s == 1 # 2)%Q.
Proof.
  split.
  - destruct (verification_rate_guarded empty_memory)
      as (s & Hs & Htotal & _ & _ & Hzero & _).
    exists s. split; [exact Hs|]. apply Hzero. rewrite Htotal. reflexivity.
  - destruct (verification_rate_guarded Scenarios.two_fact_checks)
      as (s & Hs & Htotal & Hverified & _ & _ & Hrate).
    exists s. split; [exact Hs|].
    assert (total_fact_checks s = 2) as Ht by (rewrite Htotal; reflexivity).
    assert (verified_claims s = 1) as Hv by (rewrite Hverified; reflexivity).
    rewrite Ht, Hv in Hrate. rewrite Hrate by lia. reflexivity.
Defined.

End VerificationFacts.

(** * Properties of the shared knowledge repository *)

Module KnowledgeFacts.
Import Knowledge.






End KnowledgeFacts.

(** * Further properties of the workflow engine *)

Module EngineMore.
Import Engine EngineQueries EngineFacts.

(** ** What an execution leaves of the definition *)

(** An execution keeps the number of steps and the id, capability, payload
    and dependencies of each; a step that was not PENDING when the execution
    began, whatever its status, is not written, and a step that is PENDING
    when it ends was not written either; no other workflow is touched. *)
Theorem execution_keeps_definition e workflow_id agents steps e' out calls :
  workflows e !! workflow_id = Some steps →
  execute_workflow e workflow_id agents = (e', out, calls) →
  (∀ other, other ≠ workflow_id → workflows e' !! other = workflows e !! other)
  ∧ ∃ final,
      workflows e' !! workflow_id = Some final
      ∧ length final = length steps
      ∧ ∀ pos s, steps !! pos = Some s →
          ∃ s', final !! pos = Some s'
            ∧ step_id s' = step_id s ∧ agent_name s' = agent_name s
            ∧ task s' = task s ∧ dependencies s' = dependencies s
            ∧ (status s ≠ PENDING → s' = s)
            ∧ (status s' = PENDING → s' = s).
Proof.
  intros Hw Hex.
  destruct (execute_workflow_outcome e workflow_id agents steps _ Hw
              (reaches_here _ _))
    as (st' & Hre & _ & _ & Hcase).
  assert (workflows e' = <[workflow_id := ls_steps st']> (workflows e)) as Hws.
  { destruct Hcase as [[_ Heq]|[_ Heq]]; rewrite Heq in Hex;
      by injection Hex as <- <- <-. }
  rewrite Hws. split.
  { intros other Hne. by rewrite lookup_insert_ne. }
  exists (ls_steps st'). rewrite lookup_insert_eq.
  destruct (reaches_steps _ _ _ Hre) as [Hlen Hpt]. simpl in Hlen, Hpt.
  split_and!; [done | done |].
  intros pos s Hs. destruct (Hpt pos s Hs) as (s' & Hs' & (?&?&?&?) & Hfz).
  exists s'. split_and!; try done.
  intros Hp. pose proof (reaches_pending _ _ _ _ _ Hre Hs' Hp) as Hback.
  simpl in Hback. congruence.
Qed.

(** ** Dependencies come first *)

(** What holds of [completed_steps] during an execution of [steps]: each id
    in it is the id of a step object that was PENDING when the execution
    began and is COMPLETED now. *)
Definition completed_here (steps : list WorkflowStep) (st : LoopState)
    (x : string) : Prop :=
  ∃ pos s0 s, steps !! pos = Some s0 ∧ status s0 = PENDING
    ∧ ls_steps st !! pos = Some s ∧ step_id s = x ∧ status s = COMPLETED.

Lemma completed_here_round agents steps st i ready x :
  ready_steps (ls_steps st) (ls_completed st) = i :: ready →
  completed_here steps st x →
  completed_here steps (run_round agents (i :: ready) st) x.
Proof.
  intros Hr (pos & s0 & s & Hs0 & Hp0 & Hs & Hid & Hst).
  exists pos, s0, s. split_and!; try done.
  destruct (run_round_steps agents (i :: ready) st pos s Hs)
    as (s' & Hs' & _ & Hout & _).
  rewrite <- Hout at 1; [done|]. rewrite <- Hr. intros Hd.
  pose proof (ready_is_pending _ _ _ _ Hd Hs). congruence.
Qed.

(** The same of [results]: each entry is the result carried by a step
    object that was PENDING when the execution began and is COMPLETED now. *)
Definition recorded_here (steps : list WorkflowStep) (st : LoopState)
    (x : string) (v : pyval) : Prop :=
  ∃ pos s0 s, steps !! pos = Some s0 ∧ status s0 = PENDING
    ∧ ls_steps st !! pos = Some s ∧ step_id s = x ∧ status s = COMPLETED
    ∧ result s = Some v.

Lemma reaches_recorded_here agents steps st :
  reaches agents (initial_loop steps) st →
  ∀ x v, ls_results st !! x = Some v → recorded_here steps st x v.
Proof.
  intros Hre.
  cut (reaches agents (initial_loop steps) st
       ∧ ∀ x v, ls_results st !! x = Some v → recorded_here steps st x v);
    [by intros [_ ?]|].
  apply (reaches_invariant agents
           (λ st, reaches agents (initial_loop steps) st
                  ∧ ∀ x v, ls_results st !! x = Some v
                           → recorded_here steps st x v)
           (initial_loop steps) st); [|done|].
  - intros st0 i ready [Hre0 Hall] Hlt Hr. split.
    { eapply reaches_trans; [done|].
      eapply reaches_round; [done | done | constructor]. }
    intros x v Hx.
    destruct (run_round_new agents (i :: ready) st0 x v) as [Hold|Hnew]; [| done | |].
    { rewrite <- Hr. apply NoDup_ready_steps. }
    + destruct (Hall x v Hold) as (pos & s0 & s & Hs0 & Hp0 & Hs & Hid & Hst & Hres).
      exists pos, s0, s. split_and!; try done.
      destruct (run_round_steps agents (i :: ready) st0 pos s Hs)
        as (s' & Hs' & _ & Hout & _).
      rewrite <- Hout at 1; [done|]. rewrite <- Hr. intros Hd.
      pose proof (ready_is_pending _ _ _ _ Hd Hs). congruence.
    + destruct Hnew as (pos & s' & Hin & Hs' & Hid & Hst & Hres).
      rewrite <- Hr in Hin.
      pose proof Hin as (s & Hs & _)%elem_of_ready_steps.
      pose proof (ready_is_pending _ _ _ _ Hin Hs) as Hp.
      exists pos, s, s'. split_and!; try done.
      by apply (reaches_pending _ _ _ _ _ Hre0 Hs Hp).
  - split; [constructor|]. intros x v Hx. simpl in Hx.
    by rewrite lookup_empty in Hx.
Qed.

Lemma reaches_completed_here agents steps st :
  reaches agents (initial_loop steps) st →
  ∀ x, x ∈ ls_completed st → completed_here steps st x.
Proof.
  intros Hre x Hx.
  assert (loop_inv st) as Hinv
    by (eapply reaches_inv; [done | apply initial_loop_inv]).
  rewrite <- (proj2 Hinv) in Hx. apply elem_of_dom in Hx as [v Hv].
  destruct (reaches_recorded_here agents steps st Hre x v Hv)
    as (pos & s0 & s & ? & ? & ? & ? & ? & _).
  by exists pos, s0, s.
Qed.

(** A worker invocation of an execution of [steps], seen from the state
    [st]: it is made on a step that was PENDING when the execution began and
    whose capability is in the table, and every dependency of that step is
    the id of a step completed in this execution. *)
Definition launched_in_order (agents : gmap string Agent)
    (steps : list WorkflowStep) (st : LoopState) (c : Call) : Prop :=
  ∃ s, steps !! call_index c = Some s ∧ status s = PENDING
    ∧ call_step_id c = step_id s
    ∧ is_Some (agents !! agent_name s)
    ∧ ∀ dep, dep ∈ dependencies s → completed_here steps st dep.

Lemma reaches_launched agents steps st :
  reaches agents (initial_loop steps) st →
  ∀ c, c ∈ ls_calls st → launched_in_order agents steps st c.
Proof.
  intros Hre.
  cut (reaches agents (initial_loop steps) st
       ∧ ∀ c, c ∈ ls_calls st → launched_in_order agents steps st c);
    [by intros [_ ?]|].
  apply (reaches_invariant agents
           (λ st, reaches agents (initial_loop steps) st
                  ∧ ∀ c, c ∈ ls_calls st → launched_in_order agents steps st c)
           (initial_loop steps) st); [|done|].
  - intros st0 i ready [Hre0 Hall] Hlt Hr. split.
    { eapply reaches_trans; [done|].
      eapply reaches_round; [done | done | constructor]. }
    destruct (run_round_calls agents (i :: ready) st0) as (new & -> & Hsub & Hnew).
    intros c [Hin|Hin]%elem_of_app.
    + destruct (Hall c Hin) as (s & ? & ? & ? & ? & Hdeps).
      exists s. split_and!; try done.
      intros dep Hdep. eapply completed_here_round; [done|]. by apply Hdeps.
    + destruct (Hnew c Hin) as (s & agent & Hs & Hag & Hid & _).
      assert (call_index c ∈ ready_steps (ls_steps st0) (ls_completed st0))
        as Hrd.
      { rewrite Hr. eapply elem_of_sublist; [|done].
        by apply list_elem_of_fmap_2. }
      pose proof (ready_is_pending _ _ _ _ Hrd Hs) as Hp.
      apply elem_of_ready_steps in Hrd as (s1 & Hs1 & [_ Hdone]%is_ready_spec).
      assert (s1 = s) as -> by congruence.
      exists s. split_and!; [| done | done | by rewrite Hag |].
      * by apply (reaches_pending _ _ _ _ _ Hre0 Hs Hp).
      * intros dep Hdep. eapply completed_here_round; [done|].
        apply (reaches_completed_here agents); [done|]. by apply Hdone.
  - split; [constructor|]. by intros c ?%elem_of_nil.
Qed.

(** The final state of an execution of a defined workflow, with what the
    call returns. *)
Lemma execute_workflow_final e workflow_id agents steps e' out calls :
  workflows e !! workflow_id = Some steps →
  execute_workflow e workflow_id agents = (e', out, calls) →
  ∃ st, reaches agents (initial_loop steps) st ∧ loop_inv st
    ∧ ready_steps (ls_steps st) (ls_completed st) = []
    ∧ calls = ls_calls st
    ∧ ((has_pending (ls_steps st) = true
        ∧ e' = engine_failed e workflow_id st stall_message
        ∧ out = Exn stall_message)
       ∨ (has_pending (ls_steps st) = false
          ∧ e' = engine_completed e workflow_id st
          ∧ out = Ok (mkResult workflow_id "completed" (ls_results st)))).
Proof.
  intros Hw Hex.
  destruct (execute_workflow_outcome e workflow_id agents steps _ Hw
              (reaches_here _ _))
    as (st & Hre & Hinv & Hready & [[Hp Heq]|[Hp Heq]]);
    rewrite Heq in Hex; injection Hex as <- <- <-;
    exists st; split_and!; try done; [left|right]; done.
Qed.

(** No worker is invoked before the dependencies of its step are completed:
    every invocation of an execution is made on a step that was PENDING when
    the execution began, names a capability of the table, and has each of
    its dependencies naming a step that this execution took from PENDING to
    COMPLETED.  A dependency completed by an earlier execution does not
    count. *)
Theorem dependencies_complete_first e workflow_id agents steps e' out calls :
  workflows e !! workflow_id = Some steps →
  execute_workflow e workflow_id agents = (e', out, calls) →
  ∃ final,
    workflows e' !! workflow_id = Some final
    ∧ ∀ c, c ∈ calls →
        ∃ s, steps !! call_index c = Some s ∧ status s = PENDING
          ∧ call_step_id c = step_id s
          ∧ is_Some (agents !! agent_name s)
          ∧ ∀ dep, dep ∈ dependencies s →
              ∃ pos before after,
                steps !! pos = Some before ∧ status before = PENDING
                ∧ final !! pos = Some after ∧ step_id after = dep
                ∧ status after = COMPLETED.
Proof.
  intros Hw Hex.
  destruct (execute_workflow_final _ _ _ _ _ _ _ Hw Hex)
    as (st & Hre & _ & _ & -> & Hcase).
  exists (ls_steps st). split.
  { destruct Hcase as [(_ & -> & _)|(_ & -> & _)]; simpl;
      by rewrite lookup_insert_eq. }
  intros c Hc. by apply (reaches_launched agents steps st Hre c Hc).
Qed.

(** ** What the results map holds *)

(** Every entry of the results an execution returns is the result of a step
    of that id which the execution took from PENDING to COMPLETED, and is
    the [result] that step object carries; so a step completed by an earlier
    execution has no entry. *)
Theorem results_are_completed_steps e workflow_id agents steps e' r calls :
  workflows e !! workflow_id = Some steps →
  execute_workflow e workflow_id agents = (e', Ok r, calls) →
  wr_workflow_id r = workflow_id ∧ wr_status r = "completed"
  ∧ ∃ final,
      workflows e' !! workflow_id = Some final
      ∧ Forall (λ s, status s ≠ PENDING) final
      ∧ ∀ x v, wr_results r !! x = Some v →
          ∃ pos before after,
            steps !! pos = Some before ∧ status before = PENDING
            ∧ final !! pos = Some after ∧ step_id after = x
            ∧ status after = COMPLETED ∧ result after = Some v.
Proof.
  intros Hw Hex.
  destruct (execute_workflow_final _ _ _ _ _ _ _ Hw Hex)
    as (st & Hre & Hinv & _ & _ & [(_ & _ & [=])|(Hnp & -> & [= ->])]).
  split_and!; [done | done |].
  exists (ls_steps st). split_and!.
  - simpl. by rewrite lookup_insert_eq.
  - apply Forall_forall. intros s Hs Hp.
    assert (has_pending (ls_steps st) = true); [|congruence].
    apply has_pending_spec. by exists s.
  - simpl. intros x v Hx.
    by apply (reaches_recorded_here agents steps st Hre x v Hx).
Qed.

(** ** Executing again after a stall *)

Lemma is_ready_mono (completed completed' : gset string) s :
  completed ⊆ completed' →
  is_ready completed s = true → is_ready completed' s = true.
Proof.
  intros Hsub [Hp Hall]%is_ready_spec. apply is_ready_spec.
  split; [done|]. intros dep Hdep. apply Hsub. by apply Hall.
Qed.

Lemma ready_steps_empty_mono steps (completed completed' : gset string) :
  completed ⊆ completed' →
  ready_steps steps completed' = [] → ready_steps steps completed = [].
Proof.
  intros Hsub Hnil.
  destruct (ready_steps steps completed) as [|i ready] eqn:Hr; [done|].
  assert (i ∈ ready_steps steps completed) as Hin by (rewrite Hr; by left).
  apply elem_of_ready_steps in Hin as (s & Hs & Hrd).
  assert (i ∈ ready_steps steps completed') as Hin'.
  { apply elem_of_ready_steps. exists s. split; [done|].
    by eapply is_ready_mono. }
  rewrite Hnil in Hin'. by apply elem_of_nil in Hin'.
Qed.

(** A stalled workflow cannot be resumed: when an execution of a defined
    workflow raised, executing the same id again, with whatever table,
    raises the stall error at once, invokes no worker and leaves the step
    objects as they are.  [completed_steps] starts empty in every
    execution, and the steps the first execution completed are no longer
    PENDING. *)
Theorem stalled_workflow_stays_stalled e workflow_id agents steps e1 msg calls :
  workflows e !! workflow_id = Some steps →
  execute_workflow e workflow_id agents = (e1, Exn msg, calls) →
  msg = stall_message
  ∧ ∀ agents', ∃ e2,
      execute_workflow e1 workflow_id agents' = (e2, Exn stall_message, [])
      ∧ workflows e2 = workflows e1.
Proof.
  intros Hw Hex.
  destruct (execute_workflow_final _ _ _ _ _ _ _ Hw Hex)
    as (st & Hre & Hinv & Hready & _ & [(Hp & -> & [= ->])|(_ & _ & [=])]).
  split; [done|]. intros agents'.
  assert (_execute_steps (ls_steps st) agents'
          = Raised (initial_loop (ls_steps st)) stall_message) as Hrun.
  { unfold _execute_steps. rewrite execute_steps_loop_S.
    unfold initial_loop. cbn [ls_steps ls_completed].
    rewrite (ready_steps_empty_mono _ ∅ (ls_completed st)), Hp;
      [| set_solver | done].
    rewrite bool_decide_eq_true_2; [done|].
    rewrite size_empty.
    apply has_pending_spec in Hp as (s & [pos Hs]%list_elem_of_lookup & _).
    apply lookup_lt_Some in Hs. lia. }
  assert (workflows (engine_failed e workflow_id st stall_message) !! workflow_id
          = Some (ls_steps st)) as Hw1
    by (simpl; by rewrite lookup_insert_eq).
  rewrite (execute_workflow_raised _ _ _ _ _ _ Hw1 Hrun).
  eexists. split; [done|]. simpl. by rewrite insert_insert_eq.
Qed.

(** ** Status records and history *)

(** Every execution of a defined workflow ends, and leaves one record of
    it: when it returns, the status record of the id says completed without
    an error and the history has grown by one completed entry holding the
    returned results; when it raises, the status record says failed with
    the text of the exception and the history has grown by one failed entry
    with that text.  Executing an id that is not defined leaves the status
    records and the history as they were. *)
Theorem execution_is_recorded e workflow_id agents :
  (is_Some (workflows e !! workflow_id) →
   (∃ r, (execute_workflow e workflow_id agents).1.2 = Ok r
      ∧ get_workflow_status (execute_workflow e workflow_id agents).1.1
          workflow_id
        = Some (mkActive "completed" None)
      ∧ get_workflow_history (execute_workflow e workflow_id agents).1.1
        = get_workflow_history e
          ++ [mkHistory workflow_id "completed" (Some (wr_results r)) None])
   ∨ (∃ msg, (execute_workflow e workflow_id agents).1.2 = Exn msg
        ∧ get_workflow_status (execute_workflow e workflow_id agents).1.1
            workflow_id
          = Some (mkActive "failed" (Some msg))
        ∧ get_workflow_history (execute_workflow e workflow_id agents).1.1
          = get_workflow_history e
            ++ [mkHistory workflow_id "failed" None (Some msg)]))
  ∧ (workflows e !! workflow_id = None →
     ∀ other,
       get_workflow_status (execute_workflow e workflow_id agents).1.1 other
       = get_workflow_status e other
       ∧ get_workflow_history (execute_workflow e workflow_id agents).1.1
         = get_workflow_history e).
Proof.
  split.
  - intros [steps Hw].
    destruct (execute_workflow_outcome e workflow_id agents steps _ Hw
                (reaches_here _ _))
      as (st & _ & _ & _ & [[_ ->]|[_ ->]]).
    + right. exists stall_message. unfold get_workflow_status. simpl.
      by rewrite lookup_insert_eq.
    + left. eexists. unfold get_workflow_status. simpl.
      by rewrite lookup_insert_eq.
  - intros Hw other. unfold execute_workflow. by rewrite Hw.
Qed.

(** ** Cancellation *)

(** What an execution returns, the workers it invokes and the step objects
    it leaves depend on the workflow definitions only. *)
Lemma execute_workflow_reads_steps e1 e2 workflow_id agents :
  workflows e1 = workflows e2 →
  (execute_workflow e1 workflow_id agents).1.2
  = (execute_workflow e2 workflow_id agents).1.2
  ∧ (execute_workflow e1 workflow_id agents).2
    = (execute_workflow e2 workflow_id agents).2
  ∧ workflows (execute_workflow e1 workflow_id agents).1.1
    = workflows (execute_workflow e2 workflow_id agents).1.1.
Proof.
  intros Hsame. unfold execute_workflow. rewrite Hsame.
  destruct (workflows e2 !! workflow_id) as [steps|]; [|done].
  destruct (_execute_steps steps agents); simpl; by rewrite ?Hsame.
Qed.

(** Cancelling is bookkeeping only.  [cancel_workflow] answers whether the
    id has a status record, writes cancelled over the status of that record
    and touches neither the step objects nor the history; an execution
    after the cancellation invokes the same workers, returns or raises the
    same and leaves the same step objects and status record as it does
    without the cancellation. *)
Theorem cancellation_is_advisory e workflow_id agents :
  ((cancel_workflow e workflow_id).2 = true
   ↔ is_Some (get_workflow_status e workflow_id))
  ∧ workflows (cancel_workflow e workflow_id).1 = workflows e
  ∧ workflow_history (cancel_workflow e workflow_id).1 = workflow_history e
  ∧ (is_Some (get_workflow_status e workflow_id) →
     ∃ record,
       get_workflow_status (cancel_workflow e workflow_id).1 workflow_id
       = Some record ∧ aw_status record = "cancelled")
  ∧ (∀ other, other ≠ workflow_id →
       get_workflow_status (cancel_workflow e workflow_id).1 other
       = get_workflow_status e other)
  ∧ (execute_workflow (cancel_workflow e workflow_id).1 workflow_id agents).1.2
    = (execute_workflow e workflow_id agents).1.2
  ∧ (execute_workflow (cancel_workflow e workflow_id).1 workflow_id agents).2
    = (execute_workflow e workflow_id agents).2
  ∧ workflows
      (execute_workflow (cancel_workflow e workflow_id).1 workflow_id agents).1.1
    = workflows (execute_workflow e workflow_id agents).1.1
  ∧ (is_Some (workflows e !! workflow_id) →
     active_workflows
       (execute_workflow (cancel_workflow e workflow_id).1 workflow_id agents).1.1
     = active_workflows (execute_workflow e workflow_id agents).1.1).
Proof.
  assert (workflows (cancel_workflow e workflow_id).1 = workflows e) as Hsame.
  { unfold cancel_workflow. by destruct (active_workflows e !! workflow_id). }
  pose proof (execute_workflow_reads_steps _ _ workflow_id agents Hsame)
    as (Hout & Hcalls & Hsteps).
  split_and!; try done.
  - unfold cancel_workflow, get_workflow_status.
    destruct (active_workflows e !! workflow_id); simpl;
      [by split; [eexists|] | by split; [|intros [? ?]]].
  - unfold cancel_workflow. by destruct (active_workflows e !! workflow_id).
  - unfold cancel_workflow, get_workflow_status. intros [record Hrecord].
    rewrite Hrecord. simpl. eexists. by rewrite lookup_insert_eq.
  - intros other Hne. unfold cancel_workflow, get_workflow_status.
    destruct (active_workflows e !! workflow_id); simpl; [|done].
    by rewrite lookup_insert_ne.
  - intros [steps Hw].
    pose proof (execute_workflow_ends e workflow_id agents) as Hends.
    unfold execute_workflow in *. rewrite Hsame, Hw in *.
    unfold cancel_workflow.
    destruct (_execute_steps steps agents); simpl in *; [| |done];
      destruct (active_workflows e !! workflow_id); simpl;
      by rewrite ?insert_insert_eq.
Qed.

(** ** How many workers an execution invokes *)

Lemma length_without (x : nat) (l : list nat) :
  NoDup l →
  length l = length (filter (λ i, i ≠ x) l) + (if decide (x ∈ l) then 1 else 0).
Proof.
  induction l as [|i l IH]; intros Hnd; [done|].
  apply NoDup_cons in Hnd as [Hnotin Hnd]. specialize (IH Hnd).
  rewrite filter_cons. destruct (decide (i ≠ x)) as [Hne|Heq]; simpl.
  - destruct (decide (x ∈ l)) as [Hin|Hout].
    + rewrite decide_True by (by right). lia.
    + rewrite decide_False; [lia|]. intros [?|?]%elem_of_cons; [congruence|done].
  - assert (i = x) as -> by (destruct (decide (i = x)); [done|by destruct Heq]).
    rewrite decide_True by (by left).
    rewrite decide_False in IH by done. lia.
Qed.

(** Pairwise distinct positions of PENDING steps are at most as many as
    there are PENDING steps. *)
Lemma pending_positions_le steps (l : list nat) :
  NoDup l →
  (∀ i, i ∈ l → ∃ s, steps !! i = Some s ∧ status s = PENDING) →
  length l ≤ pending_count steps.
Proof.
  revert l. induction steps as [|s rest IH]; intros l Hnd Hall.
  { destruct l as [|i l]; [done|].
    destruct (Hall i) as (? & Hs & _); [by left | done]. }
  set (l' := Nat.pred <$> filter (λ i, i ≠ 0) l).
  assert (length l' ≤ pending_count rest) as Hrec.
  { apply IH.
    - apply NoDup_fmap_2_strong; [|by apply NoDup_filter].
      intros i j [Hi _]%list_elem_of_filter [Hj _]%list_elem_of_filter. lia.
    - intros i' (i & -> & [Hne Hin]%list_elem_of_filter)%list_elem_of_fmap.
      destruct (Hall i Hin) as (s' & Hs' & Hp). exists s'. split; [|done].
      destruct i as [|i]; [done|]. done. }
  rewrite (length_without 0 l Hnd). unfold l' in Hrec.
  rewrite length_fmap in Hrec. unfold pending_count in *.
  rewrite filter_cons. destruct (decide (0 ∈ l)) as [Hin|Hout].
  - destruct (Hall 0 Hin) as (s' & [= <-] & Hp).
    rewrite decide_True by done. simpl. lia.
  - destruct (decide (status s = PENDING)); simpl; lia.
Qed.

(** An execution invokes at most as many workers as its workflow has PENDING
    steps, no two of them on the same step object; a workflow without a
    PENDING step has no worker invoked. *)
Theorem invocations_bounded e workflow_id agents steps :
  workflows e !! workflow_id = Some steps →
  NoDup (call_index <$> (execute_workflow e workflow_id agents).2)
  ∧ length (execute_workflow e workflow_id agents).2 ≤ pending_count steps
  ∧ (has_pending steps = false →
     (execute_workflow e workflow_id agents).2 = []).
Proof.
  intros Hw.
  destruct (execute_workflow e workflow_id agents) as [[e' out] calls] eqn:Hex.
  destruct (execute_workflow_calls _ _ _ _ _ _ Hex)
    as [(Hnone & _)|(steps0 & steps' & Hw0 & _ & _ & Hnd & Hfacts)];
    [congruence|].
  assert (steps0 = steps) as -> by congruence. simpl.
  assert (length calls ≤ pending_count steps) as Hle.
  { rewrite <- (length_fmap call_index). apply pending_positions_le; [done|].
    intros i (c & -> & Hc)%list_elem_of_fmap. by apply Hfacts. }
  split_and!; [done | done |].
  intros Hnp. destruct calls as [|c calls]; [done|].
  destruct (Hfacts c) as [(s & Hs & Hp) _]; [by left|].
  assert (has_pending steps = true); [|congruence].
  apply has_pending_spec. exists s. split; [|done].
  by eapply list_elem_of_lookup_2.
Qed.

(** ** The properties on the scenarios *)

Section OnScenarios.
Import Scenarios.

Lemma execution_keeps_definition_witness :
  ∃ final,
    workflows (execute_workflow failed_dependency "wf" failing_table).1.1 !! "wf"
    = Some final
    ∧ length final = 2
    ∧ final !! 1 = Some (new_step (step "B" "worker" ["A"])).
Proof.
  destruct (execution_keeps_definition failed_dependency "wf" failing_table
              chain_steps
              (execute_workflow failed_dependency "wf" failing_table).1.1
              (execute_workflow failed_dependency "wf" failing_table).1.2
              (execute_workflow failed_dependency "wf" failing_table).2
              eq_refl eq_refl)
    as [_ (final & Hfinal & Hlen & Hpt)].
  exists final. split; [exact Hfinal|]. split; [exact Hlen|].
  destruct (Hpt 1 (new_step (step "B" "worker" ["A"])) eq_refl)
    as (s' & Hs' & _ & _ & _ & _ & _ & Hpending).
  rewrite Hs'. f_equal. apply Hpending.
  vm_compute in Hfinal. injection Hfinal as <-.
  vm_compute in Hs'. by injection Hs' as <-.
Defined.

Lemma dependencies_complete_first_witness :
  ∃ final,
    workflows (execute_workflow chain "wf" worker_table).1.1 !! "wf" = Some final
    ∧ ∀ c, c ∈ (execute_workflow chain "wf" worker_table).2 →
        ∃ s, chain_steps !! call_index c = Some s ∧ status s = PENDING
          ∧ call_step_id c = step_id s
          ∧ is_Some (worker_table !! agent_name s)
          ∧ ∀ dep, dep ∈ dependencies s →
              ∃ pos before after,
                chain_steps !! pos = Some before ∧ status before = PENDING
                ∧ final !! pos = Some after ∧ step_id after = dep
                ∧ status after = COMPLETED.
Proof.
  apply (dependencies_complete_first chain "wf" worker_table chain_steps
           (execute_workflow chain "wf" worker_table).1.1
           (execute_workflow chain "wf" worker_table).1.2
           (execute_workflow chain "wf" worker_table).2);
    reflexivity.
Defined.

Lemma results_are_completed_steps_witness :
  ∃ final,
    workflows (execute_workflow chain "wf" worker_table).1.1 !! "wf" = Some final
    ∧ Forall (λ s, status s ≠ PENDING) final
    ∧ ∀ x v,
        (<["B" := report]> ({["A" := report]} : gmap string pyval)) !! x = Some v →
        ∃ pos before after,
          chain_steps !! pos = Some before ∧ status before = PENDING
          ∧ final !! pos = Some after ∧ step_id after = x
          ∧ status after = COMPLETED ∧ result after = Some v.
Proof.
  apply (proj2 (proj2
    (results_are_completed_steps chain "wf" worker_table chain_steps
       (execute_workflow chain "wf" worker_table).1.1
       (mkResult "wf" "completed" (<["B" := report]> {["A" := report]}))
       (execute_workflow chain "wf" worker_table).2
       eq_refl eq_refl))).
Defined.

Lemma stalled_workflow_stays_stalled_witness :
  ∃ e2,
    execute_workflow (execute_workflow failed_dependency "wf" failing_table).1.1
      "wf" worker_table
    = (e2, Exn stall_message, [])
    ∧ workflows e2
      = workflows (execute_workflow failed_dependency "wf" failing_table).1.1.
Proof.
  apply (proj2 (stalled_workflow_stays_stalled failed_dependency "wf"
                  failing_table chain_steps
                  (execute_workflow failed_dependency "wf" failing_table).1.1
                  stall_message
                  (execute_workflow failed_dependency "wf" failing_table).2
                  eq_refl eq_refl)).
Defined.

Lemma execution_is_recorded_witness :
  is_Some (workflows cycle !! "wf")
  ∧ get_workflow_status (execute_workflow cycle "wf" worker_table).1.1 "wf"
    = Some (mkActive "failed" (Some stall_message))
  ∧ workflows cycle !! "other" = None
  ∧ get_workflow_history (execute_workflow cycle "other" worker_table).1.1
    = get_workflow_history cycle.
Proof.
  destruct (execution_is_recorded cycle "wf" worker_table) as [Hdefined _].
  destruct (execution_is_recorded cycle "other" worker_table) as [_ Hmissing].
  split; [by eexists|]. split.
  - destruct (Hdefined (mk_is_Some _ _ eq_refl))
      as [(r & Hout & _)|(msg & Hout & Hstatus & _)].
    + vm_compute in Hout. discriminate Hout.
    + rewrite Hstatus. vm_compute in Hout. by injection Hout as <-.
  - split; [reflexivity|]. apply (Hmissing eq_refl "wf").
Defined.

Lemma cancellation_is_advisory_witness :
  is_Some
    (get_workflow_status (execute_workflow chain "wf" worker_table).1.1 "wf")
  ∧ ∃ record,
      get_workflow_status
        (cancel_workflow (execute_workflow chain "wf" worker_table).1.1 "wf").1
        "wf"
      = Some record ∧ aw_status record = "cancelled".
Proof.
  split; [by eexists|].
  destruct (cancellation_is_advisory
              (execute_workflow chain "wf" worker_table).1.1 "wf" worker_table)
    as (_ & _ & _ & Hcancelled & _).
  apply Hcancelled. by eexists.
Defined.

Lemma invocations_bounded_witness :
  workflows chain !! "wf" = Some chain_steps
  ∧ length (execute_workflow chain "wf" worker_table).2
    ≤ pending_count chain_steps.
Proof.
  split; [reflexivity|].
  apply (invocations_bounded chain "wf" worker_table chain_steps eq_refl).
Defined.

End OnScenarios.

End EngineMore.

(** * Outcomes and the steps they belong to *)

Module EngineOutcomes.
Import Engine EngineQueries EngineFacts EngineMore.

(** Every step names a capability of the table. *)
Definition capabilities_present (agents : gmap string Agent)
    (steps : list WorkflowStep) : Prop :=
  ∀ s, s ∈ steps → is_Some (agents !! agent_name s).

Lemma capabilities_static agents steps steps' :
  length steps' = length steps →
  (∀ pos s, steps !! pos = Some s →
     ∃ s', steps' !! pos = Some s' ∧ same_static s s') →
  capabilities_present agents steps → capabilities_present agents steps'.
Proof.
  intros Hlen Hpt Hcap s' [pos Hs']%list_elem_of_lookup.
  assert (is_Some (steps !! pos)) as [s Hs].
  { apply lookup_lt_is_Some. rewrite <- Hlen. by eapply lookup_lt_Some. }
  destruct (Hpt pos s Hs) as (s1 & Hs1 & (_ & Hname & _)).
  assert (s1 = s') as -> by congruence. rewrite Hname.
  apply Hcap. by eapply list_elem_of_lookup_2.
Qed.

(** With the coroutines on pairwise distinct step objects, each leaves on
    its own step object what its worker made of the payload. *)
Lemma gather_exact tasks steps calls steps' outcomes calls' t s :
  gather tasks steps calls = (steps', outcomes, calls') →
  NoDup (l_index <$> tasks) → t ∈ tasks → steps !! l_index t = Some s →
  steps' !! l_index t
  = Some (after_step (l_agent t (task_data s (l_previous t))) s).
Proof.
  revert steps calls steps' outcomes calls'.
  induction tasks as [|t0 tasks IH];
    intros steps calls steps' outcomes calls' Hg Hnd Hin Hs; simpl in Hg.
  { by apply elem_of_nil in Hin. }
  rewrite fmap_cons in Hnd. apply NoDup_cons in Hnd as [Hnotin Hnd].
  destruct (steps !! l_index t0) as [s0|] eqn:Hs0.
  - fold (after_step (l_agent t0 (task_data s0 (l_previous t0))) s0) in Hg.
    set (s1 := after_step _ s0) in Hg.
    destruct (gather tasks (<[l_index t0 := s1]> steps) _)
      as [[steps2 outcomes2] calls2] eqn:Hrec.
    injection Hg as <- <- <-.
    apply elem_of_cons in Hin as [->|Hin].
    + assert (s = s0) as -> by congruence.
      destruct (gather_steps _ _ _ _ _ _ Hrec) as [_ Hpt].
      destruct (Hpt (l_index t0) s1) as (s' & Hs' & _ & Hout & _).
      { apply list_lookup_insert_eq. by eapply lookup_lt_Some. }
      by rewrite (Hout Hnotin) in Hs'.
    + eapply IH; [done | done | done |].
      rewrite list_lookup_insert_ne; [done|].
      intros Heq. apply Hnotin. rewrite Heq. by apply list_elem_of_fmap_2.
  - apply elem_of_cons in Hin as [->|Hin]; [congruence|]. by eapply IH.
Qed.

(** The step object a ready step becomes in a round in which every ready
    step has its capability in the table: the outcome of its own worker on
    its own payload is recorded on it. *)
Lemma run_round_aligned agents st pos s (agent : Agent) :
  let ready := ready_steps (ls_steps st) (ls_completed st) in
  capabilities_present agents (ls_steps st) →
  pos ∈ ready → ls_steps st !! pos = Some s →
  agents !! agent_name s = Some agent →
  let outcome := agent (task_data s (previous_results (ls_results st) s)) in
  ls_steps (run_round agents ready st) !! pos
  = Some (record_step outcome (after_step outcome s))
  ∧ ∀ r, outcome = inl r →
      step_id s ∈ ls_completed (run_round agents ready st).
Proof.
  intros ready Hcap Hin Hs Hag outcome.
  destruct (run_round_unfold agents ready st)
    as (steps1 & tasks & steps2 & outcomes & calls & Hl & Hg & ->).
  destruct (launch_all agents (ls_results st) ready (ls_steps st))
    as (tasks' & Hl' & Hidx).
  { intros q (sq & Hsq & _)%elem_of_ready_steps.
    destruct (Hcap sq) as [a Ha]; [by eapply list_elem_of_lookup_2|].
    by exists sq, a. }
  rewrite Hl in Hl'. injection Hl' as -> <-.
  destruct (launch_tasks _ _ _ _ _ _ Hl) as (_ & Ht & _).
  assert (NoDup (l_index <$> tasks)) as Hnd
    by (rewrite Hidx; apply NoDup_ready_steps).
  assert (Forall2 (λ t o, ∃ s, ls_steps st !! l_index t = Some s
                     ∧ o = l_agent t (task_data s (l_previous t)))
            tasks outcomes) as Hout.
  { eapply gather_outcomes; [done|]. intros t Hint.
    destruct (Ht t Hint) as (s' & Hs' & _). by rewrite Hs'. }
  pose proof Hin as [k Hk]%list_elem_of_lookup.
  rewrite <- Hidx in Hk. apply list_lookup_fmap_Some in Hk as (t & Hpos & Htk).
  symmetry in Hpos.
  destruct (Forall2_lookup_l _ _ _ _ _ Hout Htk) as (o & Hok & s' & Hs' & Ho).
  destruct (Ht t) as (s1 & Hs1 & _ & Hag1 & Hprev);
    [by eapply list_elem_of_lookup_2|].
  rewrite Hpos in Hs', Hs1.
  assert (s' = s) as -> by congruence. assert (s1 = s) as -> by congruence.
  assert (Some agent = Some (l_agent t)) as [= Hagent]
    by (etrans; [symmetry; exact Hag | exact Hag1]).
  assert (o = outcome) as -> by (subst outcome; by rewrite Ho, Hprev, Hagent).
  assert ((pos, outcome) ∈ zip ready outcomes) as Hpair.
  { eapply list_elem_of_lookup_2 with (i := k).
    apply lookup_zip_with_Some. exists pos, outcome.
    split_and!; [done | | done].
    rewrite <- Hidx, list_lookup_fmap, Htk. simpl. by rewrite Hpos. }
  assert (steps2 !! pos = Some (after_step outcome s)) as Hs2.
  { rewrite <- Hpos.
    rewrite (gather_exact _ _ _ _ _ _ t s Hg Hnd);
      [| by eapply list_elem_of_lookup_2 | by rewrite Hpos].
    subst outcome. by rewrite Hprev, Hagent. }
  set (st2 := {| ls_steps := steps2; ls_results := ls_results st;
                 ls_completed := ls_completed st; ls_calls := calls |}).
  destruct (record_fold_pair (zip ready outcomes) st2 pos outcome
              (after_step outcome s)) as [Hfinal Hdone]; [| done | done |].
  { eapply sublist_NoDup; [apply NoDup_ready_steps | apply fst_zip_sublist]. }
  split; [done|]. intros r Hr.
  rewrite <- (proj1 (after_step_static outcome s)). by apply (Hdone r).
Qed.

(** With every coroutine on a step object of the list, one invocation is
    logged for each, in order. *)
Lemma gather_calls_all tasks steps calls steps' outcomes calls' :
  gather tasks steps calls = (steps', outcomes, calls') →
  (∀ t, t ∈ tasks → is_Some (steps !! l_index t)) →
  ∃ new, calls' = calls ++ new ∧ call_index <$> new = l_index <$> tasks.
Proof.
  revert steps calls steps' outcomes calls'.
  induction tasks as [|t tasks IH];
    intros steps calls steps' outcomes calls' Hg Hall; simpl in Hg.
  { injection Hg as <- <- <-. exists []. by rewrite app_nil_r. }
  destruct (Hall t) as [s Hs]; [by left|]. rewrite Hs in Hg.
  destruct (gather tasks _ _) as [[steps2 outcomes2] calls2] eqn:Hrec.
  injection Hg as <- <- <-.
  destruct (IH _ _ _ _ _ Hrec) as (new & -> & Hidx).
  { intros t' Hin. apply lookup_lt_is_Some. rewrite length_insert.
    apply lookup_lt_is_Some, Hall. by right. }
  eexists (_ :: new). split; [by rewrite <- app_assoc|].
  rewrite !fmap_cons. by rewrite Hidx.
Qed.

(** In a round in which every ready step has its capability in the table, a
    worker is invoked for each ready step. *)
Lemma run_round_invokes agents st pos :
  let ready := ready_steps (ls_steps st) (ls_completed st) in
  capabilities_present agents (ls_steps st) →
  pos ∈ ready →
  ∃ c, c ∈ ls_calls (run_round agents ready st) ∧ call_index c = pos.
Proof.
  intros ready Hcap Hin.
  destruct (run_round_unfold agents ready st)
    as (steps1 & tasks & steps2 & outcomes & calls & Hl & Hg & ->).
  rewrite record_fold_calls. simpl.
  destruct (launch_all agents (ls_results st) ready (ls_steps st))
    as (tasks' & Hl' & Hidx).
  { intros q (sq & Hsq & _)%elem_of_ready_steps.
    destruct (Hcap sq) as [a Ha]; [by eapply list_elem_of_lookup_2|].
    by exists sq, a. }
  rewrite Hl in Hl'. injection Hl' as -> <-.
  destruct (launch_tasks _ _ _ _ _ _ Hl) as (_ & Ht & _).
  destruct (gather_calls_all _ _ _ _ _ _ Hg) as (new & -> & Hnew).
  { intros t Hint. destruct (Ht t Hint) as (s' & Hs' & _). by rewrite Hs'. }
  rewrite <- Hidx, <- Hnew in Hin.
  apply list_elem_of_fmap in Hin as (c & -> & Hc).
  exists c. split; [|done]. apply elem_of_app. by right.
Qed.

(** What an execution of [steps] has made of the step objects by the state
    [st], when every capability is in the table: the step of each logged
    invocation carries what its own worker made of the logged payload, and a
    step that was PENDING is as it was unless a worker was invoked for it. *)
Definition settled (agents : gmap string Agent) (steps : list WorkflowStep)
    (st : LoopState) : Prop :=
  (∀ c, c ∈ ls_calls st →
     ∃ s (agent : Agent),
       steps !! call_index c = Some s ∧ status s = PENDING
       ∧ agents !! agent_name s = Some agent
       ∧ ls_steps st !! call_index c
         = Some (record_step (agent (call_payload c))
                   (after_step (agent (call_payload c)) s)))
  ∧ (∀ pos s, steps !! pos = Some s → status s = PENDING →
       ls_steps st !! pos = Some s
       ∨ ∃ c, c ∈ ls_calls st ∧ call_index c = pos).

Lemma reaches_settled agents steps st :
  capabilities_present agents steps →
  reaches agents (initial_loop steps) st → settled agents steps st.
Proof.
  intros Hcap Hre.
  cut (reaches agents (initial_loop steps) st ∧ settled agents steps st);
    [by intros [_ ?]|].
  apply (reaches_invariant agents
           (λ st, reaches agents (initial_loop steps) st
                  ∧ settled agents steps st)
           (initial_loop steps) st); [|done|].
  - intros st0 i ready [Hre0 [Hcalls Hsteps]] Hlt Hr. split.
    { eapply reaches_trans; [done|].
      eapply reaches_round; [done | done | constructor]. }
    assert (capabilities_present agents (ls_steps st0)) as Hcap0.
    { destruct (reaches_steps _ _ _ Hre0) as [Hlen Hpt].
      apply (capabilities_static agents steps); [done | | done].
      intros pos s Hs. destruct (Hpt pos s Hs) as (s' & ? & ? & _).
      by exists s'. }
    destruct (run_round_calls agents (i :: ready) st0)
      as (new & Hnewcalls & Hsub & Hnew).
    split.
    + intros c Hc. rewrite Hnewcalls in Hc.
      apply elem_of_app in Hc as [Hc|Hc].
      * destruct (Hcalls c Hc) as (s & agent & Hs & Hp & Hag & Hfinal).
        exists s, agent. split_and!; [done | done | done |].
        destruct (run_round_steps agents (i :: ready) st0 _ _ Hfinal)
          as (s' & Hs' & _ & Hout & _).
        rewrite Hs'. f_equal. apply Hout. rewrite <- Hr. intros Hd.
        pose proof (ready_is_pending _ _ _ _ Hd Hfinal) as Hpending.
        destruct (record_step_status (agent (call_payload c))
                    (after_step (agent (call_payload c)) s)); congruence.
      * destruct (Hnew c Hc) as (s & agent & Hs & Hag & _ & Hpayload).
        assert (call_index c ∈ ready_steps (ls_steps st0) (ls_completed st0))
          as Hrd.
        { rewrite Hr. eapply elem_of_sublist; [|done].
          by apply list_elem_of_fmap_2. }
        pose proof (ready_is_pending _ _ _ _ Hrd Hs) as Hp.
        exists s, agent. split_and!; [| done | done |].
        -- by apply (reaches_pending _ _ _ _ _ Hre0 Hs Hp).
        -- rewrite Hpayload, <- Hr.
           by apply (proj1 (run_round_aligned agents st0 (call_index c) s agent
                              Hcap0 Hrd Hs Hag)).
    + intros pos s Hs Hp.
      destruct (Hsteps pos s Hs Hp) as [Hsame|(c & Hc & Hidx)].
      * destruct (decide (pos ∈ i :: ready)) as [Hd|Hd].
        -- right. rewrite <- Hr in Hd |- *.
           by apply run_round_invokes.
        -- left.
           destruct (run_round_steps agents (i :: ready) st0 pos s Hsame)
             as (s' & Hs' & _ & Hout & _).
           by rewrite (Hout Hd) in Hs'.
      * right. exists c. split; [|done]. rewrite Hnewcalls.
        apply elem_of_app. by left.
  - split; [constructor|]. split.
    + by intros c ?%elem_of_nil.
    + intros pos s Hs _. by left.
Qed.

(** When every step names a capability of the table, each outcome is
    recorded on the step it belongs to: the step of every invocation ends
    COMPLETED with what its worker returned on the payload of the
    invocation as its result, or FAILED with the message its worker raised
    as its error; and a step that was PENDING is left as it was unless a
    worker was invoked for it. *)
Theorem outcomes_land_on_their_steps e workflow_id agents steps e' out calls :
  workflows e !! workflow_id = Some steps →
  capabilities_present agents steps →
  execute_workflow e workflow_id agents = (e', out, calls) →
  ∃ final,
    workflows e' !! workflow_id = Some final
    ∧ (∀ c, c ∈ calls →
         ∃ s (agent : Agent) s',
           steps !! call_index c = Some s
           ∧ agents !! agent_name s = Some agent
           ∧ final !! call_index c = Some s'
           ∧ match agent (call_payload c) with
             | inl r =>
                 status s' = COMPLETED ∧ result s' = Some r
                 ∧ error s' = error s
             | inr msg =>
                 status s' = FAILED ∧ error s' = Some msg
                 ∧ result s' = result s
             end)
    ∧ (∀ pos s, steps !! pos = Some s → status s = PENDING →
         final !! pos = Some s ∨ ∃ c, c ∈ calls ∧ call_index c = pos).
Proof.
  intros Hw Hcap Hex.
  destruct (execute_workflow_final _ _ _ _ _ _ _ Hw Hex)
    as (st & Hre & _ & _ & -> & Hcase).
  destruct (reaches_settled agents steps st Hcap Hre) as [Hcalls Hsteps].
  exists (ls_steps st). split_and!.
  - destruct Hcase as [(_ & -> & _)|(_ & -> & _)]; simpl;
      by rewrite lookup_insert_eq.
  - intros c Hc. destruct (Hcalls c Hc) as (s & agent & Hs & _ & Hag & Hfinal).
    eexists s, agent, _. split_and!; [done | done | exact Hfinal |].
    by destruct (agent (call_payload c)).
  - done.
Qed.

(** ** Steps without dependencies *)

Lemma independent_steps_end agents steps st :
  Forall (λ s, dependencies s = []) steps →
  reaches agents (initial_loop steps) st →
  ready_steps (ls_steps st) (ls_completed st) = [] →
  has_pending (ls_steps st) = false.
Proof.
  intros Hfree Hre Hready.
  destruct (has_pending (ls_steps st)) eqn:Hp; [|done]. exfalso.
  apply has_pending_spec in Hp as (s & [pos Hs]%list_elem_of_lookup & Hp).
  assert (pos ∈ ready_steps (ls_steps st) (ls_completed st)) as Hin.
  { apply elem_of_ready_steps. exists s. split; [done|].
    apply is_ready_spec. split; [done|]. intros dep Hdep.
    pose proof (reaches_pending _ _ _ _ _ Hre Hs Hp) as Hs0. simpl in Hs0.
    rewrite (proj1 (Forall_forall _ _) Hfree s) in Hdep
      by (by eapply list_elem_of_lookup_2).
    by apply elem_of_nil in Hdep. }
  rewrite Hready in Hin. by apply elem_of_nil in Hin.
Qed.

Lemma independent_steps_outcome e workflow_id agents steps :
  workflows e !! workflow_id = Some steps →
  Forall (λ s, dependencies s = []) steps →
  ∃ e' results calls final,
    execute_workflow e workflow_id agents
    = (e', Ok (mkResult workflow_id "completed" results), calls)
    ∧ workflows e' !! workflow_id = Some final
    ∧ Forall (λ s, status s ≠ PENDING) final
    ∧ active_workflows e' !! workflow_id = Some (mkActive "completed" None)
    ∧ last (workflow_history e')
      = Some (mkHistory workflow_id "completed" (Some results) None).
Proof.
  intros Hw Hfree.
  destruct (execute_workflow_outcome e workflow_id agents steps _ Hw
              (reaches_here _ _))
    as (st & Hre & Hinv & Hready & Hcase).
  pose proof (independent_steps_end agents steps st Hfree Hre Hready) as Hnp.
  destruct Hcase as [[Hp _]|[_ ->]]; [congruence|].
  exists (engine_completed e workflow_id st), (ls_results st), (ls_calls st),
    (ls_steps st).
  split_and!; [done | simpl; by rewrite lookup_insert_eq | |
               simpl; by rewrite lookup_insert_eq |
               simpl; by rewrite last_snoc].
  apply Forall_forall. intros s Hs Hp.
  assert (has_pending (ls_steps st) = true); [|congruence].
  apply has_pending_spec. by exists s.
Qed.

(** A workflow in which no step declares a dependency never fails: whatever
    the table holds and whatever the workers return or raise, the execution
    leaves no step PENDING, returns status completed and records the
    workflow as completed. *)
Theorem independent_steps_never_fail e workflow_id agents steps :
  workflows e !! workflow_id = Some steps →
  Forall (λ s, dependencies s = []) steps →
  ∃ e' results calls final,
    execute_workflow e workflow_id agents
    = (e', Ok (mkResult workflow_id "completed" results), calls)
    ∧ workflows e' !! workflow_id = Some final
    ∧ Forall (λ s, status s ≠ PENDING) final
    ∧ active_workflows e' !! workflow_id = Some (mkActive "completed" None)
    ∧ last (workflow_history e')
      = Some (mkHistory workflow_id "completed" (Some results) None).
Proof. apply independent_steps_outcome. Qed.

(** ** A worker that raises *)

Lemma reaches_capabilities agents steps st :
  capabilities_present agents steps →
  reaches agents (initial_loop steps) st →
  capabilities_present agents (ls_steps st).
Proof.
  intros Hcap Hre. destruct (reaches_steps _ _ _ Hre) as [Hlen Hpt].
  apply (capabilities_static agents steps); [done | | done].
  intros pos s Hs. destruct (Hpt pos s Hs) as (s' & ? & ? & _). by exists s'.
Qed.

Lemma reaches_id_at agents steps st pos s0 s :
  reaches agents (initial_loop steps) st →
  steps !! pos = Some s0 → ls_steps st !! pos = Some s →
  step_id s = step_id s0.
Proof.
  intros Hre Hs0 Hs. destruct (reaches_steps _ _ _ Hre) as [_ Hpt].
  destruct (Hpt pos s0 Hs0) as (s' & Hs' & (Hid & _) & _).
  assert (s' = s) as -> by congruence. done.
Qed.

(** With distinct ids, two positions that carry the same id are one. *)
Lemma same_id_same_position steps pos pos' s s' :
  NoDup (step_id <$> steps) →
  steps !! pos = Some s → steps !! pos' = Some s' → step_id s = step_id s' →
  pos = pos'.
Proof.
  intros Hnd Hs Hs' Hid.
  eapply NoDup_lookup; [exact Hnd | |]; rewrite list_lookup_fmap.
  - by rewrite Hs.
  - rewrite Hs'. simpl. by rewrite Hid.
Qed.

(** The step of a worker that raises whatever it is given is never
    COMPLETED, and its id never enters [completed_steps]. *)
Lemma raising_never_completes agents steps st p sf (agent : Agent) :
  capabilities_present agents steps →
  NoDup (step_id <$> steps) →
  reaches agents (initial_loop steps) st →
  steps !! p = Some sf → status sf = PENDING →
  agents !! agent_name sf = Some agent →
  (∀ payload, ∃ msg, agent payload = inr msg) →
  (step_id sf ∉ ls_completed st)
  ∧ ∃ s', ls_steps st !! p = Some s' ∧ status s' ≠ COMPLETED.
Proof.
  intros Hcap Hnd Hre Hsf Hp Hag Hraise.
  destruct (reaches_settled agents steps st Hcap Hre) as [Hcalls Hsteps].
  assert (∃ s', ls_steps st !! p = Some s' ∧ status s' ≠ COMPLETED) as Hnot.
  { destruct (Hsteps p sf Hsf Hp) as [Hsame|(c & Hc & <-)].
    - exists sf. split; [done|congruence].
    - destruct (Hcalls c Hc) as (s & agent' & Hs & _ & Hag' & Hfinal).
      assert (s = sf) as -> by congruence.
      assert (Some agent' = Some agent) as [= ->]
        by (etrans; [symmetry; exact Hag' | exact Hag]).
      destruct (Hraise (call_payload c)) as [msg Hmsg].
      rewrite Hmsg in Hfinal. eexists. split; [exact Hfinal|]. done. }
  split; [|done].
  intros Hin.
  destruct (reaches_completed_here agents steps st Hre _ Hin)
    as (pos & s0 & s & Hs0 & _ & Hs & Hid & Hst).
  destruct Hnot as (s' & Hs' & Hns').
  assert (pos = p) as ->.
  { apply (same_id_same_position steps pos p s0 sf); [done | done | done |].
    rewrite <- Hid. symmetry. by eapply reaches_id_at. }
  congruence.
Qed.

Lemma blocked_outcome e workflow_id agents steps p sf
    (agent : Agent) q sd :
  workflows e !! workflow_id = Some steps →
  capabilities_present agents steps →
  NoDup (step_id <$> steps) →
  steps !! p = Some sf → status sf = PENDING →
  agents !! agent_name sf = Some agent →
  (∀ payload, ∃ msg, agent payload = inr msg) →
  steps !! q = Some sd → status sd = PENDING →
  step_id sf ∈ dependencies sd →
  ∃ e' calls final,
    execute_workflow e workflow_id agents = (e', Exn stall_message, calls)
    ∧ workflows e' !! workflow_id = Some final
    ∧ final !! q = Some sd
    ∧ (∃ s', final !! p = Some s' ∧ status s' ≠ COMPLETED)
    ∧ ∀ c, c ∈ calls → call_index c ≠ q.
Proof.
  intros Hw Hcap Hnd Hsf Hpf Hag Hraise Hsd Hpd Hdep.
  destruct (execute_workflow_outcome e workflow_id agents steps _ Hw
              (reaches_here _ _))
    as (st & Hre & Hinv & Hready & Hcase).
  assert (ls_steps st !! q = Some sd) as Hstay.
  { cut (reaches agents (initial_loop steps) st ∧ ls_steps st !! q = Some sd);
      [by intros [_ ?]|].
    apply (reaches_invariant agents
             (λ st, reaches agents (initial_loop steps) st
                    ∧ ls_steps st !! q = Some sd)
             (initial_loop steps) st); [|done|].
    - intros st0 i ready [Hre0 Hq] Hlt Hr. split.
      { eapply reaches_trans; [done|].
        eapply reaches_round; [done | done | constructor]. }
      destruct (run_round_steps agents (i :: ready) st0 q sd Hq)
        as (s' & Hs' & _ & Hout & _).
      rewrite Hs'. f_equal. apply Hout. rewrite <- Hr.
      intros (s1 & Hs1 & [_ Hdone]%is_ready_spec)%elem_of_ready_steps.
      assert (s1 = sd) as -> by congruence.
      destruct (raising_never_completes agents steps st0 p sf agent)
        as [Hnot _]; try done.
      apply Hnot. by apply Hdone.
    - split; [constructor|done]. }
  destruct (raising_never_completes agents steps st p sf agent)
    as [_ Hfinal]; try done.
  destruct Hcase as [[Hp ->]|[Hnp _]].
  - exists (engine_failed e workflow_id st stall_message), (ls_calls st),
      (ls_steps st).
    split_and!; [done | simpl; by rewrite lookup_insert_eq | done | done |].
    intros c Hc Hidx.
    destruct (reaches_calls _ _ _ Hre) as (new & Hnew & _ & Hall).
    simpl in Hnew. rewrite Hnew in Hc.
    destruct (Hall c Hc) as [_ (s' & Hs' & Hns')].
    rewrite Hidx in Hs'. congruence.
  - exfalso. assert (has_pending (ls_steps st) = true); [|congruence].
    apply has_pending_spec. exists sd.
    split; [by eapply list_elem_of_lookup_2|done].
Qed.

(** When every step names a capability of the table and the step ids are
    distinct, a step whose worker raises whatever it is given takes the
    workflow down with it as soon as a PENDING step depends on it: the
    execution raises the stall error, the step of the raising worker does
    not end COMPLETED, and the dependent step is left exactly as it was, its
    worker never invoked. *)
Theorem failure_blocks_dependents e workflow_id agents steps p sf
    (agent : Agent) q sd :
  workflows e !! workflow_id = Some steps →
  capabilities_present agents steps →
  NoDup (step_id <$> steps) →
  steps !! p = Some sf → status sf = PENDING →
  agents !! agent_name sf = Some agent →
  (∀ payload, ∃ msg, agent payload = inr msg) →
  steps !! q = Some sd → status sd = PENDING →
  step_id sf ∈ dependencies sd →
  ∃ e' calls final,
    execute_workflow e workflow_id agents = (e', Exn stall_message, calls)
    ∧ workflows e' !! workflow_id = Some final
    ∧ final !! q = Some sd
    ∧ (∃ s', final !! p = Some s' ∧ status s' ≠ COMPLETED)
    ∧ ∀ c, c ∈ calls → call_index c ≠ q.
Proof. apply blocked_outcome. Qed.

(** ** Failures that nothing depends on *)

(** Some step of the graph declares [x] as a dependency. *)
Definition has_dependent (g : list (string * list string)) (x : string)
    : Prop :=
  ∃ a, depends g a x.

(** What holds between rounds when only steps without dependents fail. *)
Definition mostly_well (steps : list WorkflowStep) (st : LoopState) : Prop :=
  ∀ s, s ∈ ls_steps st →
    status s = PENDING
    ∨ (status s = COMPLETED ∧ step_id s ∈ ls_completed st)
    ∨ (status s = FAILED ∧ ¬ has_dependent (graph steps) (step_id s)).

Lemma ready_exists_after_failures steps st :
  mostly_well steps st → graph (ls_steps st) = graph steps →
  acyclic (graph steps) → no_missing (graph steps) →
  has_pending (ls_steps st) = true →
  ready_steps (ls_steps st) (ls_completed st) ≠ [].
Proof.
  intros Hwell Hgraph Hacyc Hclosed (sp & Hsp & Hp)%has_pending_spec Hready.
  set (waiting := step_id <$> filter (λ s, status s = PENDING) (ls_steps st)).
  apply (acyclic_minimal (depends (graph steps)) waiting).
  { assert (step_id sp ∈ waiting) as Hin; [|by intros Heq; rewrite Heq in Hin;
                                             apply elem_of_nil in Hin].
    apply list_elem_of_fmap_2, list_elem_of_filter. done. }
  { done. }
  intros (x & (s & -> & [Hps Hs]%list_elem_of_filter)%list_elem_of_fmap & Hmin).
  pose proof Hs as [pos Hpos]%list_elem_of_lookup.
  assert (is_ready (ls_completed st) s = false) as Hnr.
  { destruct (is_ready (ls_completed st) s) eqn:Hr; [|done].
    assert (pos ∈ ready_steps (ls_steps st) (ls_completed st)) as Hin
      by (apply elem_of_ready_steps; eauto).
    rewrite Hready in Hin. by apply elem_of_nil in Hin. }
  destruct (not_ready_missing _ _ Hps Hnr) as (dep & Hdep & Hmiss).
  assert ((step_id s, dependencies s) ∈ graph steps) as Hnode.
  { rewrite <- Hgraph. apply list_elem_of_fmap. by exists s. }
  pose proof (Hclosed _ _ _ Hnode Hdep) as Hex.
  rewrite <- Hgraph in Hex.
  apply list_elem_of_fmap in Hex as ([a deps] & -> & Hg). simpl in *.
  apply list_elem_of_fmap in Hg as (sd & [= -> ->] & Hsd).
  destruct (Hwell sd Hsd) as [Hpd|[[_ Hin]|[_ Hsink]]]; [|done|].
  - apply (Hmin (step_id sd)).
    + apply list_elem_of_fmap_2, list_elem_of_filter. done.
    + apply tc_once. by exists (dependencies s).
  - apply Hsink. exists (step_id s), (dependencies s). done.
Qed.

(** The workers of the steps that some step depends on do not raise. *)
Definition inner_workers_succeed (agents : gmap string Agent)
    (steps : list WorkflowStep) : Prop :=
  ∀ s (agent : Agent),
    s ∈ steps → has_dependent (graph steps) (step_id s) →
    agents !! agent_name s = Some agent →
    ∀ payload, ∃ r, agent payload = inl r.

Lemma run_round_mostly_well agents steps st :
  let ready := ready_steps (ls_steps st) (ls_completed st) in
  capabilities_present agents steps →
  inner_workers_succeed agents steps →
  reaches agents (initial_loop steps) st →
  mostly_well steps st → mostly_well steps (run_round agents ready st).
Proof.
  intros ready Hcap Hinner Hre Hwell s' [pos Hs']%list_elem_of_lookup.
  assert (is_Some (ls_steps st !! pos)) as [s Hs].
  { apply lookup_lt_is_Some. rewrite <- (run_round_length agents ready).
    by eapply lookup_lt_Some. }
  destruct (decide (pos ∈ ready)) as [Hin|Hnotin].
  - pose proof (ready_is_pending _ _ _ _ Hin Hs) as Hp.
    pose proof (reaches_pending _ _ _ _ _ Hre Hs Hp) as Hs0. simpl in Hs0.
    pose proof (reaches_capabilities agents steps st Hcap Hre) as Hcap0.
    destruct (Hcap s) as [agent Hag]; [by eapply list_elem_of_lookup_2|].
    destruct (run_round_aligned agents st pos s agent Hcap0 Hin Hs Hag)
      as [Hfinal Hdone].
    fold ready in Hfinal, Hdone. rewrite Hfinal in Hs'. injection Hs' as <-.
    revert Hfinal Hdone.
    destruct (agent (task_data s (previous_results (ls_results st) s)))
      as [r|msg] eqn:Ho; intros Hfinal Hdone.
    + right. left. split; [done|]. by apply (Hdone r).
    + right. right. split; [done|]. simpl. intros Hhas.
      destruct (Hinner s agent (list_elem_of_lookup_2 _ _ _ Hs0) Hhas Hag
                  (task_data s (previous_results (ls_results st) s)))
        as [r Hr].
      congruence.
  - destruct (run_round_steps agents ready st pos s Hs)
      as (s1 & Hs1 & _ & Hout & _).
    assert (s1 = s') as -> by congruence. rewrite (Hout Hnotin).
    destruct (Hwell s) as [?|[[? ?]|?]];
      [by eapply list_elem_of_lookup_2 | by left | | by right; right].
    right. left. split; [done|]. by apply run_round_completed.
Qed.

Lemma sink_failures_outcome e workflow_id agents steps :
  workflows e !! workflow_id = Some steps →
  Forall (λ s, status s = PENDING) steps →
  NoDup (step_id <$> steps) →
  acyclic (graph steps) → no_missing (graph steps) →
  capabilities_present agents steps →
  inner_workers_succeed agents steps →
  ∃ e' results calls final,
    execute_workflow e workflow_id agents
    = (e', Ok (mkResult workflow_id "completed" results), calls)
    ∧ workflows e' !! workflow_id = Some final
    ∧ active_workflows e' !! workflow_id = Some (mkActive "completed" None)
    ∧ ∀ pos s, steps !! pos = Some s →
        ∃ c (agent : Agent) s',
          c ∈ calls ∧ call_index c = pos
          ∧ agents !! agent_name s = Some agent
          ∧ final !! pos = Some s'
          ∧ match agent (call_payload c) with
            | inl v => status s' = COMPLETED ∧ results !! step_id s = Some v
            | inr msg =>
                status s' = FAILED ∧ error s' = Some msg
                ∧ results !! step_id s = None
            end.
Proof.
  intros Hw Hfresh Hnd Hacyc Hclosed Hcap Hinner.
  destruct (execute_workflow_outcome e workflow_id agents steps _ Hw
              (reaches_here _ _))
    as (st & Hre & Hinv & Hready & Hcase).
  assert (mostly_well steps st) as Hwell.
  { cut (reaches agents (initial_loop steps) st ∧ mostly_well steps st);
      [by intros [_ ?]|].
    apply (reaches_invariant agents
             (λ st, reaches agents (initial_loop steps) st
                    ∧ mostly_well steps st)
             (initial_loop steps) st); [|done|].
    - intros st0 i ready [Hre0 Hwell0] Hlt Hr. split.
      { eapply reaches_trans; [done|].
        eapply reaches_round; [done | done | constructor]. }
      rewrite <- Hr. by apply run_round_mostly_well.
    - split; [constructor|]. intros s Hs. left.
      by apply (proj1 (Forall_forall _ _) Hfresh). }
  pose proof (reaches_graph _ _ _ Hre) as Hgraph. simpl in Hgraph.
  pose proof (reaches_ids _ _ _ Hre) as Hids. simpl in Hids.
  destruct Hcase as [[Hp _]|[Hnp ->]].
  { exfalso. by eapply (ready_exists_after_failures steps st). }
  destruct (reaches_settled agents steps st Hcap Hre) as [Hcalls Hsteps].
  exists (engine_completed e workflow_id st), (ls_results st), (ls_calls st),
    (ls_steps st).
  split_and!; [done | simpl; by rewrite lookup_insert_eq
               | simpl; by rewrite lookup_insert_eq |].
  intros pos s Hs.
  assert (status s = PENDING) as Hp
    by (eapply (proj1 (Forall_forall _ _) Hfresh), list_elem_of_lookup_2; done).
  destruct (Hsteps pos s Hs Hp) as [Hsame|(c & Hc & Hidx)].
  { exfalso. assert (has_pending (ls_steps st) = true); [|congruence].
    apply has_pending_spec. exists s.
    split; [by eapply list_elem_of_lookup_2|done]. }
  destruct (Hcalls c Hc) as (s1 & agent & Hs1 & _ & Hag & Hfinal).
  rewrite Hidx in Hs1, Hfinal. assert (s1 = s) as -> by congruence.
  assert (NoDup (step_id <$> ls_steps st)) as Hnd' by (by rewrite Hids).
  eexists c, agent, _. split_and!; [done | done | done | exact Hfinal |].
  destruct (agent (call_payload c)) as [v|msg] eqn:Ho; simpl.
  - split; [done|].
    destruct (Hwell _ (list_elem_of_lookup_2 _ _ _ Hfinal))
      as [?|[[_ Hin]|[? _]]]; [done | | done].
    simpl in Hin.
    destruct (loop_inv_completed st _ Hinv Hin)
      as (pos' & s' & r & Hs' & Hid & _ & Hres & Hr).
    assert (pos' = pos) as ->
      by (by apply (same_id_same_position (ls_steps st) pos' pos s' _ Hnd'
                      Hs' Hfinal)).
    rewrite Hfinal in Hs'. injection Hs' as <-. simpl in Hres.
    by injection Hres as ->.
  - split_and!; [done | done |].
    destruct (ls_results st !! step_id s) as [r|] eqn:Hr; [|done]. exfalso.
    destruct (proj1 Hinv _ _ Hr) as (pos' & s' & Hs' & Hid & Hst & _).
    assert (pos' = pos) as ->
      by (by apply (same_id_same_position (ls_steps st) pos' pos s' _ Hnd'
                      Hs' Hfinal)).
    rewrite Hfinal in Hs'. by injection Hs' as <-.
Qed.

(** A workflow of PENDING steps with distinct ids, no cycle, no missing
    dependency and every capability in the table is reported completed
    whenever the only workers that raise are those of steps nothing depends
    on: every worker is invoked, the step of a worker that raised ends
    FAILED with the message as its error and has no entry in the results,
    the step of a worker that returned ends COMPLETED with what was
    returned as its entry, and the call returns status completed and records
    the workflow as completed. *)
Theorem unneeded_failures_go_unreported e workflow_id agents steps :
  workflows e !! workflow_id = Some steps →
  Forall (λ s, status s = PENDING) steps →
  NoDup (step_id <$> steps) →
  acyclic (graph steps) → no_missing (graph steps) →
  capabilities_present agents steps →
  inner_workers_succeed agents steps →
  ∃ e' results calls final,
    execute_workflow e workflow_id agents
    = (e', Ok (mkResult workflow_id "completed" results), calls)
    ∧ workflows e' !! workflow_id = Some final
    ∧ active_workflows e' !! workflow_id = Some (mkActive "completed" None)
    ∧ ∀ pos s, steps !! pos = Some s →
        ∃ c (agent : Agent) s',
          c ∈ calls ∧ call_index c = pos
          ∧ agents !! agent_name s = Some agent
          ∧ final !! pos = Some s'
          ∧ match agent (call_payload c) with
            | inl v => status s' = COMPLETED ∧ results !! step_id s = Some v
            | inr msg =>
                status s' = FAILED ∧ error s' = Some msg
                ∧ results !! step_id s = None
            end.
Proof. apply sink_failures_outcome. Qed.

Section OnScenarios.
Import Scenarios.

Lemma chain_capabilities : capabilities_present failing_table chain_steps.
Proof.
  intros s Hs. exists (raises "boom").
  repeat (apply elem_of_cons in Hs as [->|Hs]); try reflexivity.
  by apply elem_of_nil in Hs.
Qed.

Lemma outcomes_land_on_their_steps_witness :
  ∃ final,
    workflows (execute_workflow failed_dependency "wf" failing_table).1.1 !! "wf"
    = Some final
    ∧ (∃ s', final !! 0 = Some s' ∧ status s' = FAILED
             ∧ error s' = Some "boom")
    ∧ final !! 1 = Some (new_step (step "B" "worker" ["A"])).
Proof.
  destruct (outcomes_land_on_their_steps failed_dependency "wf" failing_table
              chain_steps
              (execute_workflow failed_dependency "wf" failing_table).1.1
              (execute_workflow failed_dependency "wf" failing_table).1.2
              (execute_workflow failed_dependency "wf" failing_table).2
              eq_refl chain_capabilities eq_refl)
    as (final & Hfinal & Hcalls & Hsteps).
  exists final. split; [exact Hfinal|]. split.
  - destruct (Hcalls (mkCall 0 "A" ∅)) as (s & agent & s' & Hs & Hag & Hs' & Hout).
    { vm_compute. left. }
    exists s'. split; [exact Hs'|].
    vm_compute in Hs. injection Hs as <-.
    vm_compute in Hag. injection Hag as <-.
    simpl in Hout. by destruct Hout as (? & ? & _).
  - destruct (Hsteps 1 (new_step (step "B" "worker" ["A"])) eq_refl eq_refl)
      as [Hsame|(c & Hc & Hidx)]; [exact Hsame|].
    exfalso. vm_compute in Hc.
    apply elem_of_cons in Hc as [->|Hc]; [discriminate Hidx|].
    by apply elem_of_nil in Hc.
Defined.

Lemma failure_blocks_dependents_witness :
  ∃ e' calls final,
    execute_workflow failed_dependency "wf" failing_table
    = (e', Exn stall_message, calls)
    ∧ workflows e' !! "wf" = Some final
    ∧ final !! 1 = Some (new_step (step "B" "worker" ["A"]))
    ∧ (∃ s', final !! 0 = Some s' ∧ status s' ≠ COMPLETED)
    ∧ ∀ c, c ∈ calls → call_index c ≠ 1.
Proof.
  apply (failure_blocks_dependents failed_dependency "wf" failing_table
           chain_steps 0 (new_step (step "A" "worker" [])) (raises "boom")
           1 (new_step (step "B" "worker" ["A"]))).
  - reflexivity.
  - exact chain_capabilities.
  - exact chain_ids.
  - reflexivity.
  - reflexivity.
  - reflexivity.
  - intros payload. by exists "boom".
  - reflexivity.
  - reflexivity.
  - simpl. left.
Defined.

(** A chain of two steps with a worker each; the second worker raises. *)
Definition two_workers : list WorkflowStep :=
  [new_step (step "A" "first" []); new_step (step "B" "second" ["A"])].
Definition last_fails_table : gmap string Agent :=
  <["first" := returns report]> {["second" := raises "boom"]}.

Lemma two_workers_capabilities :
  capabilities_present last_fails_table two_workers.
Proof.
  intros s Hs.
  repeat (apply elem_of_cons in Hs as [->|Hs]); try (by eexists).
  by apply elem_of_nil in Hs.
Qed.

Lemma two_workers_inner : inner_workers_succeed last_fails_table two_workers.
Proof.
  intros s agent Hs (a & deps & Hnode & Hdep) Hag payload.
  repeat (apply elem_of_cons in Hs as [->|Hs]).
  - vm_compute in Hag. injection Hag as <-. by exists report.
  - exfalso. simpl in Hdep, Hnode.
    repeat (apply elem_of_cons in Hnode as [[= -> ->]|Hnode]).
    + by apply elem_of_nil in Hdep.
    + by apply list_elem_of_singleton in Hdep.
    + by apply elem_of_nil in Hnode.
  - by apply elem_of_nil in Hs.
Qed.

Lemma unneeded_failures_go_unreported_witness :
  ∃ e' results calls final,
    execute_workflow empty_result "wf" last_fails_table
    = (e', Ok (mkResult "wf" "completed" results), calls)
    ∧ workflows e' !! "wf" = Some final
    ∧ active_workflows e' !! "wf" = Some (mkActive "completed" None)
    ∧ ∀ pos s, two_workers !! pos = Some s →
        ∃ c (agent : Agent) s',
          c ∈ calls ∧ call_index c = pos
          ∧ last_fails_table !! agent_name s = Some agent
          ∧ final !! pos = Some s'
          ∧ match agent (call_payload c) with
            | inl v => status s' = COMPLETED ∧ results !! step_id s = Some v
            | inr msg =>
                status s' = FAILED ∧ error s' = Some msg
                ∧ results !! step_id s = None
            end.
Proof.
  apply (unneeded_failures_go_unreported empty_result "wf" last_fails_table
           two_workers).
  - reflexivity.
  - repeat constructor.
  - exact chain_ids.
  - exact chain_acyclic.
  - exact chain_no_missing.
  - exact two_workers_capabilities.
  - exact two_workers_inner.
Defined.

Lemma independent_steps_never_fail_witness :
  ∃ e' results calls final,
    execute_workflow missing_capability "wf" worker_table
    = (e', Ok (mkResult "wf" "completed" results), calls)
    ∧ workflows e' !! "wf" = Some final
    ∧ Forall (λ s, status s ≠ PENDING) final
    ∧ active_workflows e' !! "wf" = Some (mkActive "completed" None)
    ∧ last (workflow_history e')
      = Some (mkHistory "wf" "completed" (Some results) None).
Proof.
  apply (independent_steps_never_fail missing_capability "wf" worker_table
           [new_step (step "A" "missing" []); new_step (step "B" "worker" [])]).
  - reflexivity.
  - repeat constructor.
Defined.

End OnScenarios.

End EngineOutcomes.

(** * Further properties of the task coordinator *)

Module CoordinatorMore.
Import Engine Coordinator CoordinatorQueries EngineFacts CoordinatorFacts.

(** ** The three pipelines *)

(** The ids and the dependencies of the steps of a workflow, in order. *)
Definition shape (steps : list WorkflowStep) : list (string * list string) :=
  graph steps.

Definition research_shape : list (string * list string) :=
  [("search_step", []); ("analysis_step", ["search_step"]);
   ("verification_step", ["analysis_step"]);
   ("content_step", ["verification_step"])].

Definition analysis_shape : list (string * list string) :=
  [("analysis_step", []); ("verification_step", ["analysis_step"])].

Definition content_shape : list (string * list string) :=
  [("content_step", [])].

(** The position of a step id in the research chain. *)
Definition chain_rank (x : string) : nat :=
  if String.eqb x "search_step" then 0
  else if String.eqb x "analysis_step" then 1
  else if String.eqb x "verification_step" then 2
  else 3.

Lemma research_shape_sound :
  NoDup research_shape.*1 ∧ acyclic research_shape ∧ no_missing research_shape.
Proof.
  split_and!.
  - repeat (apply NoDup_cons; split; [set_solver|]). apply NoDup_nil_2.
  - apply (ranked_acyclic _ chain_rank). intros a deps b Hin Hb.
    repeat (apply elem_of_cons in Hin as [[= -> ->]|Hin]);
      try (by apply elem_of_nil in Hin);
      try (by apply elem_of_nil in Hb);
      apply list_elem_of_singleton in Hb as ->; vm_compute; lia.
  - intros a deps b Hin Hb.
    repeat (apply elem_of_cons in Hin as [[= -> ->]|Hin]);
      try (by apply elem_of_nil in Hin);
      try (by apply elem_of_nil in Hb);
      apply list_elem_of_singleton in Hb as ->; set_solver.
Qed.

Lemma analysis_shape_sound :
  NoDup analysis_shape.*1 ∧ acyclic analysis_shape ∧ no_missing analysis_shape.
Proof.
  split_and!.
  - repeat (apply NoDup_cons; split; [set_solver|]). apply NoDup_nil_2.
  - apply (ranked_acyclic _ (λ x, if String.eqb x "analysis_step" then 0 else 1)).
    intros a deps b Hin Hb.
    repeat (apply elem_of_cons in Hin as [[= -> ->]|Hin]);
      try (by apply elem_of_nil in Hin);
      try (by apply elem_of_nil in Hb);
      apply list_elem_of_singleton in Hb as ->; vm_compute; lia.
  - intros a deps b Hin Hb.
    repeat (apply elem_of_cons in Hin as [[= -> ->]|Hin]);
      try (by apply elem_of_nil in Hin);
      try (by apply elem_of_nil in Hb);
      apply list_elem_of_singleton in Hb as ->; set_solver.
Qed.

Lemma content_shape_sound :
  NoDup content_shape.*1 ∧ acyclic content_shape ∧ no_missing content_shape.
Proof.
  split_and!.
  - apply NoDup_singleton.
  - apply (ranked_acyclic _ (λ _, 0)).
    intros a deps b [= -> ->]%list_elem_of_singleton Hb.
    by apply elem_of_nil in Hb.
  - intros a deps b [= -> ->]%list_elem_of_singleton Hb.
    by apply elem_of_nil in Hb.
Qed.

(** A workflow as the pipelines define it: the steps are all PENDING, and
    their ids and dependencies are those of [sh]. *)
Definition defined_as (e : WorkflowEngine) (workflow_id : string)
    (sh : list (string * list string)) : Prop :=
  ∃ steps, workflows e !! workflow_id = Some steps
    ∧ Forall (λ s, status s = PENDING) steps
    ∧ shape steps = sh.

(** The three pipelines have fixed shapes, whatever the request: research is
    the chain search, analysis, verification, content, each step depending
    on the one before it only; analysis is the chain analysis, verification;
    content is one step.  Each is defined under an id made of the kind and
    the time stamp, with all steps PENDING, and each shape has pairwise
    distinct ids, no cycle and no dependency that names no step. *)
Theorem pipelines_have_fixed_shapes e now payload extra :
  (∀ config workflow_id,
     (create_research_workflow e now payload config).2 = inl workflow_id →
     workflow_id = "research_" +:+ now
     ∧ defined_as (create_research_workflow e now payload config).1
         workflow_id research_shape)
  ∧ (create_analysis_workflow e now payload extra).2 = "analysis_" +:+ now
  ∧ defined_as (create_analysis_workflow e now payload extra).1
      ("analysis_" +:+ now) analysis_shape
  ∧ (create_content_workflow e now payload extra).2 = "content_" +:+ now
  ∧ defined_as (create_content_workflow e now payload extra).1
      ("content_" +:+ now) content_shape
  ∧ (NoDup research_shape.*1 ∧ acyclic research_shape
     ∧ no_missing research_shape)
  ∧ (NoDup analysis_shape.*1 ∧ acyclic analysis_shape
     ∧ no_missing analysis_shape)
  ∧ (NoDup content_shape.*1 ∧ acyclic content_shape
     ∧ no_missing content_shape).
Proof.
  split_and!;
    try apply research_shape_sound; try apply analysis_shape_sound;
    try apply content_shape_sound; try done.
  - intros config workflow_id. unfold create_research_workflow.
    destruct (_ !! "search") as [processor|]; [|done].
    simpl. intros [= <-]. split; [done|]. eexists. split_and!.
    + simpl. by rewrite lookup_insert_eq.
    + repeat constructor.
    + done.
  - eexists. split_and!.
    + simpl. by rewrite lookup_insert_eq.
    + repeat constructor.
    + done.
  - eexists. split_and!.
    + simpl. by rewrite lookup_insert_eq.
    + repeat constructor.
    + done.
Qed.

(** The pipelines as [defined_as] sees them, with the capabilities their
    steps name. *)
Lemma pipelines_fixed e now :
  (∀ payload config,
     is_Some (match (create_research_workflow e now payload config).2 with
              | inl id => Some id | inr _ => None end) →
     (create_research_workflow e now payload config).2
     = inl ("research_" +:+ now)
     ∧ defined_as (create_research_workflow e now payload config).1
         ("research_" +:+ now) research_shape
     ∧ ∀ steps s,
         workflows (create_research_workflow e now payload config).1
           !! ("research_" +:+ now) = Some steps →
         s ∈ steps →
         agent_name s
         ∈ ["SearchAgent"; "AnalystAgent"; "CriticAgent"; "WriterAgent"])
  ∧ (∀ payload extra,
       defined_as (create_analysis_workflow e now payload extra).1
         (create_analysis_workflow e now payload extra).2 analysis_shape
       ∧ ∀ steps s,
           workflows (create_analysis_workflow e now payload extra).1
             !! (create_analysis_workflow e now payload extra).2 = Some steps →
           s ∈ steps →
           agent_name s
           ∈ ["SearchAgent"; "AnalystAgent"; "CriticAgent"; "WriterAgent"])
  ∧ (∀ payload extra,
       defined_as (create_content_workflow e now payload extra).1
         (create_content_workflow e now payload extra).2 content_shape
       ∧ ∀ steps s,
           workflows (create_content_workflow e now payload extra).1
             !! (create_content_workflow e now payload extra).2 = Some steps →
           s ∈ steps →
           agent_name s
           ∈ ["SearchAgent"; "AnalystAgent"; "CriticAgent"; "WriterAgent"]).
Proof.
  split_and!.
  - intros payload config. unfold create_research_workflow.
    destruct (_ !! "search") as [processor|]; [|by intros [? ?]].
    intros _. simpl. split_and!; [done | |].
    + eexists. split_and!; [simpl; by rewrite lookup_insert_eq | repeat constructor | done].
    + intros steps s. simpl. rewrite lookup_insert_eq. intros [= <-] Hs.
      repeat (apply elem_of_cons in Hs as [->|Hs]); [set_solver.. |].
      by apply elem_of_nil in Hs.
  - intros payload extra. simpl. split.
    + eexists. split_and!; [simpl; by rewrite lookup_insert_eq | repeat constructor | done].
    + intros steps s. simpl. rewrite lookup_insert_eq. intros [= <-] Hs.
      repeat (apply elem_of_cons in Hs as [->|Hs]); [set_solver.. |].
      by apply elem_of_nil in Hs.
  - intros payload extra. simpl. split.
    + eexists. split_and!; [simpl; by rewrite lookup_insert_eq | repeat constructor | done].
    + intros steps s. simpl. rewrite lookup_insert_eq. intros [= <-] Hs.
      repeat (apply elem_of_cons in Hs as [->|Hs]); [set_solver.. |].
      by apply elem_of_nil in Hs.
Qed.

(** ** Requests that cannot be run *)

(** The kind a task is run as: research when the task names none. *)
Definition kind_of (t : QueuedTask) : string :=
  default "research" (task_type t).

(** A task that cannot be turned into a pipeline fails before anything is
    defined: a research task without a query, an analysis or content task
    without data, a task of any other kind, and a research task whose
    processor configuration is a non-empty dictionary without an entry for
    search, each raise their own error and leave the engine as it was.  An
    empty processor configuration counts as none. *)
Theorem bad_requests_define_nothing e now agents t :
  (kind_of t = "research" → query t = None →
   run_task e now agents t = (e, Exn "'query'"))
  ∧ (kind_of t = "analysis" ∨ kind_of t = "content" → data t = None →
     run_task e now agents t = (e, Exn "'data'"))
  ∧ (kind_of t ≠ "research" → kind_of t ≠ "analysis" →
     kind_of t ≠ "content" →
     run_task e now agents t = (e, Exn ("Unknown task type: " +:+ kind_of t)))
  ∧ (∀ q config,
       kind_of t = "research" → query t = Some q →
       processor_config t = Some config →
       config ≠ ∅ → config !! "search" = None →
       run_task e now agents t = (e, Exn "'search'"))
  ∧ (∀ q, execute_research_task e now q agents (Some ∅)
          = execute_research_task e now q agents None).
Proof.
  unfold kind_of, run_task. split_and!.
  - intros -> ->. done.
  - intros [-> | ->] ->; done.
  - intros H1 H2 H3.
    rewrite (proj2 (String.eqb_neq _ _) H1), (proj2 (String.eqb_neq _ _) H2),
      (proj2 (String.eqb_neq _ _) H3). done.
  - intros q config -> -> -> Hne Hnone. simpl.
    unfold execute_research_task, create_research_workflow.
    rewrite bool_decide_eq_false_2 by done. by rewrite Hnone.
  - intros q. unfold execute_research_task, create_research_workflow.
    by rewrite bool_decide_eq_true_2.
Qed.

(** ** Pipelines whose workers return *)

(** The four workers of the pipelines are in the table and do not raise. *)
Definition pipeline_workers (agents : gmap string Agent) : Prop :=
  ∀ name,
    name ∈ ["SearchAgent"; "AnalystAgent"; "CriticAgent"; "WriterAgent"] →
    ∃ agent, agents !! name = Some agent
      ∧ ∀ payload, ∃ r, agent payload = inl r.

(** An acyclic workflow of PENDING steps with distinct ids, no missing
    dependency and workers that return, executed. *)
Lemma fresh_dag_executes e workflow_id agents steps :
  workflows e !! workflow_id = Some steps →
  Forall (λ s, status s = PENDING) steps →
  NoDup (step_id <$> steps) →
  acyclic (graph steps) → no_missing (graph steps) →
  workers_succeed agents steps →
  ∃ st,
    execute_workflow e workflow_id agents
    = (engine_completed e workflow_id st,
       Ok (mkResult workflow_id "completed" (ls_results st)), ls_calls st)
    ∧ dom (ls_results st) = list_to_set (step_id <$> steps).
Proof.
  intros Hw Hfresh Hnd Hacyc Hclosed Hgood.
  destruct (execute_workflow_outcome e workflow_id agents steps _ Hw
              (reaches_here _ _))
    as (st & Hre & Hinv & Hready & Hcase).
  pose proof (reaches_graph _ _ _ Hre) as Hgraph. simpl in Hgraph.
  pose proof (reaches_ids _ _ _ Hre) as Hids. simpl in Hids.
  assert (all_well st) as Hwell.
  { apply (reaches_invariant agents
             (λ st, reaches agents (initial_loop steps) st ∧ all_well st)
             (initial_loop steps) st); [|done|].
    - intros st0 i ready [Hre0 Hwell0] Hlt Hr. split.
      + eapply reaches_trans; [done|].
        eapply reaches_round; [done | done | constructor].
      + rewrite <- Hr. apply run_round_well; [done|].
        by apply (reaches_workers agents (initial_loop steps)).
    - split; [constructor|]. intros s Hs. left.
      by apply (proj1 (Forall_forall _ _) Hfresh). }
  destruct Hcase as [[Hp _]|[Hnp ->]].
  { exfalso. eapply ready_exists; try done; by rewrite Hgraph. }
  exists st. split; [done|].
  rewrite (proj2 Hinv). apply set_eq. intros x.
  rewrite elem_of_list_to_set, <- Hids. split.
  - intros Hx.
    destruct (loop_inv_completed st x Hinv Hx) as (pos & s & _ & Hs & <- & _).
    apply list_elem_of_fmap_2. by eapply list_elem_of_lookup_2.
  - intros (s & -> & Hs)%list_elem_of_fmap.
    destruct (Hwell s Hs) as [Hp|[_ ?]]; [|done].
    assert (has_pending (ls_steps st) = true); [|congruence].
    apply has_pending_spec. by exists s.
Qed.

Lemma graph_ids steps : (graph steps).*1 = step_id <$> steps.
Proof. unfold graph. rewrite <- list_fmap_compose. done. Qed.

(** A workflow defined as one of the pipelines, executed with workers that
    return. *)
Lemma pipeline_executes e workflow_id agents sh :
  defined_as e workflow_id sh →
  NoDup sh.*1 → acyclic sh → no_missing sh →
  (∀ steps s, workflows e !! workflow_id = Some steps → s ∈ steps →
     agent_name s
     ∈ ["SearchAgent"; "AnalystAgent"; "CriticAgent"; "WriterAgent"]) →
  pipeline_workers agents →
  ∃ e' r, (execute_workflow e workflow_id agents).1 = (e', Ok r)
    ∧ wr_workflow_id r = workflow_id ∧ wr_status r = "completed"
    ∧ dom (wr_results r) = list_to_set sh.*1.
Proof.
  intros (steps & Hw & Hfresh & Hshape) Hnd Hacyc Hclosed Hnames Hworkers.
  unfold shape in Hshape. subst sh.
  destruct (fresh_dag_executes e workflow_id agents steps) as (st & -> & Hdom);
    try done.
  - by rewrite <- graph_ids.
  - intros s Hs. apply Hworkers. by eapply Hnames.
  - eexists _, _. split; [done|]. simpl. by rewrite graph_ids.
Qed.

(** A task the coordinator can run: research with a query and a processor
    configuration that is absent, empty or has an entry for search; analysis
    or content with data. *)
Definition well_formed (t : QueuedTask) : Prop :=
  (kind_of t = "research" ∧ is_Some (query t)
   ∧ match processor_config t with
     | Some config => config = ∅ ∨ is_Some (config !! "search")
     | None => True
     end)
  ∨ ((kind_of t = "analysis" ∨ kind_of t = "content") ∧ is_Some (data t)).

(** The step ids of the pipeline a task is run as. *)
Definition pipeline_ids (t : QueuedTask) : list string :=
  if String.eqb (kind_of t) "research" then research_shape.*1
  else if String.eqb (kind_of t) "analysis" then analysis_shape.*1
  else content_shape.*1.

(** Running a well-formed task with workers that return. *)
Lemma run_task_completes e now agents t :
  pipeline_workers agents → well_formed t →
  ∃ e' r, run_task e now agents t = (e', Ok r)
    ∧ wr_status r = "completed"
    ∧ dom (wr_results r) = list_to_set (pipeline_ids t).
Proof.
  intros Hworkers Hwf. unfold run_task, pipeline_ids.
  fold (kind_of t).
  destruct (pipelines_fixed e now) as (Hresearch & Hanalysis & Hcontent).
  destruct Hwf as [(Hkind & [q Hq] & Hconfig)|[Hkind [d Hd]]].
  - rewrite Hkind, Hq. simpl. unfold execute_research_task.
    destruct (Hresearch q (processor_config t)) as (Hid & Hdef & Hnames).
    { unfold create_research_workflow.
      destruct (processor_config t) as [config|]; [|done].
      destruct Hconfig as [->|[v Hv]]; [done|].
      case_bool_decide; [done|]. by rewrite Hv. }
    destruct (create_research_workflow e now q (processor_config t))
      as [e1 [workflow_id|msg]] eqn:Hcreate; simpl in *; [|done].
    destruct (pipeline_executes e1 _ agents research_shape Hdef)
      as (e' & r & Hex & _ & Hstatus & Hdom);
      try apply research_shape_sound; try done.
    injection Hid as ->. rewrite Hex. exists e', r.
    split_and!; [done | done | exact Hdom].
  - destruct Hkind as [Hkind|Hkind]; rewrite Hkind, Hd; simpl.
    + unfold execute_analysis_task.
      destruct (Hanalysis d (default (PyStr "general") (analysis_type t)))
        as (Hdef & Hnames).
      destruct (create_analysis_workflow e now d _) as [e1 workflow_id] eqn:Hc.
      simpl in *.
      destruct (pipeline_executes e1 _ agents analysis_shape Hdef)
        as (e' & r & Hex & _ & Hstatus & Hdom);
        try apply analysis_shape_sound; try done.
      injection Hc as <- <-. rewrite Hex. exists e', r.
      split_and!; [done | done | exact Hdom].
    + unfold execute_content_task.
      destruct (Hcontent d (default (PyStr "report") (content_type t)))
        as (Hdef & Hnames).
      destruct (create_content_workflow e now d _) as [e1 workflow_id] eqn:Hc.
      simpl in *.
      destruct (pipeline_executes e1 _ agents content_shape Hdef)
        as (e' & r & Hex & _ & Hstatus & Hdom);
        try apply content_shape_sound; try done.
      injection Hc as <- <-. rewrite Hex. exists e', r.
      split_and!; [done | done | exact Hdom].
Qed.

Lemma well_formed_started t :
  well_formed t → well_formed (with_status "processing" t).
Proof. done. Qed.

(** With the four workers in the table and none of them raising, a
    well-formed task completes: running it returns a result of status
    completed that holds exactly one entry for each step of its pipeline,
    four for research, two for analysis, one for content; and a drain of a
    queue of well-formed tasks, from a coordinator with no active task, runs
    to the end and leaves in the history one record for each queued task,
    in queue order, each with status completed and such a result. *)
Theorem well_formed_tasks_complete clock agents c :
  pipeline_workers agents →
  (∀ e now t, well_formed t →
     ∃ e' r, run_task e now agents t = (e', Ok r)
       ∧ wr_status r = "completed"
       ∧ dom (wr_results r) = list_to_set (pipeline_ids t))
  ∧ (active_tasks c = ∅ → Forall well_formed (task_queue c) →
     d_finished (process_task_queue clock agents c) = true
     ∧ ∃ finished,
         task_history (d_final (process_task_queue clock agents c))
         = task_history c ++ finished
         ∧ Forall2 (λ t t',
                      task_id t' = task_id t ∧ t_status t' = "completed"
                      ∧ ∃ r, t_result t' = Some r
                          ∧ wr_status r = "completed"
                          ∧ dom (wr_results r) = list_to_set (pipeline_ids t))
             (task_queue c) finished).
Proof.
  intros Hworkers. split.
  { intros e now t Hwf. by apply run_task_completes. }
  intros Hact Hall.
  destruct (drain_spec clock agents (task_queue c) c [] Hact eq_refl)
    as (Hfin & _ & _ & finished & snaps & Hhist & Hproc & _).
  split; [done|]. exists finished. split; [done|].
  apply Forall2_same_length_lookup. split; [by eapply Forall2_length|].
  intros k t t' Ht Ht'.
  pose proof (Forall2_lookup_lr _ _ _ _ _ _ Hproc Ht Ht') as (e & now & Hrec).
  assert (well_formed t) as Hwf
    by (eapply (proj1 (Forall_forall _ _) Hall), list_elem_of_lookup_2; done).
  destruct (run_task_completes e now agents (with_status "processing" t) Hworkers
              (well_formed_started t Hwf))
    as (e' & r & Hrun & Hstatus & Hdom).
  rewrite Hrun in Hrec. simpl in Hrec. injection Hrec as <-.
  split_and!; [done | done |]. by exists r.
Qed.

(** ** Looking a task up *)


(** ** No task is lost *)

(** At every moment of a drain, and at its end, the tasks still queued, the
    active task and the records of the history add up to the tasks that
    were queued or in the history when the drain began, as
    [get_queue_status] counts them; at the end nothing is queued and
    nothing is active. *)
Theorem no_task_is_lost clock agents c :
  active_tasks c = ∅ →
  (∀ snap,
     snap ∈ d_trace (process_task_queue clock agents c)
            ++ [d_final (process_task_queue clock agents c)] →
     queue_length (get_queue_status snap)
     + active_count (get_queue_status snap)
     + completed_tasks (get_queue_status snap)
     = length (task_queue c) + length (task_history c))
  ∧ queue_length (get_queue_status (d_final (process_task_queue clock agents c)))
    = 0
  ∧ active_count (get_queue_status (d_final (process_task_queue clock agents c)))
    = 0.
Proof.
  intros Hact.
  destruct (drain_spec clock agents (task_queue c) c [] Hact eq_refl)
    as (_ & Hqueue & Hactive & finished & snaps & Hhist & Hproc & Htrace
        & Hlen & _ & Hsnaps).
  simpl in Htrace. fold (process_task_queue clock agents c) in *.
  pose proof (Forall2_length _ _ _ Hproc) as Hflen.
  assert (queue_length (get_queue_status (d_final (process_task_queue clock agents c))) = 0
          ∧ active_count (get_queue_status (d_final (process_task_queue clock agents c))) = 0)
    as [Hq0 Ha0].
  { unfold get_queue_status. simpl. by rewrite Hqueue, Hactive, map_size_empty. }
  split_and!; [|done|done].
  intros snap [Hin|Hlast]%elem_of_app;
    [|apply list_elem_of_singleton in Hlast as ->].
  - rewrite Htrace in Hin. apply list_elem_of_lookup in Hin as [i Hi].
    pose proof (lookup_lt_Some _ _ _ Hi) as Hlt. rewrite Hlen in Hlt.
    assert (∃ k, k < length (task_queue c) ∧ (i = 2 * k ∨ i = 2 * k + 1))
      as (k & Hk & Hcase).
    { exists (i / 2). pose proof (Nat.div_mod_eq i 2) as Hdm.
      pose proof (Nat.mod_upper_bound i 2). split; [|lia].
      apply Nat.Div0.div_lt_upper_bound. lia. }
    apply lookup_lt_is_Some in Hk as [t Ht].
    pose proof (lookup_lt_Some _ _ _ Ht) as Hkn.
    destruct (Hsnaps k t Ht)
      as (c1 & c2 & t' & Hc1 & Hc2 & Ha1 & Hq1 & Hh1 & Ha2 & Hq2 & Hh2 & _).
    unfold get_queue_status. simpl.
    destruct Hcase as [-> | ->].
    + assert (snap = c1) as -> by congruence.
      rewrite Hq1, Ha1, Hh1, map_size_singleton, length_drop, length_app,
        length_take. lia.
    + assert (snap = c2) as -> by congruence.
      rewrite Hq2, Ha2, Hh2, map_size_empty, length_drop, !length_app,
        length_take. simpl. lia.
  - rewrite Hq0, Ha0. unfold get_queue_status. simpl.
    rewrite Hhist, length_app. lia.
Qed.

(** ** The properties on the scenarios *)

Section OnQueues.
Import Scenarios.

(** A coordinator with one research task submitted. *)
Definition one_queued : TaskCoordinator :=
  (add_task_to_queue (new_coordinator empty_engine) "0002" research_task).1.

(** A research task without a query. *)
Definition no_query : QueuedTask :=
  mkTask "" None None None None None None "" None None.

Lemma pipeline_table_workers : pipeline_workers pipeline_table.
Proof.
  intros name Hin. exists (returns report). split; [|intros; by eexists].
  repeat (apply elem_of_cons in Hin as [->|Hin]); try reflexivity.
  by apply elem_of_nil in Hin.
Qed.

Lemma pipelines_have_fixed_shapes_witness :
  (create_research_workflow empty_engine "20240101_000000" (PyStr "X") None).2
  = inl "research_20240101_000000"
  ∧ defined_as
      (create_research_workflow empty_engine "20240101_000000" (PyStr "X")
         None).1
      "research_20240101_000000" research_shape.
Proof.
  split; [reflexivity|].
  apply (proj1 (pipelines_have_fixed_shapes empty_engine "20240101_000000"
                  (PyStr "X") (PyStr "general"))
           None "research_20240101_000000" eq_refl).
Defined.

Lemma bad_requests_define_nothing_witness :
  run_task empty_engine "0003" pipeline_table unknown_task
  = (empty_engine, Exn "Unknown task type: survey")
  ∧ run_task empty_engine "0003" pipeline_table no_query
    = (empty_engine, Exn "'query'").
Proof.
  split.
  - apply (proj1 (proj2 (proj2 (bad_requests_define_nothing empty_engine
                                  "0003" pipeline_table unknown_task))));
      discriminate.
  - apply (proj1 (bad_requests_define_nothing empty_engine "0003"
                    pipeline_table no_query));
      reflexivity.
Defined.

Lemma well_formed_tasks_complete_witness :
  Forall well_formed (task_queue one_queued)
  ∧ d_finished (process_task_queue (λ _, "0003") pipeline_table one_queued)
    = true.
Proof.
  assert (Forall well_formed (task_queue one_queued)) as Hwf.
  { unfold one_queued. simpl. apply Forall_singleton. left.
    split_and!; [done | by eexists | done]. }
  split; [exact Hwf|].
  apply (proj1 (proj2 (well_formed_tasks_complete (λ _, "0003") pipeline_table
                         one_queued pipeline_table_workers)
                  eq_refl Hwf)).
Defined.


Lemma no_task_is_lost_witness :
  active_tasks two_queued = ∅
  ∧ completed_tasks
      (get_queue_status
         (d_final (process_task_queue (λ _, "0003") pipeline_table two_queued)))
    = 2.
Proof.
  split; [reflexivity|].
  destruct (no_task_is_lost (λ _, "0003") pipeline_table two_queued eq_refl)
    as (Hsum & Hq & Ha).
  specialize (Hsum (d_final (process_task_queue (λ _, "0003") pipeline_table
                               two_queued))).
  rewrite Hq, Ha in Hsum. apply Hsum.
  apply elem_of_app. right. apply list_elem_of_singleton. reflexivity.
Defined.

End OnQueues.

End CoordinatorMore.

(** * Properties of the orchestrator *)

Module OrchestratorFacts.
Import Engine Coordinator Orchestrator EngineFacts EngineOutcomes.
Import CoordinatorMore.

(** An execution of a defined workflow returns status completed or raises
    the stall error. *)
Lemma defined_outcome e workflow_id agents steps :
  workflows e !! workflow_id = Some steps →
  (∃ e' r, (execute_workflow e workflow_id agents).1 = (e', Ok r)
     ∧ wr_status r = "completed")
  ∨ ∃ e', (execute_workflow e workflow_id agents).1 = (e', Exn stall_message).
Proof.
  intros Hw.
  destruct (execute_workflow_outcome e workflow_id agents steps _ Hw
              (reaches_here _ _))
    as (st & _ & _ & _ & [[_ ->]|[_ ->]]).
  - right. by eexists.
  - left. by eexists _, _.
Qed.

Lemma research_outcome e now q agents config :
  (∃ e' r, execute_research_task e now q agents config = (e', Ok r)
     ∧ wr_status r = "completed")
  ∨ (∃ e', execute_research_task e now q agents config
           = (e', Exn stall_message))
  ∨ execute_research_task e now q agents config = (e, Exn "'search'").
Proof.
  unfold execute_research_task.
  destruct (create_research_workflow e now q config) as [e1 [id|msg]] eqn:Hc.
  - destruct (proj1 (pipelines_fixed e now) q config)
      as (Hid & (steps & Hw & _) & _).
    { rewrite Hc. by eexists. }
    rewrite Hc in Hid, Hw. simpl in Hid, Hw. injection Hid as ->.
    destruct (defined_outcome e1 _ agents steps Hw)
      as [(e' & r & -> & ?)|(e' & ->)].
    + left. by exists e', r.
    + right. left. by exists e'.
  - right. right. unfold create_research_workflow in Hc.
    destruct (_ !! "search") in Hc; [simpl in Hc; discriminate|].
    by injection Hc as <- <-.
Qed.

Lemma analysis_outcome e now d agents kind :
  (∃ e' r, execute_analysis_task e now d agents kind = (e', Ok r)
     ∧ wr_status r = "completed")
  ∨ ∃ e', execute_analysis_task e now d agents kind = (e', Exn stall_message).
Proof.
  unfold execute_analysis_task.
  destruct (proj1 (proj2 (pipelines_fixed e now)) d kind)
    as [(steps & Hw & _) _].
  destruct (create_analysis_workflow e now d kind) as [e1 id]. simpl in Hw.
  apply (defined_outcome e1 id agents steps Hw).
Qed.

Lemma content_outcome e now d agents kind :
  ∃ e' r, execute_content_task e now d agents kind = (e', Ok r)
    ∧ wr_status r = "completed".
Proof.
  unfold execute_content_task.
  destruct (proj2 (proj2 (pipelines_fixed e now)) d kind)
    as [(steps & Hw & _ & Hshape) _].
  destruct (create_content_workflow e now d kind) as [e1 id]. simpl in Hw.
  destruct (independent_steps_outcome e1 id agents steps Hw)
    as (e' & results & calls & final & -> & _).
  { unfold shape, graph, content_shape in Hshape.
    destruct steps as [|s [|? ?]]; try done.
    injection Hshape as _ Hdeps. by repeat constructor. }
  by eexists _, _.
Qed.

(** The three requests of the orchestrator never raise: each returns a
    report.  A research request reports success with a result of status
    completed, and then the counter of completed tasks is one more, or it
    reports failure with the stall error or the missing search processor as
    its error, and then the counter is as it was.  An analysis request does
    the same without ever touching the counter, and fails with the stall
    error only.  A content request reports success whatever the table holds
    and whatever the workers do. *)
Theorem requests_always_report o now subject extra :
  (∀ config, ∃ rep,
     (research o now subject config).2 = Some rep
     ∧ rp_subject rep = subject
     ∧ agents (research o now subject config).1 = agents o
     ∧ ((rp_success rep = true ∧ rp_error rep = None
         ∧ (∃ r, rp_result rep = Some r ∧ wr_status r = "completed")
         ∧ total_tasks_completed (research o now subject config).1
           = S (total_tasks_completed o))
        ∨ (rp_success rep = false ∧ rp_result rep = None
           ∧ (rp_error rep = Some stall_message
              ∨ rp_error rep = Some "'search'")
           ∧ total_tasks_completed (research o now subject config).1
             = total_tasks_completed o)))
  ∧ (∃ rep,
       (analyze_data o now subject extra).2 = Some rep
       ∧ rp_subject rep = extra
       ∧ total_tasks_completed (analyze_data o now subject extra).1
         = total_tasks_completed o
       ∧ ((rp_success rep = true ∧ rp_error rep = None
           ∧ ∃ r, rp_result rep = Some r ∧ wr_status r = "completed")
          ∨ (rp_success rep = false ∧ rp_result rep = None
             ∧ rp_error rep = Some stall_message)))
  ∧ (∃ rep r,
       (generate_content o now subject extra).2 = Some rep
       ∧ rp_subject rep = extra
       ∧ total_tasks_completed (generate_content o now subject extra).1
         = total_tasks_completed o
       ∧ rp_success rep = true ∧ rp_error rep = None
       ∧ rp_result rep = Some r ∧ wr_status r = "completed").
Proof.
  split_and!.
  - intros config. unfold research.
    destruct (research_outcome (workflow_engine (task_coordinator o)) now
                subject (agents o) config)
      as [(e' & r & -> & Hst)|[(e' & ->)| ->]]; simpl;
      eexists; (split; [done|]); split_and!; try done.
    + left. split_and!; try done. by exists r.
    + right. split_and!; try done. by left.
    + right. split_and!; try done. by right.
  - unfold analyze_data.
    destruct (analysis_outcome (workflow_engine (task_coordinator o)) now
                subject (agents o) extra)
      as [(e' & r & -> & Hst)|(e' & ->)]; simpl;
      eexists; (split; [done|]); split_and!; try done.
    + left. split_and!; try done. by exists r.
    + by right.
  - unfold generate_content.
    destruct (content_outcome (workflow_engine (task_coordinator o)) now
                subject (agents o) extra) as (e' & r & -> & Hst).
    simpl. by eexists _, r.
Qed.

(** ** What a research report says about the workers *)

(** The step objects [create_research_workflow] defines. *)
Definition research_steps (query processor : pyval) : list WorkflowStep :=
  [ new_step
      (mkConfig "search_step" "SearchAgent"
         (<["type" := PyStr "search"]> (<["query" := query]>
            {["processor" := processor]}))
         (Some []));
    new_step
      (mkConfig "analysis_step" "AnalystAgent"
         (<["type" := PyStr "analyze"]> (<["data" := PyNone]>
            {["analysis_type" := PyStr "research_analysis"]}))
         (Some ["search_step"]));
    new_step
      (mkConfig "verification_step" "CriticAgent"
         (<["type" := PyStr "validate"]> {["data" := PyNone]})
         (Some ["analysis_step"]));
    new_step
      (mkConfig "content_step" "WriterAgent"
         (<["type" := PyStr "generate"]> (<["data" := PyNone]>
            {["content_type" := PyStr "research_report"]}))
         (Some ["verification_step"])) ].

Lemma research_created e now query :
  ∃ e1,
    create_research_workflow e now query None
    = (e1, inl ("research_" +:+ now))
    ∧ workflows e1 !! ("research_" +:+ now)
      = Some (research_steps query (PyStr "base")).
Proof.
  eexists. split; [reflexivity|]. simpl. by rewrite lookup_insert_eq.
Qed.

Lemma four_workers_lookup search analyst critic writer :
  four_workers search analyst critic writer !! "SearchAgent" = Some search
  ∧ four_workers search analyst critic writer !! "AnalystAgent" = Some analyst
  ∧ four_workers search analyst critic writer !! "CriticAgent" = Some critic
  ∧ four_workers search analyst critic writer !! "WriterAgent" = Some writer.
Proof. done. Qed.

Lemma research_capabilities search analyst critic writer query processor :
  capabilities_present (four_workers search analyst critic writer)
    (research_steps query processor).
Proof.
  intros s Hs.
  repeat (apply elem_of_cons in Hs as [->|Hs]); try (by eexists).
  by apply elem_of_nil in Hs.
Qed.

Definition returns_always (a : Agent) : Prop :=
  ∀ payload, ∃ r, a payload = inl r.

Definition raises_always (a : Agent) : Prop :=
  ∀ payload, ∃ msg, a payload = inr msg.

Lemma research_inner search analyst critic writer query processor :
  returns_always search → returns_always analyst → returns_always critic →
  inner_workers_succeed (four_workers search analyst critic writer)
    (research_steps query processor).
Proof.
  intros Hsearch Hanalyst Hcritic s agent Hs (a & deps & Hnode & Hdep) Hag.
  destruct (four_workers_lookup search analyst critic writer)
    as (H1 & H2 & H3 & H4).
  repeat (apply elem_of_cons in Hs as [->|Hs]).
  - assert (agent = search) as -> by (simpl in Hag; congruence). done.
  - assert (agent = analyst) as -> by (simpl in Hag; congruence). done.
  - assert (agent = critic) as -> by (simpl in Hag; congruence). done.
  - exfalso. simpl in Hdep, Hnode.
    repeat (apply elem_of_cons in Hnode as [[= -> ->]|Hnode]);
      try (by apply elem_of_nil in Hdep);
      try (by apply list_elem_of_singleton in Hdep).
    by apply elem_of_nil in Hnode.
  - by apply elem_of_nil in Hs.
Qed.

(** What a research request with the default processors reports, by what
    the four workers do.  When the search, analysis and verification workers
    return, the request reports success, with an entry for each of their
    steps in the results, and counts the task as completed, whatever the
    content worker does: if that worker raises, the report is still one of
    success and only lacks the entry of the content step.  When the search,
    the analysis or the verification worker raises whatever it is given, the
    request reports failure with the stall error and the counter stays. *)
Theorem research_reports_follow_workers o now query search analyst critic
    writer :
  agents o = four_workers search analyst critic writer →
  (returns_always search → returns_always analyst → returns_always critic →
   ∃ rep r,
     (research o now query None).2 = Some rep
     ∧ rp_success rep = true ∧ rp_result rep = Some r
     ∧ total_tasks_completed (research o now query None).1
       = S (total_tasks_completed o)
     ∧ is_Some (wr_results r !! "search_step")
     ∧ is_Some (wr_results r !! "analysis_step")
     ∧ is_Some (wr_results r !! "verification_step")
     ∧ (raises_always writer → wr_results r !! "content_step" = None))
  ∧ (raises_always search ∨ raises_always analyst ∨ raises_always critic →
     (research o now query None).2
     = Some (mkReport false query None (Some stall_message))
     ∧ total_tasks_completed (research o now query None).1
       = total_tasks_completed o).
Proof.
  intros Hagents.
  destruct (research_created (workflow_engine (task_coordinator o)) now query)
    as (e1 & Hc & Hw).
  destruct (four_workers_lookup search analyst critic writer)
    as (H1 & H2 & H3 & H4).
  pose proof (research_capabilities search analyst critic writer query
                (PyStr "base")) as Hcap.
  assert (NoDup (step_id <$> research_steps query (PyStr "base"))) as Hnd
    by exact (proj1 research_shape_sound).
  unfold research, execute_research_task. rewrite Hagents, Hc. split.
  - intros Hsearch Hanalyst Hcritic.
    destruct (sink_failures_outcome e1 ("research_" +:+ now)
                (four_workers search analyst critic writer)
                (research_steps query (PyStr "base")) Hw)
      as (e' & results & calls & final & -> & _ & _ & Hall).
    { repeat constructor. }
    { exact Hnd. }
    { exact (proj1 (proj2 research_shape_sound)). }
    { exact (proj2 (proj2 research_shape_sound)). }
    { exact Hcap. }
    { by apply research_inner. }
    simpl. eexists _, _. split_and!; try done.
    + destruct (Hall 0 _ eq_refl) as (c & agent & s' & _ & _ & Hag & _ & Hm).
      assert (agent = search) as -> by (simpl in Hag; congruence).
      destruct (Hsearch (call_payload c)) as [r Hr]. rewrite Hr in Hm.
      destruct Hm as [_ Hres]. by eexists.
    + destruct (Hall 1 _ eq_refl) as (c & agent & s' & _ & _ & Hag & _ & Hm).
      assert (agent = analyst) as -> by (simpl in Hag; congruence).
      destruct (Hanalyst (call_payload c)) as [r Hr]. rewrite Hr in Hm.
      destruct Hm as [_ Hres]. by eexists.
    + destruct (Hall 2 _ eq_refl) as (c & agent & s' & _ & _ & Hag & _ & Hm).
      assert (agent = critic) as -> by (simpl in Hag; congruence).
      destruct (Hcritic (call_payload c)) as [r Hr]. rewrite Hr in Hm.
      destruct Hm as [_ Hres]. by eexists.
    + intros Hwriter.
      destruct (Hall 3 _ eq_refl) as (c & agent & s' & _ & _ & Hag & _ & Hm).
      assert (agent = writer) as -> by (simpl in Hag; congruence).
      destruct (Hwriter (call_payload c)) as [msg Hr]. rewrite Hr in Hm.
      by destruct Hm as (_ & _ & Hres).
  - intros Hraise.
    assert (∃ e' calls,
              execute_workflow e1 ("research_" +:+ now)
                (four_workers search analyst critic writer)
              = (e', Exn stall_message, calls)) as (e' & calls & ->).
    { destruct Hraise as [Hraise|[Hraise|Hraise]].
      - destruct (blocked_outcome e1 ("research_" +:+ now)
                    (four_workers search analyst critic writer)
                    (research_steps query (PyStr "base")) 0 _ search 1 _
                    Hw Hcap Hnd eq_refl eq_refl H1 Hraise eq_refl eq_refl)
          as (e' & calls & final & Hex & _); [simpl; left|].
        by exists e', calls.
      - destruct (blocked_outcome e1 ("research_" +:+ now)
                    (four_workers search analyst critic writer)
                    (research_steps query (PyStr "base")) 1 _ analyst 2 _
                    Hw Hcap Hnd eq_refl eq_refl H2 Hraise eq_refl eq_refl)
          as (e' & calls & final & Hex & _); [simpl; left|].
        by exists e', calls.
      - destruct (blocked_outcome e1 ("research_" +:+ now)
                    (four_workers search analyst critic writer)
                    (research_steps query (PyStr "base")) 2 _ critic 3 _
                    Hw Hcap Hnd eq_refl eq_refl H3 Hraise eq_refl eq_refl)
          as (e' & calls & final & Hex & _); [simpl; left|].
        by exists e', calls. }
    done.
Qed.

(** ** Tasks submitted through the orchestrator *)

(** A task as [add_research_task], [add_analysis_task] or
    [add_content_task] builds it: of one of the three types, with the entry
    that type reads. *)
Definition submitted (t : QueuedTask) : Prop :=
  (task_type t = Some "research" ∧ is_Some (query t))
  ∨ (task_type t = Some "analysis" ∧ is_Some (data t))
  ∨ (task_type t = Some "content" ∧ is_Some (data t)).

Lemma run_submitted e now agents t :
  submitted t →
  (∃ r, (run_task e now agents t).2 = Ok r ∧ wr_status r = "completed")
  ∨ (run_task e now agents t).2 = Exn stall_message
  ∨ (run_task e now agents t).2 = Exn "'search'".
Proof.
  unfold run_task.
  intros [[-> [q ->]]|[[-> [d ->]]|[-> [d ->]]]]; simpl.
  - destruct (research_outcome e now q agents (processor_config t))
      as [(e' & r & -> & ?)|[(e' & ->)| ->]]; simpl.
    + left. by exists r.
    + right. by left.
    + right. by right.
  - destruct (analysis_outcome e now d agents
                (default (PyStr "general") (analysis_type t)))
      as [(e' & r & -> & ?)|(e' & ->)]; simpl.
    + left. by exists r.
    + right. by left.
  - destruct (content_outcome e now d agents
                (default (PyStr "report") (content_type t)))
      as (e' & r & -> & ?); simpl.
    left. by exists r.
Qed.

(** How a record of the history can look for a submitted task. *)
Definition settled_record (t' : QueuedTask) : Prop :=
  (t_status t' = "completed"
   ∧ ∃ r, t_result t' = Some r ∧ wr_status r = "completed")
  ∨ (t_status t' = "failed"
     ∧ (t_error t' = Some stall_message ∨ t_error t' = Some "'search'")).

(** The three submissions of the orchestrator queue a task of their type
    under the id they return, behind the tasks already queued, and change
    nothing else.  When the queue holds submitted tasks only, a drain with
    the workers of the orchestrator, from a coordinator with no active task,
    runs to the end and leaves one record for each task, in queue order:
    completed with a result of status completed, or failed with the stall
    error or the missing search processor as its error.  No such task fails
    for its type or for a missing entry. *)
Theorem submitted_tasks_settle o clock :
  (∀ now subject config,
     ∃ t, (add_research_task o now subject config).2 = "task_" +:+ now
       ∧ task_queue (task_coordinator (add_research_task o now subject config).1)
         = task_queue (task_coordinator o) ++ [t]
       ∧ task_id t = "task_" +:+ now ∧ t_status t = "queued" ∧ submitted t
       ∧ agents (add_research_task o now subject config).1 = agents o)
  ∧ (∀ now payload extra,
       ∃ t, (add_analysis_task o now payload extra).2 = "task_" +:+ now
         ∧ task_queue (task_coordinator (add_analysis_task o now payload extra).1)
           = task_queue (task_coordinator o) ++ [t]
         ∧ task_id t = "task_" +:+ now ∧ t_status t = "queued" ∧ submitted t
         ∧ agents (add_analysis_task o now payload extra).1 = agents o)
  ∧ (∀ now payload extra,
       ∃ t, (add_content_task o now payload extra).2 = "task_" +:+ now
         ∧ task_queue (task_coordinator (add_content_task o now payload extra).1)
           = task_queue (task_coordinator o) ++ [t]
         ∧ task_id t = "task_" +:+ now ∧ t_status t = "queued" ∧ submitted t
         ∧ agents (add_content_task o now payload extra).1 = agents o)
  ∧ (active_tasks (task_coordinator o) = ∅ →
     Forall submitted (task_queue (task_coordinator o)) →
     d_finished (process_task_queue clock (agents o) (task_coordinator o))
     = true
     ∧ ∃ finished,
         task_history
           (d_final (process_task_queue clock (agents o) (task_coordinator o)))
         = task_history (task_coordinator o) ++ finished
         ∧ Forall2 (λ t t', task_id t' = task_id t ∧ settled_record t')
             (task_queue (task_coordinator o)) finished).
Proof.
  split_and!.
  - intros now subject config. eexists. split_and!; try done.
    left. split; [done|by eexists].
  - intros now payload extra. eexists. split_and!; try done.
    right. left. split; [done|by eexists].
  - intros now payload extra. eexists. split_and!; try done.
    right. right. split; [done|by eexists].
  - intros Hact Hall.
    destruct (CoordinatorFacts.drain_spec clock (agents o)
                (task_queue (task_coordinator o)) (task_coordinator o) []
                Hact eq_refl)
      as (Hfin & _ & _ & finished & snaps & Hhist & Hproc & _).
    split; [done|]. exists finished. split; [done|].
    apply Forall2_same_length_lookup. split; [by eapply Forall2_length|].
    intros k t t' Ht Ht'.
    pose proof (Forall2_lookup_lr _ _ _ _ _ _ Hproc Ht Ht') as (e & now & Hrec).
    assert (submitted t) as Hsub0
      by (eapply (proj1 (Forall_forall _ _) Hall), list_elem_of_lookup_2; done).
    assert (submitted (with_status "processing" t)) as Hsub by exact Hsub0.
    destruct (run_submitted e now (agents o) (with_status "processing" t) Hsub)
      as [(r & Hout & Hst)|[Hout|Hout]];
      rewrite Hout in Hrec; simpl in Hrec; injection Hrec as <-;
      (split; [done|]).
    + left. split; [done|]. by exists r.
    + right. split; [done|]. by left.
    + right. split; [done|]. by right.
Qed.

Section OnWorkers.
Import Scenarios.

Lemma research_reports_follow_workers_witness :
  (research (new_orchestrator (returns report) (raises "down")
               (returns report) (returns report))
     "0001" (PyStr "X") None).2
  = Some (mkReport false (PyStr "X") None (Some stall_message))
  ∧ ∃ rep r,
      (research (new_orchestrator (returns report) (returns report)
                   (returns report) (raises "down"))
         "0001" (PyStr "X") None).2 = Some rep
      ∧ rp_success rep = true ∧ rp_result rep = Some r
      ∧ wr_results r !! "content_step" = None.
Proof.
  split.
  - apply (proj2 (research_reports_follow_workers
                    (new_orchestrator (returns report) (raises "down")
                       (returns report) (returns report))
                    "0001" (PyStr "X") (returns report) (raises "down")
                    (returns report) (returns report) eq_refl)).
    right. left. intros payload. by exists "down".
  - destruct (proj1 (research_reports_follow_workers
                       (new_orchestrator (returns report) (returns report)
                          (returns report) (raises "down"))
                       "0001" (PyStr "X") (returns report) (returns report)
                       (returns report) (raises "down") eq_refl))
      as (rep & r & Hrep & Hsuccess & Hresult & _ & _ & _ & _ & Hwriter).
    + intros payload. by exists report.
    + intros payload. by exists report.
    + intros payload. by exists report.
    + exists rep, r. split; [exact Hrep|]. split; [exact Hsuccess|].
      split; [exact Hresult|]. apply Hwriter.
      intros payload. by exists "down".
Defined.

Lemma submitted_tasks_settle_witness :
  ∃ finished,
    task_history
      (d_final
         (process_task_queue (λ _, "0003") pipeline_table
            (task_coordinator
               (add_content_task
                  (mkOrchestrator (new_coordinator empty_engine)
                     pipeline_table 0)
                  "0001" (PyStr "notes") (PyStr "report")).1)))
    = finished
    ∧ Forall settled_record finished ∧ length finished = 1.
Proof.
  set (o := (add_content_task
               (mkOrchestrator (new_coordinator empty_engine) pipeline_table 0)
               "0001" (PyStr "notes") (PyStr "report")).1).
  destruct (submitted_tasks_settle o (λ _, "0003"))
    as (_ & _ & _ & Hdrain).
  destruct Hdrain as (_ & finished & Hhist & Hall).
  - reflexivity.
  - apply Forall_singleton. right. right. split; [done|by eexists].
  - exists finished. split; [exact Hhist|].
    split.
    + apply Forall_forall. intros t' [k Hk]%list_elem_of_lookup.
      destruct (Forall2_lookup_r _ _ _ _ _ Hall Hk) as (t & _ & _ & Hrec).
      exact Hrec.
    + by rewrite <- (Forall2_length _ _ _ Hall).
Defined.

End OnWorkers.

End OrchestratorFacts.

(** * Further properties of the verification memory *)

Module VerificationMore.
Import Verification VerificationFacts.

(** What an entry adds to a count. *)
Definition counts (b : bool) : nat := if b then 1 else 0.

(** The quotient the summary reports for two counts. *)
Definition ratio (a b : nat) : Q :=
  match b with
  | 0 => 0%Q
  | S _ => Z.of_nat a # Pos.of_nat b
  end.

Lemma filter_length_perm {A} (f : A → bool) (l l' : list A) :
  l ≡ₚ l' → length (List.filter f l) = length (List.filter f l').
Proof.
  induction 1 as [|x l l' _ IH|x y l|l1 l2 l3 _ IH1 _ IH2]; simpl.
  - done.
  - destruct (f x); simpl; congruence.
  - destruct (f x), (f y); simpl; congruence.
  - congruence.
Qed.

Lemma count_values_insert_fresh {A} (cond : A → bool) (d : gmap string A) k v :
  d !! k = None →
  count_values cond (<[k := v]> d) = counts (cond v) + count_values cond d.
Proof.
  intros Hk. unfold count_values.
  rewrite (filter_length_perm cond _ (v :: (map_to_list d).*2)).
  - simpl. by destruct (cond v).
  - by rewrite map_to_list_insert.
Qed.

Lemma count_values_insert {A} (cond : A → bool) (d : gmap string A) k v :
  count_values cond (<[k := v]> d)
  + from_option (λ old, counts (cond old)) 0 (d !! k)
  = counts (cond v) + count_values cond d.
Proof.
  destruct (d !! k) as [old|] eqn:Hk; simpl.
  - rewrite <- (insert_delete_id d k old Hk) at 2.
    rewrite <- (insert_delete_eq d k v).
    rewrite !count_values_insert_fresh by apply lookup_delete_eq. lia.
  - rewrite count_values_insert_fresh by done. lia.
Qed.

Lemma summary_value vm :
  get_verification_summary vm
  = inl {| total_fact_checks := size (fact_checks vm);
           verified_claims := count_values is_verified (fact_checks vm);
           total_validations := size (validations vm);
           valid_data := count_values is_valid (validations vm);
           verification_rate :=
             ratio (count_values is_verified (fact_checks vm))
               (size (fact_checks vm));
           validation_rate :=
             ratio (count_values is_valid (validations vm))
               (size (validations vm)) |}.
Proof.
  unfold get_verification_summary.
  by destruct (size (fact_checks vm)), (size (validations vm)).
Qed.

(** The summary follows the stores.  Storing a fact-check under a new claim
    id makes the summary count one fact-check more, and one verified claim
    more exactly when the stored result has status verified; storing under
    an id already in use keeps the number of fact-checks and exchanges the
    contribution of the old entry for that of the new one.  The validation
    counts and rate are untouched.  Storing a validation does the same to
    the validation counts and leaves the fact-check counts and rate as they
    were. *)
Theorem summary_follows_the_stores vm id text result :
  ∃ s s1 s2,
    get_verification_summary vm = inl s
    ∧ get_verification_summary (store_fact_check vm id text result) = inl s1
    ∧ get_verification_summary (store_validation vm id result) = inl s2
    ∧ (total_validations s1 = total_validations s
       ∧ valid_data s1 = valid_data s
       ∧ validation_rate s1 = validation_rate s
       ∧ match fact_checks vm !! id with
         | None =>
             total_fact_checks s1 = S (total_fact_checks s)
             ∧ verified_claims s1
               = counts (is_verified (mkFactCheck text result))
                 + verified_claims s
         | Some old =>
             total_fact_checks s1 = total_fact_checks s
             ∧ verified_claims s1 + counts (is_verified old)
               = counts (is_verified (mkFactCheck text result))
                 + verified_claims s
         end)
    ∧ (total_fact_checks s2 = total_fact_checks s
       ∧ verified_claims s2 = verified_claims s
       ∧ verification_rate s2 = verification_rate s
       ∧ match validations vm !! id with
         | None =>
             total_validations s2 = S (total_validations s)
             ∧ valid_data s2 = counts (is_valid result) + valid_data s
         | Some old =>
             total_validations s2 = total_validations s
             ∧ valid_data s2 + counts (is_valid old)
               = counts (is_valid result) + valid_data s
         end).
Proof.
  eexists _, _, _. rewrite !summary_value. split_and!; try done; simpl.
  - pose proof (count_values_insert is_verified (fact_checks vm) id
                  (mkFactCheck text result)) as Hcount.
    rewrite map_size_insert.
    destruct (fact_checks vm !! id) as [old|]; simpl in *; split; try done.
    lia.
  - pose proof (count_values_insert is_valid (validations vm) id result)
      as Hcount.
    rewrite map_size_insert.
    destruct (validations vm !! id) as [old|]; simpl in *; split; try done.
    lia.
Qed.

Lemma ratio_fraction a b : a ≤ b → (0 <= ratio a b)%Q ∧ (ratio a b <= 1)%Q.
Proof.
  intros Hle. destruct b as [|b]; simpl; [done|].
  unfold Qle. simpl. rewrite <- Pos.of_nat_succ.
  change (Z.pos (Pos.of_succ_nat b)) with (Z.of_nat (S b)). lia.
Qed.

(** For every state of the verification memory both rates of the summary
    are fractions between 0 and 1, the count of valid data is the number of
    validations whose [is_valid] entry is true, and the validation rate is 0
    without validations and that count divided by the number of validations
    otherwise. *)
Theorem rates_are_fractions vm :
  ∃ s, get_verification_summary vm = inl s
    ∧ (0 <= verification_rate s)%Q ∧ (verification_rate s <= 1)%Q
    ∧ (0 <= validation_rate s)%Q ∧ (validation_rate s <= 1)%Q
    ∧ total_validations s = size (validations vm)
    ∧ valid_data s = count_values is_valid (validations vm)
    ∧ valid_data s ≤ total_validations s
    ∧ (total_validations s = 0 → validation_rate s = 0%Q)
    ∧ (0 < total_validations s →
       (validation_rate s
        == inject_Z (Z.of_nat (valid_data s))
           / inject_Z (Z.of_nat (total_validations s)))%Q).
Proof.
  eexists. rewrite summary_value. split; [done|]. simpl.
  pose proof (count_values_le is_verified (fact_checks vm)) as Hv.
  pose proof (count_values_le is_valid (validations vm)) as Hd.
  destruct (ratio_fraction _ _ Hv) as [? ?].
  destruct (ratio_fraction _ _ Hd) as [? ?].
  split_and!; try done.
  - by intros ->.
  - intros Hpos.
    destruct (true_div_positive (count_values is_valid (validations vm))
                (size (validations vm)) Hpos) as (q & Hq & Heq).
    destruct (size (validations vm)) as [|n]; [lia|]. simpl in Hq.
    injection Hq as <-. exact Heq.
Qed.

Lemma rates_are_fractions_witness :
  ∃ s, get_verification_summary Scenarios.two_fact_checks = inl s
    ∧ total_validations s = 0 ∧ validation_rate s = 0%Q.
Proof.
  destruct (rates_are_fractions Scenarios.two_fact_checks)
    as (s & Hs & _ & _ & _ & _ & Htotal & _ & _ & Hzero & _).
  exists s. split; [exact Hs|]. split; [exact Htotal|].
  apply Hzero. exact Htotal.
Defined.

End VerificationMore.

(** * Further properties of the shared knowledge repository *)

Module KnowledgeMore.
Import Knowledge KnowledgeQueries KnowledgeFacts.

(** ** Importing a snapshot *)

(** Importing a snapshot whose graph and relationships are objects, or are
    left out, raises nothing and merges: a node or a relationship list of
    the snapshot replaces the one the repository had under that id, every
    other entry stays, and the metadata and the memory tiers are untouched.
    Importing the same snapshot once more changes nothing. *)
Theorem import_merges_snapshot repo members graph rels :
  default (PyDict []) (to_dict members !! "knowledge_graph") = PyDict graph →
  default (PyDict []) (to_dict members !! "relationships") = PyDict rels →
  ∃ repo',
    import_knowledge repo (PyDict members) "json" = Some (repo', None)
    ∧ (∀ k, knowledge_graph repo' !! k
            = match to_dict graph !! k with
              | Some v => Some v
              | None => knowledge_graph repo !! k
              end)
    ∧ (∀ k, relationships repo' !! k
            = match to_dict rels !! k with
              | Some v => Some v
              | None => relationships repo !! k
              end)
    ∧ metadata repo' = metadata repo
    ∧ search_memory repo' = search_memory repo
    ∧ analysis_memory repo' = analysis_memory repo
    ∧ verification_memory repo' = verification_memory repo
    ∧ content_memory repo' = content_memory repo
    ∧ import_knowledge repo' (PyDict members) "json" = Some (repo', None).
Proof.
  intros Hg Hr. unfold import_knowledge. simpl. rewrite Hg, Hr. simpl.
  eexists. split; [done|]. simpl. split_and!; try done.
  - intros k. rewrite lookup_union.
    by destruct (to_dict graph !! k), (knowledge_graph repo !! k).
  - intros k. rewrite lookup_union.
    by destruct (to_dict rels !! k), (relationships repo !! k).
  - by rewrite !(assoc_L (∪)), !(idemp_L (∪)).
Qed.

Lemma import_merges_snapshot_witness :
  ∃ repo',
    import_knowledge
      (add_knowledge_node (empty_repository PyNone PyNone PyNone PyNone)
         "a" (PyStr "old") "test" "0001")
      (PyDict [("knowledge_graph", PyDict [("a", PyStr "new")])]) "json"
    = Some (repo', None)
    ∧ knowledge_graph repo' !! "a" = Some (PyStr "new").
Proof.
  destruct (import_merges_snapshot
              (add_knowledge_node (empty_repository PyNone PyNone PyNone PyNone)
                 "a" (PyStr "old") "test" "0001")
              [("knowledge_graph", PyDict [("a", PyStr "new")])]
              [("a", PyStr "new")] [] eq_refl eq_refl)
    as (repo' & Himport & Hgraph & _).
  exists repo'. split; [exact Himport|]. rewrite Hgraph. reflexivity.
Defined.


(** ** Imports that raise *)

(** [None], a boolean or a number: a JSON value that is not iterable. *)
Definition not_iterable (v : pyval) : Prop :=
  v = PyNone ∨ (∃ b, v = PyBool b) ∨ ∃ n, v = PyInt n.

(** An import that raises is not undone.  A snapshot that is an object with
    a value that is not iterable in place of the graph raises a type error
    and leaves the repository as it was.  With an object, or nothing, in
    place of the graph and such a value in place of the relationships, the
    import raises the type error after the graph was merged: the nodes of
    the snapshot are in the repository, the relationships are as they
    were.  A snapshot that is not an object raises an attribute error and
    changes nothing. *)
Theorem failed_import_is_not_undone repo :
  (∀ members bad,
     to_dict members !! "knowledge_graph" = Some bad → not_iterable bad →
     import_knowledge repo (PyDict members) "json"
     = Some (repo, Some "TypeError"))
  ∧ (∀ members graph bad,
       default (PyDict []) (to_dict members !! "knowledge_graph")
       = PyDict graph →
       to_dict members !! "relationships" = Some bad → not_iterable bad →
       ∃ repo',
         import_knowledge repo (PyDict members) "json"
         = Some (repo', Some "TypeError")
         ∧ knowledge_graph repo' = to_dict graph ∪ knowledge_graph repo
         ∧ relationships repo' = relationships repo
         ∧ metadata repo' = metadata repo)
  ∧ (∀ snapshot,
       (∀ members, snapshot ≠ PyDict members) →
       import_knowledge repo snapshot "json"
       = Some (repo, Some "AttributeError")).
Proof.
  split_and!.
  - intros members bad Hg Hbad. unfold import_knowledge. simpl. rewrite Hg.
    simpl. by destruct Hbad as [->|[[b ->]|[n ->]]].
  - intros members graph bad Hg Hr Hbad. unfold import_knowledge. simpl.
    rewrite Hg, Hr. simpl. eexists.
    by destruct Hbad as [->|[[b ->]|[n ->]]].
  - intros snapshot Hnot. unfold import_knowledge. simpl.
    destruct snapshot; try done. by destruct (Hnot kvs).
Qed.

Lemma failed_import_is_not_undone_witness :
  ∃ repo',
    import_knowledge (empty_repository PyNone PyNone PyNone PyNone)
      (PyDict [("knowledge_graph", PyDict [("a", PyStr "new")]);
               ("relationships", PyNone)]) "json"
    = Some (repo', Some "TypeError")
    ∧ knowledge_graph repo' !! "a" = Some (PyStr "new").
Proof.
  destruct (proj1 (proj2 (failed_import_is_not_undone
                            (empty_repository PyNone PyNone PyNone PyNone)))
              [("knowledge_graph", PyDict [("a", PyStr "new")]);
               ("relationships", PyNone)]
              [("a", PyStr "new")] PyNone eq_refl eq_refl)
    as (repo' & Himport & Hgraph & _).
  - by left.
  - exists repo'. split; [exact Himport|]. rewrite Hgraph. reflexivity.
Defined.

(** ** Relationships *)

(** A relationship to add: the two nodes, the type and the time stamp. *)
Record Edge : Type := mkEdge {
  e_from : string;
  e_to : string;
  e_type : string;
  e_now : string
}.

(** The dictionary [add_relationship] appends for an edge. *)
Definition relationship_of (ed : Edge) : pyval :=
  PyDict [("target", PyStr (e_to ed)); ("type", PyStr (e_type ed));
          ("timestamp", PyStr (e_now ed))].

(** [add_relationship] called for each edge in turn, up to the first call
    that raises. *)
Fixpoint add_relationships (repo : SharedKnowledgeRepository)
    (edges : list Edge) : SharedKnowledgeRepository + string :=
  match edges with
  | [] => inl repo
  | ed :: rest =>
      match add_relationship repo (e_from ed) (e_to ed) (e_type ed)
              (e_now ed) with
      | inl repo' => add_relationships repo' rest
      | inr exn => inr exn
      end
  end.

(** Every entry of [relationships] is a list. *)
Definition lists_only (repo : SharedKnowledgeRepository) : Prop :=
  ∀ k v, relationships repo !! k = Some v → ∃ l, v = PyList l.

Lemma add_relationship_step repo ed :
  lists_only repo →
  ∃ repo' old,
    add_relationship repo (e_from ed) (e_to ed) (e_type ed) (e_now ed)
    = inl repo'
    ∧ lists_only repo'
    ∧ get_relationships repo (e_from ed) = PyList old
    ∧ get_relationships repo' (e_from ed)
      = PyList (old ++ [relationship_of ed])
    ∧ (∀ node, node ≠ e_from ed →
         get_relationships repo' node = get_relationships repo node)
    ∧ knowledge_graph repo' = knowledge_graph repo
    ∧ metadata repo' = metadata repo.
Proof.
  intros Hlists. unfold add_relationship, get_relationships.
  assert (∃ old, default (PyList []) (relationships repo !! e_from ed)
                 = PyList old) as [old Hold].
  { destruct (relationships repo !! e_from ed) as [v|] eqn:Hv; simpl.
    - destruct (Hlists _ _ Hv) as [l ->]. by exists l.
    - by exists []. }
  rewrite Hold. eexists _, old. split; [done|]. simpl. split_and!; try done.
  - intros k v Hk. simpl in Hk.
    destruct (decide (k = e_from ed)) as [->|Hne].
    + rewrite lookup_insert_eq in Hk. injection Hk as <-. by eexists.
    + rewrite lookup_insert_ne in Hk by done. by eapply Hlists.
  - by rewrite lookup_insert_eq.
  - intros node Hne. by rewrite lookup_insert_ne.
Qed.

(** Relationships accumulate.  On a repository whose relationship entries
    are lists, adding edges one after the other never raises, and afterwards
    the relationships of every node are those it had, followed by the
    dictionaries of the edges that start at the node, in the order they were
    added; the knowledge graph and the metadata are untouched. *)
Theorem relationships_accumulate repo edges :
  lists_only repo →
  ∃ repo',
    add_relationships repo edges = inl repo'
    ∧ (∀ node old,
         get_relationships repo node = PyList old →
         get_relationships repo' node
         = PyList (old ++ (relationship_of <$>
                             filter (λ ed, e_from ed = node) edges)))
    ∧ knowledge_graph repo' = knowledge_graph repo
    ∧ metadata repo' = metadata repo.
Proof.
  revert repo. induction edges as [|ed edges IH]; intros repo Hlists.
  { exists repo. split_and!; try done.
    intros node old ->. by rewrite filter_nil, app_nil_r. }
  destruct (add_relationship_step repo ed Hlists)
    as (repo1 & old1 & Hadd & Hlists1 & Hold1 & Hnew1 & Hothers & Hg1 & Hm1).
  destruct (IH repo1 Hlists1) as (repo' & Hrest & Hall & Hg & Hm).
  exists repo'. simpl. rewrite Hadd. split_and!; [done | | congruence..].
  intros node old Hold. rewrite filter_cons.
  destruct (decide (e_from ed = node)) as [<-|Hne].
  - assert (old1 = old) as -> by congruence.
    rewrite (Hall (e_from ed) _ Hnew1), fmap_cons, <- app_assoc. done.
  - apply Hall. rewrite Hothers by done. exact Hold.
Qed.

Lemma relationships_accumulate_witness :
  ∃ repo',
    add_relationships (empty_repository PyNone PyNone PyNone PyNone)
      [mkEdge "a" "b" "cites" "0001"; mkEdge "c" "a" "related" "0002";
       mkEdge "a" "c" "related" "0003"]
    = inl repo'
    ∧ get_relationships repo' "a"
      = PyList [relationship_of (mkEdge "a" "b" "cites" "0001");
                relationship_of (mkEdge "a" "c" "related" "0003")].
Proof.
  destruct (relationships_accumulate
              (empty_repository PyNone PyNone PyNone PyNone)
              [mkEdge "a" "b" "cites" "0001"; mkEdge "c" "a" "related" "0002";
               mkEdge "a" "c" "related" "0003"])
    as (repo' & Hadd & Hall & _).
  { intros k v Hk. simpl in Hk. by rewrite lookup_empty in Hk. }
  exists repo'. split; [exact Hadd|].
  apply (Hall "a" []). reflexivity.
Defined.

(** ** Access counts *)

(** The node [add_knowledge_node] stores, after [n] accesses. *)
Definition node_after (n : nat) (node_data : pyval) (source now : string)
    : pyval :=
  PyDict [("data", node_data); ("source", PyStr source);
          ("timestamp", PyStr now); ("access_count", PyInt (Z.of_nat n))].

(** The repository after [n] calls of [get_knowledge_node] for one id. *)
Fixpoint accessed (n : nat) (repo : SharedKnowledgeRepository)
    (node_id : string) : SharedKnowledgeRepository :=
  match n with
  | 0 => repo
  | S n' => (get_knowledge_node (accessed n' repo node_id) node_id).1
  end.

Lemma get_knowledge_node_counts repo node_id n node_data source now :
  knowledge_graph repo !! node_id = Some (node_after n node_data source now) →
  ∃ repo',
    get_knowledge_node repo node_id
    = (repo', inl (Some (node_after (S n) node_data source now)))
    ∧ knowledge_graph repo'
      = <[node_id := node_after (S n) node_data source now]>
          (knowledge_graph repo)
    ∧ relationships repo' = relationships repo
    ∧ metadata repo' = metadata repo.
Proof.
  intros Hnode. unfold get_knowledge_node. rewrite Hnode.
  unfold node_after at 1.
  assert (to_dict [("data", node_data); ("source", PyStr source);
                   ("timestamp", PyStr now);
                   ("access_count", PyInt (Z.of_nat n))] !! "access_count"
          = Some (PyInt (Z.of_nat n))) as ->.
  { unfold to_dict. cbn [foldl fst snd]. by rewrite lookup_insert_eq. }
  cbn [increment].
  assert (set_member "access_count" (PyInt (Z.of_nat n + 1))
            [("data", node_data); ("source", PyStr source);
             ("timestamp", PyStr now); ("access_count", PyInt (Z.of_nat n))]
          = [("data", node_data); ("source", PyStr source);
             ("timestamp", PyStr now);
             ("access_count", PyInt (Z.of_nat (S n)))]) as ->.
  { unfold set_member. rewrite bool_decide_eq_true_2 by set_solver.
    simpl. by rewrite Nat2Z.inj_succ. }
  by eexists.
Qed.

(** Every access of a node is counted.  After [add_knowledge_node], the
    call of [get_knowledge_node] that follows [n] earlier ones returns the
    node with its data, source and time stamp and with access count [n + 1],
    which is also what the graph then holds; the other nodes, the
    relationships and the metadata are as [add_knowledge_node] left them.
    Adding the node again sets the count back to 0, and an id that is not in
    the graph is answered with nothing and changes nothing. *)
Theorem accesses_are_counted repo node_id node_data source now n :
  let fresh := add_knowledge_node repo node_id node_data source now in
  get_knowledge_node (accessed n fresh node_id) node_id
  = (accessed (S n) fresh node_id,
     inl (Some (node_after (S n) node_data source now)))
  ∧ knowledge_graph (accessed n fresh node_id)
    = <[node_id := node_after n node_data source now]> (knowledge_graph repo)
  ∧ relationships (accessed n fresh node_id) = relationships repo
  ∧ metadata (accessed n fresh node_id) = metadata fresh
  ∧ knowledge_graph
      (add_knowledge_node (accessed n fresh node_id) node_id node_data source
         now) !! node_id
    = Some (node_after 0 node_data source now)
  ∧ ∀ other,
      knowledge_graph (accessed n fresh node_id) !! other = None →
      get_knowledge_node (accessed n fresh node_id) other
      = (accessed n fresh node_id, inl None).
Proof.
  intros fresh.
  assert (knowledge_graph (accessed n fresh node_id)
          = <[node_id := node_after n node_data source now]>
              (knowledge_graph repo)
          ∧ relationships (accessed n fresh node_id) = relationships repo
          ∧ metadata (accessed n fresh node_id) = metadata fresh)
    as (Hgraph & Hrels & Hmeta).
  { induction n as [|n (IHg & IHr & IHm)]; [done|]. simpl.
    destruct (get_knowledge_node_counts (accessed n fresh node_id) node_id n
                node_data source now) as (repo' & -> & Hg & Hr & Hm).
    { by rewrite IHg, lookup_insert_eq. }
    simpl. rewrite Hg, Hr, Hm, IHg, insert_insert_eq. done. }
  split_and!; try done.
  - destruct (get_knowledge_node_counts (accessed n fresh node_id) node_id n
                node_data source now) as (repo' & Hget & _).
    { by rewrite Hgraph, lookup_insert_eq. }
    simpl. by rewrite Hget.
  - simpl. by rewrite lookup_insert_eq.
  - intros other Hother. unfold get_knowledge_node. by rewrite Hother.
Qed.

Lemma accesses_are_counted_witness :
  (get_knowledge_node
     (accessed 2
        (add_knowledge_node (empty_repository PyNone PyNone PyNone PyNone)
           "a" (PyStr "fact") "test" "0001")
        "a")
     "a").2
  = inl (Some (node_after 3 (PyStr "fact") "test" "0001"))
  ∧ (get_knowledge_node
       (accessed 2
          (add_knowledge_node (empty_repository PyNone PyNone PyNone PyNone)
             "a" (PyStr "fact") "test" "0001")
          "a")
       "b").2
    = inl None.
Proof.
  destruct (accesses_are_counted
              (empty_repository PyNone PyNone PyNone PyNone) "a" (PyStr "fact")
              "test" "0001" 2)
    as (Hget & _ & _ & _ & _ & Hmissing).
  split.
  - rewrite Hget. reflexivity.
  - rewrite Hmissing; reflexivity.
Defined.

End KnowledgeMore.
